(** * Adjacency-list undirected graph: mutation and exploration

    A shallow embedding of [undirected_graph.py] (class [Vertex],
    [UndirectedEdge], [UndirectedGraph]) and of the part of its base class
    [AbstractGraph] ([_find_vtx], [remove_vtx]) that it relies on.

    Python objects have identity and are mutated in place, so the vertex
    objects live in a store addressed by reference; the two lists of the
    graph and the adjacency lists of the vertices hold references into it. *)

From stdpp Require Import base list gmap sorting.
From Stdlib Require Import ZArith Lia.

Set Default Proof Using "Type".
#[local] Set Warnings "-clear-no-such-hyp".

(** ** Objects *)

(** A reference to a vertex object: its index in the store. *)
Abbreviation vref := nat.

(** An [UndirectedEdge] object.  Nothing in the graph ever calls the
    setters of [end1] and [end2], so an edge is an immutable pair of vertex
    references; [eid] is the identity of the object, what Python's [is]
    (and the default [==] used by [list.remove]) compares. *)
Record UndirectedEdge := mkEdge {
  eid : nat;
  end1 : vref;
  end2 : vref
}.

(** A [Vertex] object: [_vtx_id], [_edges], [_neighbors], and the
    exploration marks of the base class. *)
Record Vertex := mkVertex {
  vtx_id : Z;
  edges : list UndirectedEdge;
  neighbors : gset Z;
  explored : bool;
  layer : Z
}.

(** The graph: the store of all vertex objects ever created, and the two
    lists [_vtx_list] and [_edge_list] of [AbstractGraph]. *)
Record UndirectedGraph := mkGraph {
  heap : list Vertex;
  vtx_list : list vref;
  edge_list : list UndirectedEdge
}.

Definition with_heap (h : list Vertex) (g : UndirectedGraph) : UndirectedGraph :=
  mkGraph h (vtx_list g) (edge_list g).
Definition with_vtx_list (l : list vref) (g : UndirectedGraph) : UndirectedGraph :=
  mkGraph (heap g) l (edge_list g).
Definition with_edge_list (l : list UndirectedEdge) (g : UndirectedGraph) : UndirectedGraph :=
  mkGraph (heap g) (vtx_list g) l.

Definition with_edges (es : list UndirectedEdge) (ns : gset Z) (v : Vertex) : Vertex :=
  mkVertex (vtx_id v) es ns (explored v) (layer v).
Definition with_explored (b : bool) (v : Vertex) : Vertex :=
  mkVertex (vtx_id v) (edges v) (neighbors v) b (layer v).
Definition with_layer (n : Z) (v : Vertex) : Vertex :=
  mkVertex (vtx_id v) (edges v) (neighbors v) (explored v) n.

(** ** Exceptions and the state monad

    [IllegalArgumentError] is the error the spec calls InvalidArgument;
    [ValueError] is what [list.remove] raises on a missing element.
    ([set.remove] raises [KeyError] on a missing element, but its one call
    site has just tested membership.)  [Dangling] (a reference outside the
    store) and [OutOfFuel] (a loop that outlives its bound) have no Python
    counterpart: the theorems below show that they do not occur. *)
Inductive exn := IllegalArgumentError | ValueError.

Inductive result (A : Type) :=
  | Ok (a : A)
  | Raise (e : exn)
  | Dangling
  | OutOfFuel.
Arguments Ok {A} a.
Arguments Raise {A} e.
Arguments Dangling {A}.
Arguments OutOfFuel {A}.

(** A method call: it returns or raises, and leaves the graph in the state
    reached at that point. *)
Definition M (A : Type) : Type := UndirectedGraph → result A * UndirectedGraph.

Definition ret {A} (a : A) : M A := λ g, (Ok a, g).
Definition raise {A} (e : exn) : M A := λ g, (Raise e, g).
Definition dangling {A} : M A := λ g, (Dangling, g).
Definition out_of_fuel {A} : M A := λ g, (OutOfFuel, g).

Definition bind {A B} (m : M A) (k : A → M B) : M B := λ g,
  match m g with
  | (Ok a, g') => k a g'
  | (Raise e, g') => (Raise e, g')
  | (Dangling, g') => (Dangling, g')
  | (OutOfFuel, g') => (OutOfFuel, g')
  end.

Notation "'do' x <- m ; k" := (bind m (λ x, k))
  (at level 10, x name, m at level 100, k at level 200).
Notation "'do_' m ; k" := (bind m (λ _, k))
  (at level 10, m at level 100, k at level 200).

(** Reading and writing a vertex object. *)
Definition deref (r : vref) : M Vertex := λ g,
  match heap g !! r with
  | Some v => (Ok v, g)
  | None => (Dangling, g)
  end.

Definition store (r : vref) (v : Vertex) : M unit := λ g,
  (Ok tt, with_heap (<[r := v]> (heap g)) g).

(** [list.remove(x)]: drops the first element equal to [x], [None] when
    there is none (Python raises [ValueError]). *)
Fixpoint list_remove {A} (eqb : A → A → bool) (x : A) (l : list A) : option (list A) :=
  match l with
  | [] => None
  | y :: l' => if eqb y x then Some l' else cons y <$> list_remove eqb x l'
  end.

(** Identity of edge objects. *)
Definition edge_is (e1 e2 : UndirectedEdge) : bool := eid e1 =? eid e2.

(** The identity of a newly created edge object: different from every edge
    object that is still referenced from the graph. *)
Definition max_eid (es : list UndirectedEdge) : nat :=
  foldr (λ e m, eid e `max` m) 0 es.
Definition fresh_eid (g : UndirectedGraph) : nat :=
  S (max_eid (edge_list g) `max` foldr (λ v m, max_eid (edges v) `max` m) 0 (heap g)).

(** ** Class [Vertex] *)

(** The endpoint of [e] that is not [self] (the [if edge.end1 is self]
    idiom that every method repeats). *)
Definition neighbor_of (self : vref) (e : UndirectedEdge) : vref :=
  if end1 e =? self then end2 e else end1 e.

(** [Vertex.get_edge_with_neighbor]; the scan of [self._edges]. *)
Fixpoint first_edge_between (self neighbor : vref) (es : list UndirectedEdge)
    : option UndirectedEdge :=
  match es with
  | [] => None
  | edge :: es' =>
      if ((end1 edge =? self) && (end2 edge =? neighbor))
         || ((end1 edge =? neighbor) && (end2 edge =? self))
      then Some edge
      else first_edge_between self neighbor es'
  end.

Definition get_edge_with_neighbor (self : vref) (neighbor : option vref)
    : M (option UndirectedEdge) :=
  match neighbor with
  | None => raise IllegalArgumentError
  | Some n =>
      do me <- deref self;
      ret (first_edge_between self n (edges me))
  end.

(** [Vertex.add_edge] *)
Definition Vertex_add_edge (self : vref) (new_edge : option UndirectedEdge) : M unit :=
  match new_edge with
  | None => raise IllegalArgumentError
  | Some e =>
      if negb (end1 e =? self) && negb (end2 e =? self)
      then raise IllegalArgumentError
      else
        do nb <- deref (neighbor_of self e);
        do me <- deref self;
        if decide (vtx_id nb ∈ neighbors me)
        then raise IllegalArgumentError
        else store self (with_edges (edges me ++ [e])
                                    (neighbors me ∪ {[vtx_id nb]}) me)
  end.

(** [Vertex.remove_edge]: [self._edges.remove] and [self._neighbors.remove]
    run back to back once the three checks have passed; only the first can
    raise, before anything is written. *)
Definition Vertex_remove_edge (self : vref) (edge_to_remove : option UndirectedEdge)
    : M unit :=
  match edge_to_remove with
  | None => raise IllegalArgumentError
  | Some e =>
      if negb (end1 e =? self) && negb (end2 e =? self)
      then raise IllegalArgumentError
      else
        do nb <- deref (neighbor_of self e);
        do me <- deref self;
        if decide (vtx_id nb ∈ neighbors me)
        then
          match list_remove edge_is e (edges me) with
          | None => raise ValueError
          | Some es =>
              store self (with_edges es (neighbors me ∖ {[vtx_id nb]}) me)
          end
        else raise IllegalArgumentError
  end.

(** ** Class [AbstractGraph] *)

(** [AbstractGraph._find_vtx]: the first vertex of [_vtx_list] with the
    given id, or [None]. *)
Fixpoint find_vtx_in (l : list vref) (id : Z) : M (option vref) :=
  match l with
  | [] => ret None
  | vtx :: l' =>
      do v <- deref vtx;
      if (vtx_id v =? id)%Z then ret (Some vtx) else find_vtx_in l' id
  end.

Definition _find_vtx (id : Z) : M (option vref) := λ g,
  find_vtx_in (vtx_list g) id g.

(** ** Class [UndirectedGraph]: mutation *)

Definition empty_graph : UndirectedGraph := mkGraph [] [] [].

(** Modelled from the spec: the constructor of [AbstractVertex] of
    [graph_basics.py] next to [undirected_graph.py] is not in the sources;
    per the spec a vertex carries "a boolean explored mark and an integer
    layer", a new vertex is unexplored, and "source layer = 0" without
    [shortest_path] ever writing it. *)
Definition new_Vertex (vtx_id : Z) : Vertex := mkVertex vtx_id [] ∅ false 0.

(** [UndirectedGraph.add_vtx] *)
Definition add_vtx (new_vtx_id : Z) : M unit :=
  do found <- _find_vtx new_vtx_id;
  match found with
  | Some _ => raise IllegalArgumentError
  | None => λ g,
      let new_vtx := length (heap g) in
      (Ok tt, mkGraph (heap g ++ [new_Vertex new_vtx_id])
                      (vtx_list g ++ [new_vtx]) (edge_list g))
  end.

(** [UndirectedGraph._add_edge] *)
Definition _add_edge (new_edge : UndirectedEdge) : M unit :=
  do_ Vertex_add_edge (end1 new_edge) (Some new_edge);
  do_ Vertex_add_edge (end2 new_edge) (Some new_edge);
  λ g, (Ok tt, with_edge_list (edge_list g ++ [new_edge]) g).

(** [UndirectedGraph.add_edge] *)
Definition add_edge (end1_id end2_id : Z) : M unit :=
  do e1 <- _find_vtx end1_id;
  do e2 <- _find_vtx end2_id;
  match e1, e2 with
  | Some a, Some b =>
      if (end1_id =? end2_id)%Z then raise IllegalArgumentError
      else λ g, _add_edge (mkEdge (fresh_eid g) a b) g
  | _, _ => raise IllegalArgumentError
  end.

(** [UndirectedGraph._remove_edge] *)
Definition _remove_edge (edge_to_remove : UndirectedEdge) : M unit :=
  do_ Vertex_remove_edge (end1 edge_to_remove) (Some edge_to_remove);
  do_ Vertex_remove_edge (end2 edge_to_remove) (Some edge_to_remove);
  λ g, match list_remove edge_is edge_to_remove (edge_list g) with
       | None => (Raise ValueError, g)
       | Some es => (Ok tt, with_edge_list es g)
       end.

(** [UndirectedGraph.remove_edge] *)
Definition remove_edge (end1_id end2_id : Z) : M unit :=
  do e1 <- _find_vtx end1_id;
  do e2 <- _find_vtx end2_id;
  match e1, e2 with
  | Some a, Some b =>
      do edge_to_remove <- get_edge_with_neighbor a (Some b);
      match edge_to_remove with
      | None => raise IllegalArgumentError
      | Some e => _remove_edge e
      end
  | _, _ => raise IllegalArgumentError
  end.

(** [UndirectedGraph._remove_vtx].  The [while len(edges_to_remove)] loop
    re-reads the adjacency list of the vertex, which [_remove_edge] shrinks
    through the alias; every round that does not raise also takes one edge
    out of [_edge_list], which bounds the number of rounds. *)
Fixpoint remove_incident_edges (fuel : nat) (vtx_to_remove : vref) : M unit :=
  match fuel with
  | 0 => out_of_fuel
  | S fuel' =>
      do v <- deref vtx_to_remove;
      match edges v with
      | [] => ret tt
      | e :: _ =>
          do_ _remove_edge e;
          remove_incident_edges fuel' vtx_to_remove
      end
  end.

Definition _remove_vtx (vtx_to_remove : vref) : M unit :=
  do_ (λ g, remove_incident_edges (S (length (edge_list g))) vtx_to_remove g);
  λ g, match list_remove Nat.eqb vtx_to_remove (vtx_list g) with
       | None => (Raise ValueError, g)
       | Some l => (Ok tt, with_vtx_list l g)
       end.

(** [AbstractGraph.remove_vtx] *)
Definition remove_vtx (vtx_id : Z) : M unit :=
  do vtx_to_remove <- _find_vtx vtx_id;
  match vtx_to_remove with
  | None => raise IllegalArgumentError
  | Some vtx => _remove_vtx vtx
  end.

(** ** Class [UndirectedGraph]: exploration *)

(** Modelled from the spec: [AbstractVertex.set_as_explored] and the
    [explored] property are not in the sources; the spec has "a boolean
    explored mark" that the traversals set "as they are enqueued". *)
Definition set_as_explored (vtx : vref) : M unit :=
  do v <- deref vtx;
  store vtx (with_explored true v).

(** Modelled from the spec: the setter of [AbstractVertex.layer], likewise
    absent; [shortest_path] assigns [neighbor.layer = vtx.layer + 1]. *)
Definition set_layer (vtx : vref) (n : Z) : M unit :=
  do v <- deref vtx;
  store vtx (with_layer n v).

(** The [for edge in vtx.edges] loop of [bfs]: [queue] and
    [findable_vtx_ids] are the two local lists it appends to. *)
Fixpoint bfs_scan (vtx : vref) (es : list UndirectedEdge)
    (queue : list vref) (findable_vtx_ids : list Z) : M (list vref * list Z) :=
  match es with
  | [] => ret (queue, findable_vtx_ids)
  | edge :: es' =>
      let neighbor := neighbor_of vtx edge in
      do nb <- deref neighbor;
      if explored nb then bfs_scan vtx es' queue findable_vtx_ids
      else
        do_ set_as_explored neighbor;
        bfs_scan vtx es' (queue ++ [neighbor]) (findable_vtx_ids ++ [vtx_id nb])
  end.

(** The [while queue] loop of [bfs]. *)
Fixpoint bfs_loop (fuel : nat) (queue : list vref) (findable_vtx_ids : list Z)
    : M (list Z) :=
  match fuel with
  | 0 => out_of_fuel
  | S fuel' =>
      match queue with
      | [] => ret findable_vtx_ids
      | vtx :: queue' =>
          do v <- deref vtx;
          do qf <- bfs_scan vtx (edges v) queue' findable_vtx_ids;
          bfs_loop fuel' qf.1 qf.2
      end
  end.

(** [UndirectedGraph.bfs].  A vertex enters the queue only when it goes from
    unexplored to explored, the source apart, so the loop makes at most one
    round per vertex object plus one. *)
Definition bfs (src_vtx_id : Z) : M (list Z) :=
  do src_vtx <- _find_vtx src_vtx_id;
  match src_vtx with
  | None => raise IllegalArgumentError
  | Some src =>
      do_ set_as_explored src;
      λ g, bfs_loop (2 + length (heap g)) [src] [src_vtx_id] g
  end.

(** The [for edge in vtx.edges] loop of [shortest_path]: [inl] is the early
    [return dest_vtx.layer], [inr] the queue when the loop runs to its end. *)
Fixpoint shortest_path_scan (vtx : vref) (dest_vtx : option vref)
    (es : list UndirectedEdge) (queue : list vref) : M (Z + list vref) :=
  match es with
  | [] => ret (inr queue)
  | edge :: es' =>
      let neighbor := neighbor_of vtx edge in
      do nb <- deref neighbor;
      if explored nb then shortest_path_scan vtx dest_vtx es' queue
      else
        do_ set_as_explored neighbor;
        do v <- deref vtx;
        do_ set_layer neighbor (layer v + 1);
        if decide (Some neighbor = dest_vtx)
        then (do d <- deref neighbor; ret (inl (layer d)))
        else shortest_path_scan vtx dest_vtx es' (queue ++ [neighbor])
  end.

Fixpoint shortest_path_loop (fuel : nat) (dest_vtx : option vref)
    (queue : list vref) : M Z :=
  match fuel with
  | 0 => out_of_fuel
  | S fuel' =>
      match queue with
      | [] => ret (-1)%Z
      | vtx :: queue' =>
          do v <- deref vtx;
          do r <- shortest_path_scan vtx dest_vtx (edges v) queue';
          match r with
          | inl hops => ret hops
          | inr queue'' => shortest_path_loop fuel' dest_vtx queue''
          end
      end
  end.

(** [UndirectedGraph.shortest_path]: the guard reads [if not src_vtx]. *)
Definition shortest_path (src_vtx_id dest_vtx_id : Z) : M Z :=
  do src_vtx <- _find_vtx src_vtx_id;
  do dest_vtx <- _find_vtx dest_vtx_id;
  match src_vtx with
  | None => raise IllegalArgumentError
  | Some src =>
      do_ set_as_explored src;
      λ g, shortest_path_loop (2 + length (heap g)) dest_vtx [src] g
  end.

(** [UndirectedGraph.num_of_connected_components_with_bfs] *)
Fixpoint components_with_bfs (l : list vref) (components : list (list Z))
    : M (list (list Z)) :=
  match l with
  | [] => ret components
  | vtx :: l' =>
      do v <- deref vtx;
      if explored v then components_with_bfs l' components
      else
        do component <- bfs (vtx_id v);
        components_with_bfs l' (components ++ [component])
  end.

Definition num_of_connected_components_with_bfs : M nat :=
  do components <- (λ g, components_with_bfs (vtx_list g) [] g);
  ret (length components).

(** The [for edge in vtx.edges] loop of [_dfs_helper], with the recursive
    call as a parameter. *)
Fixpoint dfs_scan (rec : vref → list Z → M (list Z)) (vtx : vref)
    (es : list UndirectedEdge) (findable_vtx_ids : list Z) : M (list Z) :=
  match es with
  | [] => ret findable_vtx_ids
  | edge :: es' =>
      let neighbor := neighbor_of vtx edge in
      do nb <- deref neighbor;
      if explored nb then dfs_scan rec vtx es' findable_vtx_ids
      else
        do_ set_as_explored neighbor;
        do ids <- rec neighbor (findable_vtx_ids ++ [vtx_id nb]);
        dfs_scan rec vtx es' ids
  end.

(** [UndirectedGraph._dfs_helper]; [fuel] bounds the depth of the recursion,
    and each nested call has marked one more vertex.  The list
    [findable_vtx_ids] that the calls share and append to is threaded. *)
Fixpoint _dfs_helper (fuel : nat) (vtx : vref) (findable_vtx_ids : list Z)
    : M (list Z) :=
  match fuel with
  | 0 => out_of_fuel
  | S fuel' =>
      do v <- deref vtx;
      dfs_scan (_dfs_helper fuel') vtx (edges v) findable_vtx_ids
  end.

(** Modelled from the spec: [AbstractGraph.dfs] is not in the sources (only
    its helper [_dfs_helper] and its caller are).  Per the spec it is the
    depth-first counterpart of [bfs]: the source must exist, else
    InvalidArgument; "explore a vertex, mark it, recurse into each unexplored
    neighbor in adjacency order"; it returns the ids in discovery order. *)
Definition dfs (src_vtx_id : Z) : M (list Z) :=
  do src_vtx <- _find_vtx src_vtx_id;
  match src_vtx with
  | None => raise IllegalArgumentError
  | Some src =>
      do_ set_as_explored src;
      λ g, _dfs_helper (S (length (heap g))) src [src_vtx_id] g
  end.

(** [UndirectedGraph.num_of_connected_components_with_dfs] *)
Fixpoint components_with_dfs (l : list vref) (components : list (list Z))
    : M (list (list Z)) :=
  match l with
  | [] => ret components
  | vtx :: l' =>
      do v <- deref vtx;
      if explored v then components_with_dfs l' components
      else
        do component <- dfs (vtx_id v);
        components_with_dfs l' (components ++ [component])
  end.

Definition num_of_connected_components_with_dfs : M nat :=
  do components <- (λ g, components_with_dfs (vtx_list g) [] g);
  ret (length components).

(** ** Sequences of calls *)

Inductive call :=
  | AddVtx (id : Z)
  | RemoveVtx (id : Z)
  | AddEdge (id1 id2 : Z)
  | RemoveEdge (id1 id2 : Z)
  | Bfs (src : Z)
  | Dfs (src : Z)
  | ShortestPath (src dest : Z)
  | CountBfs
  | CountDfs.

Definition is_mutation (c : call) : bool :=
  match c with
  | AddVtx _ | RemoveVtx _ | AddEdge _ _ | RemoveEdge _ _ => true
  | _ => false
  end.

(** What the call returns is dropped here: [exec] is the call seen as a
    state change, whether it returned or raised. *)
Definition forget {A} (m : M A) : M unit := do_ m; ret tt.

Definition exec (c : call) : M unit :=
  match c with
  | AddVtx id => add_vtx id
  | RemoveVtx id => remove_vtx id
  | AddEdge a b => add_edge a b
  | RemoveEdge a b => remove_edge a b
  | Bfs s => forget (bfs s)
  | Dfs s => forget (dfs s)
  | ShortestPath s d => forget (shortest_path s d)
  | CountBfs => forget num_of_connected_components_with_bfs
  | CountDfs => forget num_of_connected_components_with_dfs
  end.

(** The state after a sequence of calls; a caller that catches the
    exception of a failed call goes on with the state that call left. *)
Definition run (cs : list call) (g : UndirectedGraph) : UndirectedGraph :=
  foldl (λ g c, (exec c g).2) g cs.

(** A graph built from the empty graph through the public operations. *)
Definition reachable (g : UndirectedGraph) : Prop :=
  ∃ cs, g = run cs empty_graph.

(** A graph built by mutation only: no traversal has run on it. *)
Definition built (g : UndirectedGraph) : Prop :=
  ∃ cs, forallb is_mutation cs = true ∧ g = run cs empty_graph.

(** ** The representation invariant *)

Definition id_of (h : list Vertex) (r : vref) : Z :=
  from_option vtx_id 0%Z (h !! r).

Definition incident (r : vref) (e : UndirectedEdge) : Prop :=
  end1 e = r ∨ end2 e = r.

Global Instance incident_dec r e : Decision (incident r e).
Proof. unfold incident. apply _. Defined.

(** Two edges joining the same unordered pair of vertices. *)
Definition parallel (e e' : UndirectedEdge) : Prop :=
  (end1 e = end1 e' ∧ end2 e = end2 e') ∨ (end1 e = end2 e' ∧ end2 e = end1 e').

Record wf (g : UndirectedGraph) : Prop := {
  wf_alloc : ∀ r, r ∈ vtx_list g → r < length (heap g);
  wf_nodup : NoDup (vtx_list g);
  wf_ids : ∀ r1 r2, r1 ∈ vtx_list g → r2 ∈ vtx_list g →
      id_of (heap g) r1 = id_of (heap g) r2 → r1 = r2;
  wf_ends : ∀ e, e ∈ edge_list g →
      end1 e ∈ vtx_list g ∧ end2 e ∈ vtx_list g ∧ end1 e ≠ end2 e;
  wf_eids : NoDup (eid <$> edge_list g);
  wf_simple : ∀ e e', e ∈ edge_list g → e' ∈ edge_list g → parallel e e' → e = e';
  wf_edges : ∀ r v, heap g !! r = Some v →
      edges v = filter (incident r) (edge_list g);
  wf_neighbors : ∀ r v, heap g !! r = Some v →
      neighbors v = list_to_set ((λ e, id_of (heap g) (neighbor_of r e)) <$> edges v)
}.

(** The exploration marks are not part of the structure. *)
Definition skeleton (v : Vertex) : Vertex := with_layer 0 (with_explored false v).

Definition same_structure (g g' : UndirectedGraph) : Prop :=
  vtx_list g' = vtx_list g ∧ edge_list g' = edge_list g ∧
  skeleton <$> heap g' = skeleton <$> heap g.

(** No vertex of the graph is marked explored (objects of removed vertices
    do not count). *)
Definition clean (g : UndirectedGraph) : Prop :=
  ∀ r v, r ∈ vtx_list g → heap g !! r = Some v → explored v = false.

(** ** Pure descriptions of what the methods do on a well-formed graph *)

(** What [_find_vtx] returns. *)
Fixpoint find_ref (h : list Vertex) (l : list vref) (id : Z) : option vref :=
  match l with
  | [] => None
  | r :: l' => if (id_of h r =? id)%Z then Some r else find_ref h l' id
  end.

(** [e] joins [a] and [b], in either orientation. *)
Definition joins (a b : vref) (e : UndirectedEdge) : Prop :=
  (end1 e = a ∧ end2 e = b) ∨ (end1 e = b ∧ end2 e = a).

Global Instance joins_dec a b e : Decision (joins a b e).
Proof. unfold joins. apply _. Defined.

(** The graph after a successful [_add_edge]. *)
Definition attach_to (h : list Vertex) (self : vref) (e : UndirectedEdge)
    (v : Vertex) : Vertex :=
  with_edges (edges v ++ [e]) (neighbors v ∪ {[id_of h (neighbor_of self e)]}) v.

Definition attach (e : UndirectedEdge) (g : UndirectedGraph) : UndirectedGraph :=
  mkGraph (alter (attach_to (heap g) (end2 e) e) (end2 e)
             (alter (attach_to (heap g) (end1 e) e) (end1 e) (heap g)))
          (vtx_list g) (edge_list g ++ [e]).

(** The graph after a successful [_remove_edge]. *)
Definition detach_from (h : list Vertex) (self : vref) (e : UndirectedEdge)
    (v : Vertex) : Vertex :=
  with_edges (filter (λ x, eid x ≠ eid e) (edges v))
             (neighbors v ∖ {[id_of h (neighbor_of self e)]}) v.

Definition detach (e : UndirectedEdge) (g : UndirectedGraph) : UndirectedGraph :=
  mkGraph (alter (detach_from (heap g) (end2 e) e) (end2 e)
             (alter (detach_from (heap g) (end1 e) e) (end1 e) (heap g)))
          (vtx_list g) (filter (λ x, eid x ≠ eid e) (edge_list g)).

(** The graph after a successful [add_vtx]. *)
Definition grow (id : Z) (g : UndirectedGraph) : UndirectedGraph :=
  mkGraph (heap g ++ [new_Vertex id]) (vtx_list g ++ [length (heap g)]) (edge_list g).

(** The graph after the [while] loop of [_remove_vtx] has taken the edges
    [es] out, first to last. *)
Fixpoint detach_all (es : list UndirectedEdge) (g : UndirectedGraph) : UndirectedGraph :=
  match es with
  | [] => g
  | e :: es' => detach_all es' (detach e g)
  end.

(** The graph once every edge at the vertex object [r] is taken out. *)
Definition isolate (r : vref) (g : UndirectedGraph) : UndirectedGraph :=
  detach_all (filter (incident r) (edge_list g)) g.

(** The graph after a successful [_remove_vtx] of the vertex object [r]. *)
Definition drop_vtx (r : vref) (g : UndirectedGraph) : UndirectedGraph :=
  with_vtx_list (filter (λ x, x ≠ r) (vtx_list (isolate r g))) (isolate r g).

(** [r] is the vertex object of the graph that carries the id [id]. *)
Definition has_vertex (g : UndirectedGraph) (id : Z) (r : vref) : Prop :=
  r ∈ vtx_list g ∧ id_of (heap g) r = id.

(** The graph of the spec's scenario: vertices 1 to 4, edges (1,2), (2,3). *)
Definition sample_calls : list call :=
  [AddVtx 1; AddVtx 2; AddVtx 3; AddVtx 4; AddEdge 1 2; AddEdge 2 3].
Definition sample_graph : UndirectedGraph := run sample_calls empty_graph.

(** ** Pure descriptions of the traversals

    A traversal only ever adds marks, so its effect on the store is the list
    of vertex objects it has marked, in the order it marked them. *)

Definition explored_at (g : UndirectedGraph) (r : vref) : bool :=
  from_option explored false (heap g !! r).

(** The graph with the vertex objects of [X] marked explored. *)
Definition mark_all (X : list vref) (g : UndirectedGraph) : UndirectedGraph :=
  with_heap (foldl (λ h r, alter (with_explored true) r h) (heap g) X) g.

(** [X] lists the vertex objects that are marked explored in [g]. *)
Definition tracks (g : UndirectedGraph) (X : list vref) : Prop :=
  ∀ r, r < length (heap g) → explored_at g r = true ↔ r ∈ X.

(** The neighbours of [r], in the order of its adjacency sequence. *)
Definition nbrs (el : list UndirectedEdge) (r : vref) : list vref :=
  neighbor_of r <$> filter (incident r) el.

Definition adj (el : list UndirectedEdge) (a b : vref) : Prop := b ∈ nbrs el a.

(** [b] lies in the connected component of [a]. *)
Definition connected (g : UndirectedGraph) (a b : vref) : Prop :=
  rtc (adj (edge_list g)) a b.

(** A walk of [n] edges from [a] to [b]. *)
Inductive walk (el : list UndirectedEdge) : vref → vref → nat → Prop :=
  | walk_here a : walk el a a 0
  | walk_step a b c n : adj el a b → walk el b c n → walk el a c (S n).

(** What one pass over the neighbours [ns] discovers, given the explored
    vertices [X]: the unexplored ones, each once, in order. *)
Fixpoint scan_fresh (ns X : list vref) : list vref :=
  match ns with
  | [] => []
  | n :: ns' =>
      if decide (n ∈ X) then scan_fresh ns' X
      else n :: scan_fresh ns' (X ++ [n])
  end.

(** What the [while queue] loop of [bfs] discovers from the queue [q]. *)
Fixpoint bfs_order (el : list UndirectedEdge) (fuel : nat) (q X : list vref)
    : option (list vref) :=
  match fuel with
  | 0 => None
  | S fuel' =>
      match q with
      | [] => Some []
      | v :: q' =>
          let new := scan_fresh (nbrs el v) X in
          (new ++.) <$> bfs_order el fuel' (q' ++ new) (X ++ new)
      end
  end.

(** What [_dfs_helper] discovers: the scan of the neighbours, and the
    recursion. *)
Fixpoint dfs_scan_order (rec : vref → list vref → option (list vref))
    (ns X : list vref) : option (list vref) :=
  match ns with
  | [] => Some []
  | n :: ns' =>
      if decide (n ∈ X) then dfs_scan_order rec ns' X
      else
        match rec n (X ++ [n]) with
        | None => None
        | Some new1 =>
            match dfs_scan_order rec ns' (X ++ [n] ++ new1) with
            | None => None
            | Some new2 => Some (n :: new1 ++ new2)
            end
        end
  end.

Fixpoint dfs_order (el : list UndirectedEdge) (fuel : nat) (v : vref) (X : list vref)
    : option (list vref) :=
  match fuel with
  | 0 => None
  | S fuel' => dfs_scan_order (dfs_order el fuel') (nbrs el v) X
  end.

(** The loop of the two component counters, for a traversal [explore] that
    is started at a vertex once that vertex is marked: the number of
    traversals started, and the explored vertices at the end. *)
Fixpoint count_order (explore : vref → list vref → option (list vref))
    (l X : list vref) : option (nat * list vref) :=
  match l with
  | [] => Some (0, X)
  | v :: l' =>
      if decide (v ∈ X) then count_order explore l' X
      else
        match explore v (X ++ [v]) with
        | None => None
        | Some new =>
            prod_map S id <$> count_order explore l' (X ++ [v] ++ new)
        end
  end.

(** The vertex objects below [n] that are not in [X]: what is left for a
    traversal to discover, which bounds its loops. *)
Definition unexplored (n : nat) (X : list vref) : list vref :=
  filter (λ r, r ∉ X) (seq 0 n).

(** A step of a traversal that started with [X] explored: along an edge, to
    a vertex outside [X]. *)
Definition step_outside (el : list UndirectedEdge) (X : list vref) (a b : vref) : Prop :=
  adj el a b ∧ b ∉ X.

(** Every explored vertex outside [G] has all its neighbours explored. *)
Definition closed_except (el : list UndirectedEdge) (X : list vref) (G : vref → Prop)
    : Prop :=
  ∀ r r', r ∈ X → ¬ G r → adj el r r' → r' ∈ X.

(** What a depth-first run from [v] with [X] explored delivers. *)
Definition dfs_post (el : list UndirectedEdge) (v : vref) (X new : list vref) : Prop :=
  NoDup new
  ∧ (∀ r, r ∈ new → r ∉ X)
  ∧ (∀ r, r ∈ new → rtc (step_outside el X) v r)
  ∧ (∀ G, closed_except el X G → closed_except el (X ++ new) (λ r, G r ∧ r ≠ v)).

(** An edge between two vertices that were unexplored when the counting
    began with [X0] explored. *)
Definition adj_outside (el : list UndirectedEdge) (X0 : list vref) (a b : vref) : Prop :=
  adj el a b ∧ (a ∉ X0) ∧ (b ∉ X0).

(** Every explored vertex that was not in [X0] has all its neighbours
    explored. *)
Definition closed_outside (el : list UndirectedEdge) (X0 X : list vref) : Prop :=
  closed_except el X (λ r, r ∈ X0).

(** The traversal [explore], started at an unexplored vertex once it is
    marked, returns, and has then explored exactly what was explored before
    and what the start vertex reaches through vertices outside [X0]. *)
Definition explores (el : list UndirectedEdge) (n : nat) (X0 : list vref)
    (explore : vref → list vref → option (list vref)) : Prop :=
  ∀ v X, v < n → v ∉ X → (∀ r, r ∈ X0 → r ∈ X) → closed_outside el X0 X →
    ∃ new, explore v (X ++ [v]) = Some new
      ∧ (∀ r, r ∈ X ++ [v] ++ new ↔ r ∈ X ∨ rtc (adj_outside el X0) v r)
      ∧ closed_outside el X0 (X ++ [v] ++ new).

(** Two lists of explored vertices that mark the same vertices. *)
Definition same_members (X Y : list vref) : Prop := ∀ r, r ∈ X ↔ r ∈ Y.

(** The loop shared by the two component counters, for a traversal
    [traverse]. *)
Fixpoint components_with (traverse : Z → M (list Z)) (l : list vref)
    (components : list (list Z)) : M (list (list Z)) :=
  match l with
  | [] => ret components
  | vtx :: l' =>
      do v <- deref vtx;
      if explored v then components_with traverse l' components
      else
        do component <- traverse (vtx_id v);
        components_with traverse l' (components ++ [component])
  end.

(** The vertex objects that are marked explored in [g]. *)
Definition explored_list (g : UndirectedGraph) : list vref :=
  filter (λ r, explored_at g r = true) (seq 0 (length (heap g))).

(** [k] is the number of edges on a shortest walk from [s] to [r]. *)
Definition dist (el : list UndirectedEdge) (s r : vref) (k : nat) : Prop :=
  walk el s r k ∧ ∀ m, walk el s r m → k ≤ m.

(** [a] is at most as far from [s] as [b]: every walk from [s] to [b] is at
    least as long as some walk from [s] to [a]. *)
Definition closer (el : list UndirectedEdge) (s a b : vref) : Prop :=
  ∀ k, walk el s b k → ∃ m, m ≤ k ∧ walk el s a m.

(** The invariant of the [while queue] loop of [bfs] on a graph without
    marks: [out] are the vertices taken out of the queue, [q] the queue, in
    order of discovery. *)
Definition bfs_inv (el : list UndirectedEdge) (s : vref) (out q : list vref) : Prop :=
  (∀ r, r ∈ out ++ q → ∃ k, dist el s r k)
  ∧ StronglySorted (closer el s) (out ++ q)
  ∧ (∀ r r', r ∈ out → adj el r r' → r' ∈ out ++ q)
  ∧ (∀ v kv, head q = Some v → dist el s v kv →
       (∀ r kr, r ∈ out ++ q → dist el s r kr → kr ≤ S kv)
       ∧ (∀ r k, walk el s r k → k ≤ kv → r ∈ out ++ q)).

(** A computation that leaves the structure of the graph alone. *)
Definition marks_only {A} (m : M A) : Prop := ∀ g, same_structure g (m g).2.

(** The exploration state of the vertex object [r]: its explored mark and
    its layer. *)
Definition marks_of (h : list Vertex) (r : vref) : option (bool * Z) :=
  (λ v, (explored v, layer v)) <$> h !! r.

(** The layer of the vertex object [r]. *)
Definition layer_at (g : UndirectedGraph) (r : vref) : Z :=
  from_option layer 0%Z (heap g !! r).

(** ** Running the monad *)

Lemma bind_Ok {A B} (m : M A) (k : A → M B) g a g' :
  m g = (Ok a, g') → bind m k g = k a g'.
Proof. unfold bind. by intros ->. Qed.

Lemma bind_Raise {A B} (m : M A) (k : A → M B) g e g' :
  m g = (Raise e, g') → bind m k g = (Raise e, g').
Proof. unfold bind. by intros ->. Qed.

Lemma deref_Some r g v : heap g !! r = Some v → deref r g = (Ok v, g).
Proof. unfold deref. by intros ->. Qed.

Lemma deref_id_of r g v : heap g !! r = Some v → id_of (heap g) r = vtx_id v.
Proof. unfold id_of. by intros ->. Qed.

(** ** [_find_vtx] *)

Lemma find_vtx_in_spec g l id :
  (∀ r, r ∈ l → r < length (heap g)) →
  find_vtx_in l id g = (Ok (find_ref (heap g) l id), g).
Proof.
  induction l as [|r l IH]; intros Hl; simpl; [done|].
  destruct (lookup_lt_is_Some_2 (heap g) r) as [v Hv].
  { apply Hl. left. }
  rewrite (bind_Ok _ _ _ _ _ (deref_Some _ _ _ Hv)).
  rewrite (deref_id_of _ _ _ Hv).
  destruct (vtx_id v =? id)%Z; [done|].
  apply IH. intros r' Hr'. apply Hl. by right.
Qed.

Lemma find_vtx_spec g id :
  wf g → _find_vtx id g = (Ok (find_ref (heap g) (vtx_list g) id), g).
Proof. intros Hwf. apply find_vtx_in_spec, Hwf. Qed.

Lemma find_ref_Some h l id r :
  find_ref h l id = Some r → r ∈ l ∧ id_of h r = id.
Proof.
  induction l as [|x l IH]; simpl; [done|].
  destruct (Z.eqb_spec (id_of h x) id) as [Heq|Hne].
  - intros [= ->]. split; [left|done].
  - intros H. destruct (IH H). split; [by right|done].
Qed.

Lemma find_ref_None h l id :
  find_ref h l id = None → ∀ r, r ∈ l → id_of h r ≠ id.
Proof.
  induction l as [|x l IH]; simpl.
  - intros _ r Hr. by apply elem_of_nil in Hr.
  - destruct (Z.eqb_spec (id_of h x) id) as [Heq|Hne]; [done|].
    intros H r [->|Hr]%elem_of_cons; auto.
Qed.

Lemma find_ref_elem g r :
  wf g → r ∈ vtx_list g → find_ref (heap g) (vtx_list g) (id_of (heap g) r) = Some r.
Proof.
  intros Hwf Hr.
  destruct (find_ref _ _ _) as [r'|] eqn:E.
  - apply find_ref_Some in E as [H1 H2]. f_equal. by apply (wf_ids g Hwf).
  - by eapply find_ref_None in E.
Qed.

(** ** The methods of [Vertex], step by step *)

Lemma not_incident_guard self e :
  negb (end1 e =? self) && negb (end2 e =? self) = bool_decide (¬ incident self e).
Proof.
  unfold incident.
  destruct (Nat.eqb_spec (end1 e) self), (Nat.eqb_spec (end2 e) self); simpl;
    symmetry; [apply bool_decide_eq_false| apply bool_decide_eq_false
              | apply bool_decide_eq_false | apply bool_decide_eq_true]; tauto.
Qed.

Lemma Vertex_add_edge_Ok g self e nb me :
  incident self e →
  heap g !! neighbor_of self e = Some nb →
  heap g !! self = Some me →
  vtx_id nb ∉ neighbors me →
  Vertex_add_edge self (Some e) g =
    (Ok tt, with_heap (<[self := with_edges (edges me ++ [e])
                                  (neighbors me ∪ {[vtx_id nb]}) me]> (heap g)) g).
Proof.
  intros Hinc Hnb Hme Hfresh. unfold Vertex_add_edge.
  rewrite not_incident_guard, bool_decide_eq_false_2 by tauto.
  rewrite (bind_Ok _ _ _ _ _ (deref_Some _ _ _ Hnb)).
  rewrite (bind_Ok _ _ _ _ _ (deref_Some _ _ _ Hme)).
  by rewrite decide_False.
Qed.

Lemma Vertex_add_edge_dup g self e nb me :
  incident self e →
  heap g !! neighbor_of self e = Some nb →
  heap g !! self = Some me →
  vtx_id nb ∈ neighbors me →
  Vertex_add_edge self (Some e) g = (Raise IllegalArgumentError, g).
Proof.
  intros Hinc Hnb Hme Hdup. unfold Vertex_add_edge.
  rewrite not_incident_guard, bool_decide_eq_false_2 by tauto.
  rewrite (bind_Ok _ _ _ _ _ (deref_Some _ _ _ Hnb)).
  rewrite (bind_Ok _ _ _ _ _ (deref_Some _ _ _ Hme)).
  by rewrite decide_True.
Qed.

Lemma Vertex_remove_edge_Ok g self e nb me es :
  incident self e →
  heap g !! neighbor_of self e = Some nb →
  heap g !! self = Some me →
  vtx_id nb ∈ neighbors me →
  list_remove edge_is e (edges me) = Some es →
  Vertex_remove_edge self (Some e) g =
    (Ok tt, with_heap (<[self := with_edges es (neighbors me ∖ {[vtx_id nb]}) me]>
                         (heap g)) g).
Proof.
  intros Hinc Hnb Hme Hin Hes. unfold Vertex_remove_edge.
  rewrite not_incident_guard, bool_decide_eq_false_2 by tauto.
  rewrite (bind_Ok _ _ _ _ _ (deref_Some _ _ _ Hnb)).
  rewrite (bind_Ok _ _ _ _ _ (deref_Some _ _ _ Hme)).
  by rewrite decide_True, Hes.
Qed.

(** ** Lists: [list.remove] on objects with distinct identities *)

Lemma list_remove_app_fresh (e : UndirectedEdge) l :
  eid e ∉ eid <$> l → list_remove edge_is e (l ++ [e]) = Some l.
Proof.
  induction l as [|x l IH]; simpl; intros Hfresh.
  - unfold edge_is. by rewrite Nat.eqb_refl.
  - apply not_elem_of_cons in Hfresh as [Hne Hfresh].
    unfold edge_is at 1. rewrite (proj2 (Nat.eqb_neq _ _)) by done.
    by rewrite IH.
Qed.

Lemma filter_all {A} (P : A → Prop) `{∀ x, Decision (P x)} (l : list A) :
  (∀ x, x ∈ l → P x) → filter P l = l.
Proof.
  induction l as [|x l IH]; intros Hall; [done|].
  rewrite filter_cons_True by (apply Hall; left).
  f_equal. apply IH. intros y Hy. apply Hall. by right.
Qed.

Lemma filter_none {A} (P : A → Prop) `{∀ x, Decision (P x)} (l : list A) :
  (∀ x, x ∈ l → ¬ P x) → filter P l = [].
Proof.
  induction l as [|x l IH]; intros Hall; [done|].
  rewrite filter_cons_False by (apply Hall; left).
  apply IH. intros y Hy. apply Hall. by right.
Qed.

Lemma list_remove_filter (e : UndirectedEdge) l :
  NoDup (eid <$> l) → e ∈ l →
  list_remove edge_is e l = Some (filter (λ x, eid x ≠ eid e) l).
Proof.
  induction l as [|x l IH]; simpl; intros Hnd Hin.
  - by apply elem_of_nil in Hin.
  - apply NoDup_cons in Hnd as [Hx Hnd]. unfold edge_is at 1.
    destruct (Nat.eqb_spec (eid x) (eid e)) as [Heq|Hne].
    + rewrite filter_cons_False by tauto. f_equal. symmetry.
      apply filter_all. intros y Hy Hey. apply Hx. rewrite Heq, <- Hey.
      by apply list_elem_of_fmap_2.
    + rewrite filter_cons_True by done.
      apply elem_of_cons in Hin as [->|Hin]; [done|].
      by rewrite IH.
Qed.

Lemma list_remove_missing (e : UndirectedEdge) l :
  eid e ∉ eid <$> l → list_remove edge_is e l = None.
Proof.
  induction l as [|x l IH]; simpl; [done|].
  intros [Hne Hl]%not_elem_of_cons. unfold edge_is at 1.
  rewrite (proj2 (Nat.eqb_neq _ _)) by done. by rewrite IH.
Qed.

(** ** The store *)

Lemma insert_as_alter (f : Vertex → Vertex) (h : list Vertex) r v :
  h !! r = Some v → <[r := f v]> h = alter f r h.
Proof.
  intros Hv. apply list_eq. intros i.
  destruct (decide (i = r)) as [->|Hne].
  - rewrite list_lookup_insert_eq by (by eapply lookup_lt_Some).
    by rewrite list_lookup_alter_eq, Hv.
  - by rewrite list_lookup_insert_ne, list_lookup_alter_ne.
Qed.

Lemma id_of_alter (f : Vertex → Vertex) h r r' :
  (∀ v, vtx_id (f v) = vtx_id v) → id_of (alter f r h) r' = id_of h r'.
Proof.
  intros Hf. unfold id_of. rewrite list_lookup_alter.
  destruct (decide (r = r')) as [->|]; [|done].
  destruct (h !! r'); simpl; auto.
Qed.

(** ** Endpoints *)

Lemma neighbor_of_end1 e : neighbor_of (end1 e) e = end2 e.
Proof. unfold neighbor_of. by rewrite Nat.eqb_refl. Qed.

Lemma neighbor_of_end2 e : end1 e ≠ end2 e → neighbor_of (end2 e) e = end1 e.
Proof. intros H. unfold neighbor_of. by rewrite (proj2 (Nat.eqb_neq _ _)). Qed.

Lemma neighbor_of_joins a b e :
  a ≠ b → joins a b e ↔ incident a e ∧ neighbor_of a e = b.
Proof.
  intros Hab. unfold joins, incident, neighbor_of.
  destruct (Nat.eqb_spec (end1 e) a); intuition congruence.
Qed.

Lemma joins_sym a b e : joins a b e ↔ joins b a e.
Proof. unfold joins. tauto. Qed.

Lemma joins_parallel a b e e' : joins a b e → joins a b e' → parallel e e'.
Proof. unfold joins, parallel. naive_solver. Qed.

Lemma incident_cases r e : incident r e → r = end1 e ∨ r = end2 e.
Proof. unfold incident. naive_solver. Qed.

(** ** Consequences of the invariant *)

Section wf_facts.
Context (g : UndirectedGraph) (Hwf : wf g).

Lemma wf_lookup r : r ∈ vtx_list g → ∃ v, heap g !! r = Some v.
Proof using Hwf. intros Hr. apply lookup_lt_is_Some_2. by apply (wf_alloc g Hwf). Qed.

Lemma wf_adj_elem r v e :
  heap g !! r = Some v → e ∈ edges v ↔ e ∈ edge_list g ∧ incident r e.
Proof using Hwf.
  intros Hv. rewrite (wf_edges g Hwf r v Hv), list_elem_of_filter. tauto.
Qed.

Lemma wf_neighbor_in r e :
  e ∈ edge_list g → incident r e →
  neighbor_of r e ∈ vtx_list g ∧ neighbor_of r e ≠ r ∧ r ∈ vtx_list g.
Proof using Hwf.
  intros He Hinc. destruct (wf_ends g Hwf e He) as (H1 & H2 & Hne).
  unfold neighbor_of. destruct (Nat.eqb_spec (end1 e) r) as [<-|Hr].
  - auto.
  - destruct Hinc as [?| <-]; [done|]. auto.
Qed.

Lemma wf_neighbors_elem a b va :
  heap g !! a = Some va → b ∈ vtx_list g →
  id_of (heap g) b ∈ neighbors va ↔ ∃ e, e ∈ edge_list g ∧ joins a b e.
Proof using Hwf.
  intros Ha Hb. rewrite (wf_neighbors g Hwf a va Ha).
  rewrite elem_of_list_to_set, list_elem_of_fmap. split.
  - intros (e & Hid & He). apply (wf_adj_elem a va e Ha) in He as [He Hinc].
    destruct (wf_neighbor_in a e He Hinc) as (Hn & Hna & _).
    apply (wf_ids g Hwf) in Hid; [|done..]. subst b.
    exists e. split; [done|]. apply neighbor_of_joins; auto.
  - intros (e & He & Hj).
    assert (a ≠ b) as Hab.
    { destruct (wf_ends g Hwf e He) as (_ & _ & Hne). unfold joins in Hj. naive_solver. }
    apply neighbor_of_joins in Hj as [Hinc Hn]; [|done].
    exists e. split; [by rewrite Hn|]. by apply (wf_adj_elem a va e Ha).
Qed.

Lemma wf_neighbors_sym a b va vb :
  heap g !! a = Some va → heap g !! b = Some vb →
  a ∈ vtx_list g → b ∈ vtx_list g →
  vtx_id vb ∈ neighbors va ↔ vtx_id va ∈ neighbors vb.
Proof using Hwf.
  intros Ha Hb Hain Hbin.
  rewrite <- (deref_id_of _ _ _ Ha), <- (deref_id_of _ _ _ Hb).
  rewrite (wf_neighbors_elem a b va), (wf_neighbors_elem b a vb) by done.
  by setoid_rewrite (joins_sym a b).
Qed.
End wf_facts.

(** ** [_add_edge] *)

Lemma attach_to_id h r e v : vtx_id (attach_to h r e v) = vtx_id v.
Proof. done. Qed.

Lemma detach_from_id h r e v : vtx_id (detach_from h r e v) = vtx_id v.
Proof. done. Qed.

Lemma _add_edge_Ok g e va vb :
  end1 e ≠ end2 e →
  heap g !! end1 e = Some va → heap g !! end2 e = Some vb →
  vtx_id vb ∉ neighbors va → vtx_id va ∉ neighbors vb →
  _add_edge e g = (Ok tt, attach e g).
Proof.
  intros Hne Ha Hb Hab Hba. unfold _add_edge.
  erewrite bind_Ok; cycle 1.
  { eapply (Vertex_add_edge_Ok g (end1 e) e vb va); [by left| |done..].
    by rewrite neighbor_of_end1. }
  erewrite bind_Ok; cycle 1.
  { eapply (Vertex_add_edge_Ok _ (end2 e) e
              (with_edges (edges va ++ [e]) (neighbors va ∪ {[vtx_id vb]}) va) vb);
      [by right| | |done].
    - rewrite neighbor_of_end2 by done. simpl.
      apply list_lookup_insert_eq. by eapply lookup_lt_Some.
    - simpl. by rewrite list_lookup_insert_ne. }
  unfold attach, with_edge_list, with_heap; simpl. do 2 f_equal.
  rewrite <- (insert_as_alter (attach_to (heap g) (end1 e) e) _ _ va) by done.
  rewrite <- (insert_as_alter (attach_to (heap g) (end2 e) e) _ _ vb)
    by (by rewrite list_lookup_insert_ne).
  unfold attach_to. rewrite neighbor_of_end1, neighbor_of_end2 by done.
  by rewrite (deref_id_of _ _ _ Ha), (deref_id_of _ _ _ Hb).
Qed.

Lemma _add_edge_dup g e va vb :
  heap g !! end1 e = Some va → heap g !! end2 e = Some vb →
  vtx_id vb ∈ neighbors va →
  _add_edge e g = (Raise IllegalArgumentError, g).
Proof.
  intros Ha Hb Hab. unfold _add_edge.
  erewrite bind_Raise; [done|].
  eapply (Vertex_add_edge_dup g (end1 e) e vb va); [by left| |done..].
  by rewrite neighbor_of_end1.
Qed.

Lemma max_eid_ge es e : e ∈ es → eid e ≤ max_eid es.
Proof.
  induction es as [|x es IH]; simpl.
  - by intros ?%elem_of_nil.
  - intros [->|H]%elem_of_cons; [lia|]. specialize (IH H). lia.
Qed.

Lemma fresh_eid_fresh g : fresh_eid g ∉ eid <$> edge_list g.
Proof.
  intros (e & Heq & He)%list_elem_of_fmap. apply max_eid_ge in He.
  unfold fresh_eid in Heq. lia.
Qed.

Lemma lookup_attach g e r :
  end1 e ≠ end2 e →
  heap (attach e g) !! r =
    (if decide (r = end1 e) then attach_to (heap g) (end1 e) e
     else if decide (r = end2 e) then attach_to (heap g) (end2 e) e
     else id) <$> heap g !! r.
Proof.
  intros Hne. unfold attach; simpl. rewrite !list_lookup_alter.
  destruct (heap g !! r) as [v|] eqn:Hv;
    repeat case_decide; subst; try congruence; simpl; by rewrite ?Hv.
Qed.

Lemma id_of_attach g e r : id_of (heap (attach e g)) r = id_of (heap g) r.
Proof. unfold attach; simpl. by rewrite !id_of_alter. Qed.

Lemma attach_wf g e :
  wf g →
  end1 e ∈ vtx_list g → end2 e ∈ vtx_list g → end1 e ≠ end2 e →
  eid e ∉ eid <$> edge_list g →
  (∀ e', e' ∈ edge_list g → ¬ parallel e e') →
  wf (attach e g).
Proof.
  intros Hwf H1 H2 Hne Hfresh Hpar. split.
  - intros r Hr. unfold attach; simpl. rewrite !length_alter. by apply Hwf.
  - apply Hwf.
  - intros r1 r2 Hr1 Hr2. rewrite !id_of_attach. by apply Hwf.
  - intros e' [He'| ->%list_elem_of_singleton]%elem_of_app; [by apply Hwf|done].
  - simpl. rewrite fmap_app. apply NoDup_app. split; [apply Hwf|].
    split; [|apply NoDup_singleton].
    intros x Hx ->%list_elem_of_singleton. done.
  - simpl. intros e1 e2 [He1| ->%list_elem_of_singleton]%elem_of_app
                        [He2| ->%list_elem_of_singleton]%elem_of_app Hp.
    + by apply Hwf.
    + exfalso. apply (Hpar e1 He1). unfold parallel in *. intuition congruence.
    + exfalso. by apply (Hpar e2 He2).
    + done.
  - intros r v. rewrite lookup_attach by done. simpl.
    rewrite filter_app.
    destruct (heap g !! r) as [v0|] eqn:Hv0; [|done]. simpl.
    pose proof (wf_edges g Hwf r v0 Hv0) as Hed.
    repeat case_decide; intros [= <-]; subst; simpl.
    + rewrite Hed. f_equal. by rewrite filter_cons_True by (by left).
    + rewrite Hed. f_equal. by rewrite filter_cons_True by (by right).
    + rewrite Hed, (filter_none _ [e]); [by rewrite app_nil_r|].
      intros x ->%list_elem_of_singleton [?|?]; congruence.
  - intros r v. rewrite lookup_attach by done.
    destruct (heap g !! r) as [v0|] eqn:Hv0; [|done]. simpl.
    pose proof (wf_neighbors g Hwf r v0 Hv0) as Hnb.
    assert (∀ l : list UndirectedEdge,
               (λ x, id_of (heap (attach e g)) (neighbor_of r x)) <$> l
               = (λ x, id_of (heap g) (neighbor_of r x)) <$> l) as Hext.
    { intros l. apply list_fmap_ext. intros ???. apply id_of_attach. }
    rewrite Hext.
    repeat case_decide; intros [= <-]; subst; simpl.
    + rewrite fmap_app, list_to_set_app_L, <- Hnb. simpl. set_solver.
    + rewrite fmap_app, list_to_set_app_L, <- Hnb. simpl. set_solver.
    + done.
Qed.

(** ** [_remove_edge] *)

Lemma NoDup_fmap_filter {A B} (f : A → B) (P : A → Prop) `{∀ x, Decision (P x)}
    (l : list A) :
  NoDup (f <$> l) → NoDup (f <$> filter P l).
Proof.
  induction l as [|x l IH]; [done|]. rewrite fmap_cons.
  intros [Hx Hl]%NoDup_cons. rewrite filter_cons.
  destruct (decide (P x)); [|by apply IH].
  rewrite fmap_cons. apply NoDup_cons. split; [|by apply IH].
  intros (y & Hy & Hin)%list_elem_of_fmap. apply Hx.
  apply list_elem_of_filter in Hin as [_ Hin].
  rewrite Hy. by apply list_elem_of_fmap_2.
Qed.

Lemma NoDup_fmap_inj_on {A B} (f : A → B) (l : list A) x y :
  NoDup (f <$> l) → x ∈ l → y ∈ l → f x = f y → x = y.
Proof.
  induction l as [|z l IH]; [by intros _ ?%elem_of_nil|].
  rewrite fmap_cons. intros [Hz Hl]%NoDup_cons.
  intros [->|Hx]%elem_of_cons [->|Hy]%elem_of_cons Hf; auto.
  - exfalso. apply Hz. rewrite Hf. by apply list_elem_of_fmap_2.
  - exfalso. apply Hz. rewrite <- Hf. by apply list_elem_of_fmap_2.
Qed.

Lemma filter_comm {A} (P Q : A → Prop) `{∀ x, Decision (P x)} `{∀ x, Decision (Q x)}
    (l : list A) :
  filter P (filter Q l) = filter Q (filter P l).
Proof. rewrite !list_filter_filter. apply list_filter_iff. tauto. Qed.

Section remove_edge.
Context (g : UndirectedGraph) (Hwf : wf g).
Context (e : UndirectedEdge) (He : e ∈ edge_list g).

Lemma wf_adj_NoDup r v : heap g !! r = Some v → NoDup (eid <$> edges v).
Proof using Hwf.
  intros Hv. rewrite (wf_edges g Hwf r v Hv).
  apply NoDup_fmap_filter, Hwf.
Qed.

Lemma wf_eid_inj x : x ∈ edge_list g → eid x = eid e → x = e.
Proof using Hwf He.
  intros Hx Heq. by apply (NoDup_fmap_inj_on eid (edge_list g) x e (wf_eids g Hwf)).
Qed.

Lemma _remove_edge_Ok : _remove_edge e g = (Ok tt, detach e g).
Proof using Hwf He.
  destruct (wf_ends g Hwf e He) as (H1 & H2 & Hne).
  destruct (wf_lookup g Hwf _ H1) as [va Ha].
  destruct (wf_lookup g Hwf _ H2) as [vb Hb].
  assert (vtx_id vb ∈ neighbors va) as Hab.
  { rewrite <- (deref_id_of _ _ _ Hb). apply (wf_neighbors_elem g Hwf _ _ va Ha H2).
    exists e. split; [done|]. by left. }
  assert (vtx_id va ∈ neighbors vb) as Hba.
  { by apply (wf_neighbors_sym g Hwf (end1 e) (end2 e) va vb). }
  unfold _remove_edge.
  erewrite bind_Ok; cycle 1.
  { eapply (Vertex_remove_edge_Ok g (end1 e) e vb va); [by left| |done..|].
    - by rewrite neighbor_of_end1.
    - apply list_remove_filter; [by eapply wf_adj_NoDup|].
      apply (wf_adj_elem g Hwf _ _ _ Ha). split; [done|by left]. }
  erewrite bind_Ok; cycle 1.
  { eapply (Vertex_remove_edge_Ok _ (end2 e) e
              (with_edges (filter (λ x, eid x ≠ eid e) (edges va))
                          (neighbors va ∖ {[vtx_id vb]}) va) vb);
      [by right| | |done|].
    - rewrite neighbor_of_end2 by done. simpl.
      apply list_lookup_insert_eq. by eapply lookup_lt_Some.
    - simpl. by rewrite list_lookup_insert_ne.
    - apply list_remove_filter; [by eapply wf_adj_NoDup|].
      apply (wf_adj_elem g Hwf _ _ _ Hb). split; [done|by right]. }
  simpl. rewrite (list_remove_filter e (edge_list g)) by (done || apply Hwf).
  unfold detach, with_edge_list, with_heap; simpl. do 2 f_equal.
  rewrite <- (insert_as_alter (detach_from (heap g) (end1 e) e) _ _ va) by done.
  rewrite <- (insert_as_alter (detach_from (heap g) (end2 e) e) _ _ vb)
    by (by rewrite list_lookup_insert_ne).
  unfold detach_from. rewrite neighbor_of_end1, neighbor_of_end2 by done.
  by rewrite (deref_id_of _ _ _ Ha), (deref_id_of _ _ _ Hb).
Qed.

Lemma lookup_detach r :
  heap (detach e g) !! r =
    (if decide (r = end1 e) then detach_from (heap g) (end1 e) e
     else if decide (r = end2 e) then detach_from (heap g) (end2 e) e
     else id) <$> heap g !! r.
Proof using Hwf He.
  destruct (wf_ends g Hwf e He) as (_ & _ & Hne).
  unfold detach; simpl. rewrite !list_lookup_alter.
  destruct (heap g !! r) as [v|] eqn:Hv;
    repeat case_decide; subst; try congruence; simpl; by rewrite ?Hv.
Qed.

Lemma id_of_detach r : id_of (heap (detach e g)) r = id_of (heap g) r.
Proof. unfold detach; simpl. by rewrite !id_of_alter. Qed.

Lemma edges_detach r v v' :
  heap g !! r = Some v → heap (detach e g) !! r = Some v' →
  edges v' = filter (λ x, eid x ≠ eid e) (edges v)
  ∧ neighbors v' = (if decide (incident r e)
                    then neighbors v ∖ {[id_of (heap g) (neighbor_of r e)]}
                    else neighbors v).
Proof using Hwf He.
  destruct (wf_ends g Hwf e He) as (_ & _ & Hne).
  intros Hv. rewrite lookup_detach, Hv. simpl.
  unfold incident.
  repeat case_decide; intros [= <-]; subst; simpl; try done;
    try (exfalso; intuition congruence).
  split; [|done]. symmetry. apply filter_all.
  intros x [Hx Hinc]%(wf_adj_elem g Hwf _ _ _ Hv) Heq.
  apply wf_eid_inj in Heq; [|done]. subst x. unfold incident in Hinc.
  intuition congruence.
Qed.

Lemma detach_wf : wf (detach e g).
Proof using Hwf He.
  destruct (wf_ends g Hwf e He) as (H1 & H2 & Hne). split.
  - intros r Hr. unfold detach; simpl. rewrite !length_alter. by apply Hwf.
  - apply Hwf.
  - intros r1 r2 Hr1 Hr2. rewrite !id_of_detach. by apply Hwf.
  - simpl. intros e' [_ He']%list_elem_of_filter. by apply Hwf.
  - simpl. apply NoDup_fmap_filter, Hwf.
  - simpl. intros e1 e2 [_ He1]%list_elem_of_filter [_ He2]%list_elem_of_filter.
    by apply Hwf.
  - intros r v' Hv'.
    destruct (heap g !! r) as [v|] eqn:Hv.
    2:{ rewrite lookup_detach, Hv in Hv'. done. }
    destruct (edges_detach r v v' Hv Hv') as [-> _]. simpl.
    rewrite (wf_edges g Hwf r v Hv). apply filter_comm.
  - intros r v' Hv'.
    destruct (heap g !! r) as [v|] eqn:Hv.
    2:{ rewrite lookup_detach, Hv in Hv'. done. }
    destruct (edges_detach r v v' Hv Hv') as [-> ->].
    erewrite (list_fmap_ext _ (λ x, id_of (heap g) (neighbor_of r x)));
      [|intros ???; apply id_of_detach].
    pose proof (wf_neighbors g Hwf r v Hv) as Hnb.
    case_decide as Hinc.
    + apply set_eq. intros x.
      rewrite elem_of_difference, Hnb, !elem_of_list_to_set, !list_elem_of_fmap.
      rewrite elem_of_singleton.
      destruct (wf_neighbor_in g Hwf r e He Hinc) as (Hn & Hnr & Hr).
      split.
      * intros [(x' & -> & Hx') Hneq]. exists x'. split; [done|].
        apply list_elem_of_filter. split; [|done]. intros Heq.
        apply (wf_adj_elem g Hwf _ _ _ Hv) in Hx' as [Hx' _].
        apply wf_eid_inj in Heq; [|done]. by subst x'.
      * intros (x' & -> & [Hneq Hx']%list_elem_of_filter).
        split; [by exists x'|]. intros Hid.
        apply (wf_adj_elem g Hwf _ _ _ Hv) in Hx' as [Hx' Hinc'].
        destruct (wf_neighbor_in g Hwf r x' Hx' Hinc') as (Hn' & Hnr' & _).
        apply (wf_ids g Hwf) in Hid; [|done..].
        apply Hneq. f_equal. apply (wf_simple g Hwf); [done..|].
        apply (joins_parallel r (neighbor_of r e)).
        -- apply neighbor_of_joins; [done|]. by rewrite Hid.
        -- by apply neighbor_of_joins.
    + rewrite Hnb. f_equal. f_equal. symmetry. apply filter_all.
      intros x [Hx Hincx]%(wf_adj_elem g Hwf _ _ _ Hv) Heq.
      apply wf_eid_inj in Heq; [|done]. by subst x.
Qed.
End remove_edge.

(** ** The four mutations on a well-formed graph *)

Lemma grow_wf g id :
  wf g → find_ref (heap g) (vtx_list g) id = None → wf (grow id g).
Proof.
  intros Hwf Hnone.
  assert (∀ r, r ∈ vtx_list g → id_of (heap g ++ [new_Vertex id]) r = id_of (heap g) r)
    as Hid.
  { intros r Hr. unfold id_of. rewrite lookup_app_l; [done|]. by apply Hwf. }
  assert (id_of (heap g ++ [new_Vertex id]) (length (heap g)) = id) as Hnew.
  { unfold id_of. by rewrite list_lookup_middle. }
  assert (∀ e, e ∈ edge_list g → ¬ incident (length (heap g)) e) as Hinc.
  { intros e He [H|H]; destruct (wf_ends g Hwf e He) as (H1 & H2 & _);
      [apply (wf_alloc g Hwf) in H1|apply (wf_alloc g Hwf) in H2]; lia. }
  split; simpl.
  - intros r [Hr| ->%list_elem_of_singleton]%elem_of_app; rewrite length_app; simpl.
    + apply (wf_alloc g Hwf) in Hr. lia.
    + lia.
  - apply NoDup_app. split; [apply Hwf|]. split; [|apply NoDup_singleton].
    intros x Hx ->%list_elem_of_singleton. apply (wf_alloc g Hwf) in Hx. lia.
  - intros r1 r2 [Hr1| ->%list_elem_of_singleton]%elem_of_app
                 [Hr2| ->%list_elem_of_singleton]%elem_of_app;
      rewrite ?Hnew, ?Hid by done.
    + by apply Hwf.
    + intros Heq. by eapply find_ref_None in Hnone.
    + intros Heq. symmetry in Heq. by eapply find_ref_None in Hnone.
    + done.
  - intros e He. destruct (wf_ends g Hwf e He) as (H1 & H2 & Hne).
    rewrite !elem_of_app. auto.
  - apply Hwf.
  - apply Hwf.
  - intros r v [Hv|[Hr Hv]]%lookup_app_Some.
    + by apply Hwf.
    + apply list_lookup_singleton_Some in Hv as [Hr' <-].
      assert (r = length (heap g)) as -> by lia. simpl. symmetry.
      apply filter_none. intros e He. by apply Hinc.
  - intros r v [Hv|[Hr Hv]]%lookup_app_Some.
    + rewrite (wf_neighbors g Hwf r v Hv). f_equal.
      apply list_fmap_ext. intros i e Hi.
      apply list_elem_of_lookup_2 in Hi.
      apply (wf_adj_elem g Hwf _ _ _ Hv) in Hi as [He Hi].
      symmetry. apply Hid. by apply (wf_neighbor_in g Hwf r e).
    + apply list_lookup_singleton_Some in Hv as [_ <-]. done.
Qed.

Lemma add_vtx_spec g id :
  wf g →
  add_vtx id g = match find_ref (heap g) (vtx_list g) id with
                 | Some _ => (Raise IllegalArgumentError, g)
                 | None => (Ok tt, grow id g)
                 end.
Proof.
  intros Hwf. unfold add_vtx.
  rewrite (bind_Ok _ _ _ _ _ (find_vtx_spec g id Hwf)).
  by destruct (find_ref _ _ _).
Qed.

(** Some edge of the graph joins [a] and [b]. *)
Lemma linked_neighbors g a b va :
  wf g → heap g !! a = Some va → b ∈ vtx_list g →
  id_of (heap g) b ∈ neighbors va ↔ Exists (joins a b) (edge_list g).
Proof.
  intros Hwf Ha Hb. rewrite (wf_neighbors_elem g Hwf a b va Ha Hb), Exists_exists.
  done.
Qed.

Lemma add_edge_spec g id1 id2 :
  wf g →
  add_edge id1 id2 g =
    match find_ref (heap g) (vtx_list g) id1, find_ref (heap g) (vtx_list g) id2 with
    | Some a, Some b =>
        if (id1 =? id2)%Z then (Raise IllegalArgumentError, g)
        else if decide (Exists (joins a b) (edge_list g))
             then (Raise IllegalArgumentError, g)
             else (Ok tt, attach (mkEdge (fresh_eid g) a b) g)
    | _, _ => (Raise IllegalArgumentError, g)
    end.
Proof.
  intros Hwf. unfold add_edge.
  rewrite (bind_Ok _ _ _ _ _ (find_vtx_spec g id1 Hwf)).
  rewrite (bind_Ok _ _ _ _ _ (find_vtx_spec g id2 Hwf)).
  destruct (find_ref _ _ id1) as [a|] eqn:Ea;
    [|by destruct (find_ref (heap g) (vtx_list g) id2)].
  destruct (find_ref _ _ id2) as [b|] eqn:Eb; [|done].
  destruct (Z.eqb_spec id1 id2) as [Heq|Hne]; [done|].
  apply find_ref_Some in Ea as [Ha Hida]. apply find_ref_Some in Eb as [Hb Hidb].
  destruct (wf_lookup g Hwf a Ha) as [va Hva].
  destruct (wf_lookup g Hwf b Hb) as [vb Hvb].
  assert (a ≠ b) as Hab by congruence.
  case_decide as Hl.
  - eapply (_add_edge_dup g _ va vb); [done..|].
    rewrite <- (deref_id_of _ _ _ Hvb). by rewrite linked_neighbors.
  - eapply (_add_edge_Ok g _ va vb); [done..| |].
    + rewrite <- (deref_id_of _ _ _ Hvb). by rewrite linked_neighbors.
    + rewrite <- (deref_id_of _ _ _ Hva). rewrite linked_neighbors by done.
      intros Hl'. apply Hl. eapply Exists_impl; [done|].
      intros e. apply joins_sym.
Qed.

Lemma add_edge_wf g a b :
  wf g → a ∈ vtx_list g → b ∈ vtx_list g → a ≠ b →
  ¬ Exists (joins a b) (edge_list g) →
  wf (attach (mkEdge (fresh_eid g) a b) g).
Proof.
  intros Hwf Ha Hb Hab Hl. apply attach_wf; simpl; try done.
  - apply fresh_eid_fresh.
  - intros e' He' Hp. apply Hl. apply Exists_exists. exists e'. split; [done|].
    unfold parallel, joins in *. simpl in Hp. intuition congruence.
Qed.

Lemma joins_guard a b e :
  ((end1 e =? a) && (end2 e =? b)) || ((end1 e =? b) && (end2 e =? a))
  = bool_decide (joins a b e).
Proof.
  unfold joins. symmetry.
  destruct (Nat.eqb_spec (end1 e) a), (Nat.eqb_spec (end2 e) b),
           (Nat.eqb_spec (end1 e) b), (Nat.eqb_spec (end2 e) a); simpl;
    (apply bool_decide_eq_true; tauto) || (apply bool_decide_eq_false; tauto).
Qed.

Lemma first_edge_between_Some a b l e :
  first_edge_between a b l = Some e → e ∈ l ∧ joins a b e.
Proof.
  induction l as [|x l IH]; simpl; [done|]. rewrite joins_guard.
  case_bool_decide as Hj.
  - intros [= ->]. split; [left|done].
  - intros [H1 H2]%IH. split; [by right|done].
Qed.

Lemma first_edge_between_None a b l :
  first_edge_between a b l = None → ¬ Exists (joins a b) l.
Proof.
  induction l as [|x l IH]; simpl.
  - intros _ H. by apply Exists_nil in H.
  - rewrite joins_guard. case_bool_decide as Hj; [done|].
    intros H [?|?]%Exists_cons; [done|]. by apply IH.
Qed.

Lemma first_edge_between_filter a b l :
  first_edge_between a b (filter (incident a) l) = first_edge_between a b l.
Proof.
  induction l as [|x l IH]; [done|]. rewrite filter_cons. simpl.
  rewrite joins_guard. case_decide as Hi; simpl.
  - by rewrite joins_guard, IH.
  - rewrite bool_decide_eq_false_2; [done|].
    intros Hj. apply Hi. unfold joins, incident in *. tauto.
Qed.

Lemma get_edge_with_neighbor_spec g a b va :
  wf g → heap g !! a = Some va →
  get_edge_with_neighbor a (Some b) g = (Ok (first_edge_between a b (edge_list g)), g).
Proof.
  intros Hwf Hva. unfold get_edge_with_neighbor.
  rewrite (bind_Ok _ _ _ _ _ (deref_Some _ _ _ Hva)). unfold ret.
  by rewrite (wf_edges g Hwf a va Hva), first_edge_between_filter.
Qed.

Lemma remove_edge_spec g id1 id2 :
  wf g →
  remove_edge id1 id2 g =
    match find_ref (heap g) (vtx_list g) id1, find_ref (heap g) (vtx_list g) id2 with
    | Some a, Some b =>
        match first_edge_between a b (edge_list g) with
        | Some e => (Ok tt, detach e g)
        | None => (Raise IllegalArgumentError, g)
        end
    | _, _ => (Raise IllegalArgumentError, g)
    end.
Proof.
  intros Hwf. unfold remove_edge.
  rewrite (bind_Ok _ _ _ _ _ (find_vtx_spec g id1 Hwf)).
  rewrite (bind_Ok _ _ _ _ _ (find_vtx_spec g id2 Hwf)).
  destruct (find_ref _ _ id1) as [a|] eqn:Ea;
    [|by destruct (find_ref (heap g) (vtx_list g) id2)].
  destruct (find_ref _ _ id2) as [b|] eqn:Eb; [|done].
  apply find_ref_Some in Ea as [Ha Hida].
  destruct (wf_lookup g Hwf a Ha) as [va Hva].
  rewrite (bind_Ok _ _ _ _ _ (get_edge_with_neighbor_spec g a b va Hwf Hva)).
  destruct (first_edge_between a b (edge_list g)) as [e|] eqn:Ee; [|done].
  apply first_edge_between_Some in Ee as [He _].
  by apply _remove_edge_Ok.
Qed.

(** ** [_remove_vtx] *)

Lemma filter_ext_in {A} (P Q : A → Prop) `{∀ x, Decision (P x)} `{∀ x, Decision (Q x)}
    (l : list A) :
  (∀ x, x ∈ l → P x ↔ Q x) → filter P l = filter Q l.
Proof.
  induction l as [|x l IH]; intros Hext; [done|].
  rewrite !filter_cons.
  rewrite IH by (intros y Hy; apply Hext; by right).
  apply decide_ext. apply Hext. left.
Qed.

Lemma vtx_list_detach_all es g : vtx_list (detach_all es g) = vtx_list g.
Proof. revert g. induction es as [|e es IH]; intros g; simpl; [done|]. by rewrite IH. Qed.

Lemma edge_list_detach_all es g :
  edge_list (detach_all es g) = filter (λ x, eid x ∉ eid <$> es) (edge_list g).
Proof.
  revert g. induction es as [|e es IH]; intros g; simpl.
  - symmetry. apply filter_all. intros x _. apply not_elem_of_nil.
  - rewrite IH. simpl. rewrite list_filter_filter. apply list_filter_iff.
    intros x. rewrite not_elem_of_cons. tauto.
Qed.

Lemma detach_all_wf es g :
  wf g → (∀ e, e ∈ es → e ∈ edge_list g) → NoDup (eid <$> es) →
  wf (detach_all es g).
Proof.
  revert g. induction es as [|e es IH]; intros g Hwf Hin Hnd; simpl; [done|].
  rewrite fmap_cons in Hnd. apply NoDup_cons in Hnd as [He Hnd].
  apply IH; [|  |done].
  - apply detach_wf; [done|]. apply Hin. left.
  - intros e' He'. simpl. apply list_elem_of_filter. split.
    + intros Heq. apply He. rewrite <- Heq. by apply list_elem_of_fmap_2.
    + apply Hin. by right.
Qed.

Lemma remove_incident_edges_spec fuel g r v :
  wf g → heap g !! r = Some v → length (edges v) < fuel →
  remove_incident_edges fuel r g = (Ok tt, detach_all (edges v) g).
Proof.
  revert g v. induction fuel as [|fuel IH]; intros g v Hwf Hv Hlen; [lia|].
  simpl. rewrite (bind_Ok _ _ _ _ _ (deref_Some _ _ _ Hv)).
  destruct (edges v) as [|e es] eqn:Hes; [done|].
  assert (e ∈ edge_list g ∧ incident r e) as [He Hinc].
  { apply (wf_adj_elem g Hwf r v e Hv). rewrite Hes. left. }
  rewrite (bind_Ok _ _ _ _ _ (_remove_edge_Ok g Hwf e He)).
  pose proof (wf_adj_NoDup g Hwf r v Hv) as Hnd. rewrite Hes, fmap_cons in Hnd.
  apply NoDup_cons in Hnd as [Hfresh Hnd].
  destruct (heap (detach e g) !! r) as [v'|] eqn:Hv'.
  2:{ rewrite (lookup_detach g Hwf e He), Hv in Hv'. done. }
  destruct (edges_detach g Hwf e He r v v' Hv Hv') as [Hed _].
  rewrite Hes, filter_cons_False in Hed by tauto.
  rewrite filter_all in Hed.
  2:{ intros x Hx Heq. apply Hfresh. rewrite <- Heq. by apply list_elem_of_fmap_2. }
  rewrite (IH (detach e g) v'); [by rewrite Hed| |done|].
  - by apply detach_wf.
  - rewrite Hed. simpl in Hlen. lia.
Qed.

Lemma list_remove_nat_filter (r : nat) l :
  NoDup l → r ∈ l → list_remove Nat.eqb r l = Some (filter (λ x, x ≠ r) l).
Proof.
  induction l as [|x l IH]; simpl; intros Hnd Hin.
  - by apply elem_of_nil in Hin.
  - apply NoDup_cons in Hnd as [Hx Hnd].
    destruct (Nat.eqb_spec x r) as [->|Hne].
    + rewrite filter_cons_False by tauto. f_equal. symmetry.
      apply filter_all. intros y Hy ->. done.
    + rewrite filter_cons_True by done.
      apply elem_of_cons in Hin as [->|Hin]; [done|]. by rewrite IH.
Qed.

Section remove_vtx.
Context (g : UndirectedGraph) (Hwf : wf g).
Context (r : vref) (Hr : r ∈ vtx_list g).

Lemma isolate_wf : wf (isolate r g).
Proof using Hwf.
  apply detach_all_wf; [done| |].
  - by intros e [_ He]%list_elem_of_filter.
  - apply NoDup_fmap_filter, Hwf.
Qed.

Lemma isolate_edge_list :
  edge_list (isolate r g) = filter (λ e, ¬ incident r e) (edge_list g).
Proof using Hwf.
  unfold isolate. rewrite edge_list_detach_all. apply filter_ext_in.
  intros x Hx. rewrite list_elem_of_fmap. split.
  - intros Hn Hinc. apply Hn. exists x. split; [done|].
    by apply list_elem_of_filter.
  - intros Hn (y & Heq & [Hy Hin]%list_elem_of_filter). apply Hn.
    by rewrite (wf_eid_inj g Hwf y Hin x Hx).
Qed.

Lemma drop_vtx_wf : wf (drop_vtx r g).
Proof using Hwf Hr.
  pose proof isolate_wf as Hwf'.
  unfold drop_vtx. split; simpl.
  - intros x [_ Hx]%list_elem_of_filter. by apply Hwf'.
  - apply NoDup_filter, Hwf'.
  - intros r1 r2 [_ H1]%list_elem_of_filter [_ H2]%list_elem_of_filter.
    by apply Hwf'.
  - intros e He. destruct (wf_ends _ Hwf' e He) as (H1 & H2 & Hne).
    rewrite isolate_edge_list in He. apply list_elem_of_filter in He as [Hinc _].
    rewrite !list_elem_of_filter. unfold incident in Hinc. intuition congruence.
  - apply Hwf'.
  - apply Hwf'.
  - apply Hwf'.
  - apply Hwf'.
Qed.

Lemma _remove_vtx_Ok : _remove_vtx r g = (Ok tt, drop_vtx r g).
Proof using Hwf Hr.
  destruct (wf_lookup g Hwf r Hr) as [v Hv].
  unfold _remove_vtx.
  erewrite bind_Ok; cycle 1.
  { apply (remove_incident_edges_spec _ g r v Hwf Hv).
    rewrite (wf_edges g Hwf r v Hv).
    pose proof (length_filter (incident r) (edge_list g)). lia. }
  rewrite (wf_edges g Hwf r v Hv). fold (isolate r g).
  rewrite list_remove_nat_filter; [done| |].
  - unfold isolate. rewrite vtx_list_detach_all. apply Hwf.
  - unfold isolate. by rewrite vtx_list_detach_all.
Qed.
End remove_vtx.

Lemma remove_vtx_spec g id :
  wf g →
  remove_vtx id g = match find_ref (heap g) (vtx_list g) id with
                    | Some r => (Ok tt, drop_vtx r g)
                    | None => (Raise IllegalArgumentError, g)
                    end.
Proof.
  intros Hwf. unfold remove_vtx.
  rewrite (bind_Ok _ _ _ _ _ (find_vtx_spec g id Hwf)).
  destruct (find_ref _ _ _) as [r|] eqn:Er; [|done].
  apply find_ref_Some in Er as [Hr _]. by apply _remove_vtx_Ok.
Qed.

(** ** Exploration never touches the structure *)

Lemma same_structure_refl g : same_structure g g.
Proof. by repeat split. Qed.

Lemma same_structure_trans g1 g2 g3 :
  same_structure g1 g2 → same_structure g2 g3 → same_structure g1 g3.
Proof. intros (?&?&?) (?&?&?). repeat split; congruence. Qed.

Lemma same_structure_sym g1 g2 : same_structure g1 g2 → same_structure g2 g1.
Proof. intros (?&?&?). by repeat split. Qed.

Lemma marks_only_ret {A} (a : A) : marks_only (ret a).
Proof. intros g. apply same_structure_refl. Qed.

Lemma marks_only_raise {A} e : marks_only (@raise A e).
Proof. intros g. apply same_structure_refl. Qed.

Lemma marks_only_out_of_fuel {A} : marks_only (@out_of_fuel A).
Proof. intros g. apply same_structure_refl. Qed.

Lemma marks_only_deref r : marks_only (deref r).
Proof. intros g. unfold deref. destruct (heap g !! r); apply same_structure_refl. Qed.

Lemma marks_only_bind {A B} (m : M A) (k : A → M B) :
  marks_only m → (∀ a, marks_only (k a)) → marks_only (bind m k).
Proof.
  intros Hm Hk g. unfold bind. specialize (Hm g).
  destruct (m g) as [[a| | |] g']; simpl in *; try done.
  eapply same_structure_trans; [done|]. apply Hk.
Qed.

Lemma marks_only_reading {A B} (f : UndirectedGraph → B) (m : B → M A) :
  (∀ b, marks_only (m b)) → marks_only (λ g, m (f g) g).
Proof. intros Hm g. apply Hm. Qed.

Lemma marks_only_update (f : Vertex → Vertex) r :
  (∀ v, skeleton (f v) = skeleton v) →
  marks_only (do v <- deref r; store r (f v)).
Proof.
  intros Hf g. unfold bind, deref, store.
  destruct (heap g !! r) as [v|] eqn:Hv; simpl; [|apply same_structure_refl].
  repeat split; simpl. rewrite list_fmap_insert, Hf.
  apply list_insert_id. by rewrite list_lookup_fmap, Hv.
Qed.

Lemma marks_only_set_as_explored r : marks_only (set_as_explored r).
Proof. by apply marks_only_update. Qed.

Lemma marks_only_set_layer r n : marks_only (set_layer r n).
Proof. by apply marks_only_update. Qed.

Lemma marks_only_find_vtx_in l id : marks_only (find_vtx_in l id).
Proof.
  induction l as [|r l IH]; simpl; [apply marks_only_ret|].
  apply marks_only_bind; [apply marks_only_deref|]. intros v.
  destruct (vtx_id v =? id)%Z; [apply marks_only_ret|done].
Qed.

Lemma marks_only_find_vtx id : marks_only (_find_vtx id).
Proof.
  apply (marks_only_reading vtx_list (λ l, find_vtx_in l id)).
  intros l. apply marks_only_find_vtx_in.
Qed.

Create HintDb marks discriminated.
#[local] Hint Resolve marks_only_ret marks_only_raise marks_only_out_of_fuel
  marks_only_deref marks_only_set_as_explored marks_only_set_layer
  marks_only_find_vtx : marks.

Ltac marks_step :=
  repeat first
    [ solve [auto with marks]
    | apply marks_only_bind; [|intros ?]
    | match goal with
      | |- marks_only (if ?b then _ else _) => destruct b
      | |- marks_only (match ?x with _ => _ end) => destruct x
      end ].

Lemma marks_only_bfs_scan vtx es queue ids : marks_only (bfs_scan vtx es queue ids).
Proof.
  revert queue ids. induction es as [|e es IH]; intros; simpl; marks_step.
Qed.

Lemma marks_only_bfs_loop fuel queue ids : marks_only (bfs_loop fuel queue ids).
Proof.
  revert queue ids. induction fuel as [|fuel IH]; intros; simpl; marks_step.
  apply marks_only_bfs_scan.
Qed.

Lemma marks_only_bfs src : marks_only (bfs src).
Proof.
  unfold bfs. marks_step.
  apply (marks_only_reading (λ g, 2 + length (heap g)) (λ n, bfs_loop n _ _)).
  intros ?. apply marks_only_bfs_loop.
Qed.

Lemma marks_only_shortest_path_scan vtx dest es queue :
  marks_only (shortest_path_scan vtx dest es queue).
Proof. revert queue. induction es as [|e es IH]; intros; simpl; marks_step. Qed.

Lemma marks_only_shortest_path_loop fuel dest queue :
  marks_only (shortest_path_loop fuel dest queue).
Proof.
  revert queue. induction fuel as [|fuel IH]; intros; simpl; marks_step.
  apply marks_only_shortest_path_scan.
Qed.

Lemma marks_only_shortest_path src dest : marks_only (shortest_path src dest).
Proof.
  unfold shortest_path. marks_step.
  apply (marks_only_reading (λ g, 2 + length (heap g))
           (λ n, shortest_path_loop n _ _)).
  intros ?. apply marks_only_shortest_path_loop.
Qed.

Lemma marks_only_dfs_scan rec vtx es ids :
  (∀ r l, marks_only (rec r l)) → marks_only (dfs_scan rec vtx es ids).
Proof. intros Hrec. revert ids. induction es as [|e es IH]; intros; simpl; marks_step. Qed.

Lemma marks_only_dfs_helper fuel vtx ids : marks_only (_dfs_helper fuel vtx ids).
Proof.
  revert vtx ids. induction fuel as [|fuel IH]; intros; simpl; marks_step.
  by apply marks_only_dfs_scan.
Qed.

Lemma marks_only_dfs src : marks_only (dfs src).
Proof.
  unfold dfs. marks_step.
  apply (marks_only_reading (λ g, S (length (heap g))) (λ n, _dfs_helper n _ _)).
  intros ?. apply marks_only_dfs_helper.
Qed.

#[local] Hint Resolve marks_only_bfs marks_only_dfs : marks.

Lemma marks_only_components_with_bfs l cs : marks_only (components_with_bfs l cs).
Proof. revert cs. induction l as [|r l IH]; intros; simpl; marks_step. Qed.

Lemma marks_only_components_with_dfs l cs : marks_only (components_with_dfs l cs).
Proof. revert cs. induction l as [|r l IH]; intros; simpl; marks_step. Qed.

Lemma marks_only_num_bfs : marks_only num_of_connected_components_with_bfs.
Proof.
  unfold num_of_connected_components_with_bfs. marks_step.
  apply (marks_only_reading vtx_list (λ l, components_with_bfs l [])).
  intros ?. apply marks_only_components_with_bfs.
Qed.

Lemma marks_only_num_dfs : marks_only num_of_connected_components_with_dfs.
Proof.
  unfold num_of_connected_components_with_dfs. marks_step.
  apply (marks_only_reading vtx_list (λ l, components_with_dfs l [])).
  intros ?. apply marks_only_components_with_dfs.
Qed.

(** ** The invariant only looks at the structure *)

Lemma same_structure_lookup g g' r :
  same_structure g g' → skeleton <$> heap g' !! r = skeleton <$> heap g !! r.
Proof. intros (_ & _ & H). by rewrite <- !list_lookup_fmap, H. Qed.

Lemma same_structure_Some g g' r v' :
  same_structure g g' → heap g' !! r = Some v' →
  ∃ v, heap g !! r = Some v ∧ vtx_id v' = vtx_id v ∧ edges v' = edges v
       ∧ neighbors v' = neighbors v.
Proof.
  intros Hs Hv'. pose proof (same_structure_lookup g g' r Hs) as H.
  rewrite Hv' in H. destruct (heap g !! r) as [v|]; [|done].
  exists v. split; [done|]. simpl in H. injection H as H1 H2 H3. auto.
Qed.

Lemma same_structure_id_of g g' r :
  same_structure g g' → id_of (heap g') r = id_of (heap g) r.
Proof.
  intros Hs. pose proof (same_structure_lookup g g' r Hs) as H. unfold id_of.
  destruct (heap g' !! r) as [v'|], (heap g !! r) as [v|]; simpl in *; try done.
  by injection H.
Qed.

Lemma same_structure_length g g' :
  same_structure g g' → length (heap g') = length (heap g).
Proof. intros (_ & _ & H). by rewrite <- (length_fmap skeleton), H, length_fmap. Qed.

Lemma wf_same_structure g g' : same_structure g g' → wf g → wf g'.
Proof.
  intros Hs Hwf. pose proof Hs as (Hvl & Hel & _). split; rewrite ?Hvl, ?Hel.
  - intros r Hr. rewrite (same_structure_length g g' Hs). by apply Hwf.
  - apply Hwf.
  - intros r1 r2 H1 H2. rewrite !(same_structure_id_of g g') by done. by apply Hwf.
  - apply Hwf.
  - apply Hwf.
  - apply Hwf.
  - intros r v' Hv'.
    destruct (same_structure_Some g g' r v' Hs Hv') as (v & Hv & _ & -> & _).
    by apply Hwf.
  - intros r v' Hv'.
    destruct (same_structure_Some g g' r v' Hs Hv') as (v & Hv & _ & -> & ->).
    rewrite (wf_neighbors g Hwf r v Hv). f_equal. apply list_fmap_ext.
    intros ???. symmetry. by apply same_structure_id_of.
Qed.

Lemma forget_state {A} (m : M A) g : (forget m g).2 = (m g).2.
Proof. unfold forget, bind, ret. by destruct (m g) as [[]]. Qed.

Lemma empty_graph_wf : wf empty_graph.
Proof.
  split; simpl; try done.
  - intros r Hr. by apply elem_of_nil in Hr.
  - apply NoDup_nil_2.
  - intros r1 r2 Hr. by apply elem_of_nil in Hr.
  - intros e He. by apply elem_of_nil in He.
  - apply NoDup_nil_2.
  - intros e e' He. by apply elem_of_nil in He.
Qed.

(** Every call leaves a well-formed graph well-formed, whether it returns or
    raises. *)
Lemma exec_wf c g : wf g → wf (exec c g).2.
Proof.
  intros Hwf. destruct c as [id|id|a b|a b|s|s|s d| |]; simpl.
  - rewrite add_vtx_spec by done.
    destruct (find_ref _ _ _) eqn:E; simpl; [done|by apply grow_wf].
  - rewrite remove_vtx_spec by done.
    destruct (find_ref _ _ _) as [r|] eqn:E; simpl; [|done].
    apply find_ref_Some in E as [Hr _]. by apply drop_vtx_wf.
  - rewrite add_edge_spec by done.
    destruct (find_ref _ _ a) as [ra|] eqn:Ea; [|done].
    destruct (find_ref _ _ b) as [rb|] eqn:Eb; [|done].
    destruct (Z.eqb_spec a b); [done|]. case_decide; [done|]. simpl.
    apply find_ref_Some in Ea as [Ha Hida]. apply find_ref_Some in Eb as [Hb Hidb].
    apply add_edge_wf; try done. congruence.
  - rewrite remove_edge_spec by done.
    destruct (find_ref _ _ a) as [ra|] eqn:Ea; [|done].
    destruct (find_ref _ _ b) as [rb|] eqn:Eb; [|done].
    destruct (first_edge_between _ _ _) as [e|] eqn:Ee; [|done]. simpl.
    apply first_edge_between_Some in Ee as [He _]. by apply detach_wf.
  - rewrite forget_state. eapply wf_same_structure; [apply marks_only_bfs|done].
  - rewrite forget_state. eapply wf_same_structure; [apply marks_only_dfs|done].
  - rewrite forget_state.
    eapply wf_same_structure; [apply marks_only_shortest_path|done].
  - rewrite forget_state. eapply wf_same_structure; [apply marks_only_num_bfs|done].
  - rewrite forget_state. eapply wf_same_structure; [apply marks_only_num_dfs|done].
Qed.

Lemma run_wf cs g : wf g → wf (run cs g).
Proof.
  revert g. induction cs as [|c cs IH]; intros g Hwf; simpl; [done|].
  by apply IH, exec_wf.
Qed.

Lemma reachable_wf g : reachable g → wf g.
Proof. intros [cs ->]. apply run_wf, empty_graph_wf. Qed.

Lemma reachable_step c g : reachable g → reachable (exec c g).2.
Proof.
  intros [cs ->]. exists (cs ++ [c]). unfold run. by rewrite foldl_app.
Qed.

(** ** Looking vertices up by id *)

Lemma find_ref_ext h h' l id :
  (∀ r, id_of h' r = id_of h r) → find_ref h' l id = find_ref h l id.
Proof. intros Hext. induction l as [|r l IH]; simpl; [done|]. by rewrite Hext, IH. Qed.

Lemma find_ref_has_vertex g id r :
  wf g → has_vertex g id r → find_ref (heap g) (vtx_list g) id = Some r.
Proof. intros Hwf [Hr <-]. by apply find_ref_elem. Qed.

Lemma find_ref_no_vertex g id :
  (∀ r, ¬ has_vertex g id r) → find_ref (heap g) (vtx_list g) id = None.
Proof.
  intros Hno. destruct (find_ref _ _ _) as [r|] eqn:E; [|done].
  apply find_ref_Some in E. by destruct (Hno r).
Qed.

Lemma id_of_detach_all es g r : id_of (heap (detach_all es g)) r = id_of (heap g) r.
Proof.
  revert g. induction es as [|e es IH]; intros g; simpl; [done|].
  rewrite IH. unfold detach; simpl. by rewrite !id_of_alter.
Qed.

Lemma id_of_drop_vtx x g r : id_of (heap (drop_vtx x g)) r = id_of (heap g) r.
Proof. unfold drop_vtx, isolate; simpl. apply id_of_detach_all. Qed.

(** ** The structural claims *)

(** C6: after any sequence of calls from the empty graph, every edge of the
    edge collection has two distinct endpoints, sits in the adjacency
    sequence of both and of no other vertex object, and no two edges join the
    same unordered pair of vertices. *)
Theorem edges_consistent (cs : list call) :
  let g := run cs empty_graph in
  (∀ e, e ∈ edge_list g →
     end1 e ≠ end2 e ∧
     (∃ va vb, heap g !! end1 e = Some va ∧ heap g !! end2 e = Some vb
               ∧ e ∈ edges va ∧ e ∈ edges vb) ∧
     (∀ r v, heap g !! r = Some v → e ∈ edges v → r = end1 e ∨ r = end2 e))
  ∧ (∀ e e', e ∈ edge_list g → e' ∈ edge_list g → parallel e e' → e = e').
Proof.
  intros g. assert (wf g) as Hwf by apply run_wf, empty_graph_wf.
  split; [|apply Hwf].
  intros e He. destruct (wf_ends g Hwf e He) as (H1 & H2 & Hne).
  split; [done|]. split.
  - destruct (wf_lookup g Hwf _ H1) as [va Ha].
    destruct (wf_lookup g Hwf _ H2) as [vb Hb].
    exists va, vb. repeat split; try done.
    + apply (wf_adj_elem g Hwf _ _ _ Ha). split; [done|by left].
    + apply (wf_adj_elem g Hwf _ _ _ Hb). split; [done|by right].
  - intros r v Hv [_ Hinc]%(wf_adj_elem g Hwf _ _ _ Hv).
    by apply incident_cases.
Qed.

(** C7: on a graph built through the public operations a mutation that does
    not return raises IllegalArgumentError and leaves the graph as it was;
    and once add_edge(x, y) has returned, add_edge(x, y) and add_edge(y, x)
    both raise IllegalArgumentError and change nothing. *)
Theorem failed_mutation_atomic g :
  reachable g →
  (∀ c, is_mutation c = true → (exec c g).1 ≠ Ok tt →
        exec c g = (Raise IllegalArgumentError, g))
  ∧ (∀ x y g1, add_edge x y g = (Ok tt, g1) →
        add_edge x y g1 = (Raise IllegalArgumentError, g1)
        ∧ add_edge y x g1 = (Raise IllegalArgumentError, g1)).
Proof.
  intros Hwf%reachable_wf. split.
  - intros c Hm. destruct c as [id|id|a b|a b|s|s|s d| |]; try done; simpl.
    + rewrite add_vtx_spec by done. by destruct (find_ref _ _ _).
    + rewrite remove_vtx_spec by done. by destruct (find_ref _ _ _).
    + rewrite add_edge_spec by done.
      destruct (find_ref _ _ a); [|done]. destruct (find_ref _ _ b); [|done].
      destruct (a =? b)%Z; [done|]. by case_decide.
    + rewrite remove_edge_spec by done.
      destruct (find_ref _ _ a); [|done]. destruct (find_ref _ _ b); [|done].
      by destruct (first_edge_between _ _ _).
  - intros x y g1. rewrite add_edge_spec by done.
    destruct (find_ref _ _ x) as [a|] eqn:Ea; [|done].
    destruct (find_ref _ _ y) as [b|] eqn:Eb; [|done].
    destruct (Z.eqb_spec x y) as [|Hxy]; [done|]. case_decide as Hl; [done|].
    intros [= <-].
    pose proof Ea as [Ha Hida]%find_ref_Some.
    pose proof Eb as [Hb Hidb]%find_ref_Some.
    assert (a ≠ b) as Hab by congruence.
    set (e := mkEdge (fresh_eid g) a b).
    assert (wf (attach e g)) as Hwf1 by (by apply add_edge_wf).
    assert (∀ id, find_ref (heap (attach e g)) (vtx_list (attach e g)) id
                  = find_ref (heap g) (vtx_list g) id) as Hfind.
    { intros id. apply find_ref_ext. intros r. apply id_of_attach. }
    assert (e ∈ edge_list (attach e g)) as He.
    { simpl. apply elem_of_app. right. left. }
    rewrite !add_edge_spec, !Hfind, Ea, Eb by done.
    rewrite (proj2 (Z.eqb_neq x y)), (proj2 (Z.eqb_neq y x)) by done.
    rewrite !decide_True; [done| |].
    + apply Exists_exists. exists e. split; [done|]. by right.
    + apply Exists_exists. exists e. split; [done|]. by left.
Qed.

(** C8: remove_vtx(id) raises IllegalArgumentError when no vertex carries
    [id]; otherwise it returns, having taken every incident edge out through
    [_remove_edge] and then the vertex out of the vertex list: no edge of the
    edge collection touches the removed vertex, and no remaining vertex has
    such an edge in its adjacency sequence or the id in its neighbor set. *)
Theorem remove_vtx_clears g id :
  reachable g →
  ((∀ r, ¬ has_vertex g id r) →
     remove_vtx id g = (Raise IllegalArgumentError, g))
  ∧ (∀ r, has_vertex g id r →
       ∃ g', remove_vtx id g = (Ok tt, g')
         ∧ g' = drop_vtx r g
         ∧ vtx_list g' = filter (λ x, x ≠ r) (vtx_list g)
         ∧ edge_list g' = filter (λ e, ¬ incident r e) (edge_list g)
         ∧ (∀ r', ¬ has_vertex g' id r')
         ∧ (∀ r' v', r' ∈ vtx_list g' → heap g' !! r' = Some v' →
              (∀ e, e ∈ edges v' → ¬ incident r e) ∧ id ∉ neighbors v')).
Proof.
  intros Hwf%reachable_wf. split.
  - intros Hno. rewrite remove_vtx_spec by done.
    by rewrite find_ref_no_vertex.
  - intros r Hr. exists (drop_vtx r g).
    rewrite remove_vtx_spec, (find_ref_has_vertex g id r) by done.
    destruct Hr as [Hr Hid].
    pose proof (drop_vtx_wf g Hwf r Hr) as Hwf'.
    assert (vtx_list (drop_vtx r g) = filter (λ x, x ≠ r) (vtx_list g)) as Hvl.
    { unfold drop_vtx, isolate; simpl. by rewrite vtx_list_detach_all. }
    assert (edge_list (drop_vtx r g) = filter (λ e, ¬ incident r e) (edge_list g))
      as Hel.
    { unfold drop_vtx; simpl. by apply isolate_edge_list. }
    assert (∀ r', r' ∈ vtx_list (drop_vtx r g) → id_of (heap (drop_vtx r g)) r' ≠ id)
      as Hids.
    { intros r'. rewrite Hvl, id_of_drop_vtx.
      intros [Hne Hr']%list_elem_of_filter Heq. apply Hne.
      apply (wf_ids g Hwf); [done..|congruence]. }
    do 4 (split; [done|]). split.
    + intros r' [Hr' Heq]. by apply (Hids r').
    + intros r' v' Hr' Hv'. split.
      * intros e [He _]%(wf_adj_elem _ Hwf' _ _ _ Hv').
        rewrite Hel in He. by apply list_elem_of_filter in He as [? _].
      * rewrite (wf_neighbors _ Hwf' r' v' Hv'), elem_of_list_to_set,
          list_elem_of_fmap.
        intros (e & Heq & [He Hinc]%(wf_adj_elem _ Hwf' _ _ _ Hv')).
        destruct (wf_neighbor_in _ Hwf' r' e He Hinc) as (Hn & _ & _).
        by apply (Hids _ Hn).
Qed.

Lemma detach_attach g a b :
  wf g → a ∈ vtx_list g → b ∈ vtx_list g → a ≠ b →
  ¬ Exists (joins a b) (edge_list g) →
  detach (mkEdge (fresh_eid g) a b) (attach (mkEdge (fresh_eid g) a b) g) = g.
Proof.
  intros Hwf Ha Hb Hab Hl. set (e := mkEdge (fresh_eid g) a b).
  assert (wf (attach e g)) as Hwf1 by (by apply add_edge_wf).
  assert (e ∈ edge_list (attach e g)) as He.
  { simpl. apply elem_of_app. right. left. }
  assert (∀ l, l ⊆ edge_list g → filter (λ x, eid x ≠ eid e) (l ++ [e]) = l) as Hf.
  { intros l Hsub. rewrite filter_app, filter_cons_False, app_nil_r by tauto.
    apply filter_all. intros x Hx Heq. apply (fresh_eid_fresh g).
    simpl in Heq. rewrite <- Heq. apply list_elem_of_fmap_2. by apply Hsub. }
  assert (neighbor_of a e = b) as Hna by apply (neighbor_of_end1 e).
  assert (neighbor_of b e = a) as Hnb by (by apply (neighbor_of_end2 e)).
  assert (end1 e = a) as He1 by done. assert (end2 e = b) as He2 by done.
  clearbody e.
  assert (heap (detach e (attach e g)) = heap g) as Hh.
  { apply list_eq. intros r.
    rewrite (lookup_detach (attach e g) Hwf1 e He), lookup_attach by congruence.
    rewrite He1, He2.
    destruct (heap g !! r) as [v|] eqn:Hv; [|by repeat case_decide].
    repeat case_decide; try subst r; simpl; try done; f_equal.
    - unfold detach_from, attach_to. simpl. rewrite Hna, !id_of_alter by done.
      rewrite Hf by (rewrite (wf_edges _ Hwf _ v Hv); apply list_subseteq_filter).
      replace ((neighbors v ∪ {[id_of (heap g) b]}) ∖ {[id_of (heap g) b]})
        with (neighbors v); [by destruct v|].
      assert (id_of (heap g) b ∉ neighbors v); [|set_solver].
      by rewrite (linked_neighbors _ _ b v Hwf Hv Hb).
    - unfold detach_from, attach_to. simpl. rewrite Hnb, !id_of_alter by done.
      rewrite Hf by (rewrite (wf_edges _ Hwf _ v Hv); apply list_subseteq_filter).
      replace ((neighbors v ∪ {[id_of (heap g) a]}) ∖ {[id_of (heap g) a]})
        with (neighbors v); [by destruct v|].
      assert (id_of (heap g) a ∉ neighbors v); [|set_solver].
      rewrite (linked_neighbors _ _ a v Hwf Hv Ha).
      intros Hl'. apply Hl. eapply Exists_impl; [done|]. intros x. apply joins_sym. }
  destruct g as [h vl el]. unfold detach in *. simpl in *. f_equal; [done|].
  by apply Hf.
Qed.

Lemma first_edge_between_unlinked a b l :
  ¬ Exists (joins a b) l → first_edge_between a b l = None.
Proof.
  intros Hl. destruct (first_edge_between a b l) as [e|] eqn:E; [|done].
  apply first_edge_between_Some in E as [He Hj]. destruct Hl.
  apply Exists_exists. eauto.
Qed.

Lemma first_edge_between_snoc a b l e :
  ¬ Exists (joins a b) l → joins a b e →
  first_edge_between a b (l ++ [e]) = Some e.
Proof.
  intros Hl He. induction l as [|x l IH]; simpl; rewrite joins_guard.
  - by rewrite bool_decide_eq_true_2.
  - rewrite bool_decide_eq_false_2.
    + apply IH. intros H. apply Hl. by right.
    + intros H. apply Hl. by left.
Qed.

(** C10: when [a] and [b] name vertices that no edge joins, add_edge(a, b)
    followed by remove_edge(a, b) leaves the graph exactly as it was (vertex
    objects, adjacency sequences in their order, neighbor sets, edge
    collection); both calls return when the two ids differ. *)
Theorem add_remove_edge_restores g a b ra rb :
  reachable g →
  has_vertex g a ra → has_vertex g b rb →
  ¬ Exists (joins ra rb) (edge_list g) →
  (remove_edge a b (add_edge a b g).2).2 = g
  ∧ (a ≠ b → (add_edge a b g).1 = Ok tt
             ∧ (remove_edge a b (add_edge a b g).2).1 = Ok tt).
Proof.
  intros Hwf%reachable_wf Ha Hb Hl.
  rewrite add_edge_spec by done.
  rewrite (find_ref_has_vertex g a ra), (find_ref_has_vertex g b rb) by done.
  destruct (Z.eqb_spec a b) as [Heq|Hne]; simpl.
  - split; [|done]. rewrite remove_edge_spec by done.
    rewrite (find_ref_has_vertex g a ra), (find_ref_has_vertex g b rb) by done.
    by rewrite (first_edge_between_unlinked ra rb (edge_list g)).
  - rewrite decide_False by done. simpl.
    destruct Ha as [Ha Hida], Hb as [Hb Hidb].
    assert (ra ≠ rb) as Hab by congruence.
    set (e := mkEdge (fresh_eid g) ra rb).
    assert (wf (attach e g)) as Hwf1 by (by apply add_edge_wf).
    rewrite remove_edge_spec by done.
    rewrite !(find_ref_ext (heap g) (heap (attach e g)))
      by (intros r; apply id_of_attach).
    simpl. rewrite (find_ref_has_vertex g a ra), (find_ref_has_vertex g b rb) by done.
    rewrite first_edge_between_snoc; [|done|by left]. simpl.
    split; [|done]. by apply detach_attach.
Qed.

Lemma sample_graph_reachable : reachable sample_graph.
Proof. by exists sample_calls. Qed.

Lemma sample_graph_built : built sample_graph.
Proof. by exists sample_calls. Qed.

Lemma failed_mutation_atomic_witness :
  exec (AddEdge 1 1) sample_graph = (Raise IllegalArgumentError, sample_graph)
  ∧ add_edge 1 4 (add_edge 1 4 sample_graph).2
    = (Raise IllegalArgumentError, (add_edge 1 4 sample_graph).2)
  ∧ add_edge 4 1 (add_edge 1 4 sample_graph).2
    = (Raise IllegalArgumentError, (add_edge 1 4 sample_graph).2).
Proof.
  destruct (failed_mutation_atomic sample_graph sample_graph_reachable) as [H1 H2].
  split.
  - apply H1; [reflexivity|]. vm_compute. discriminate.
  - apply H2. vm_compute. reflexivity.
Defined.

Lemma remove_vtx_clears_witness :
  has_vertex sample_graph 2 1
  ∧ ∃ g', remove_vtx 2 sample_graph = (Ok tt, g')
      ∧ edge_list g' = filter (λ e, ¬ incident 1 e) (edge_list sample_graph)
      ∧ (∀ r', ¬ has_vertex g' 2 r').
Proof.
  assert (has_vertex sample_graph 2 1) as Hv.
  { split; [|reflexivity]. vm_compute. apply list_elem_of_In. simpl. tauto. }
  split; [done|].
  destruct (proj2 (remove_vtx_clears sample_graph 2 sample_graph_reachable) 1 Hv)
    as (g' & H1 & _ & _ & H2 & H3 & _).
  exists g'. split; [exact H1|]. split; [exact H2|exact H3].
Defined.

Lemma add_remove_edge_restores_witness :
  (remove_edge 1 4 (add_edge 1 4 sample_graph).2).2 = sample_graph
  ∧ (add_edge 1 4 sample_graph).1 = Ok tt.
Proof.
  assert (has_vertex sample_graph 1 0) as H1.
  { split; [|reflexivity]. vm_compute. apply list_elem_of_In. simpl. tauto. }
  assert (has_vertex sample_graph 4 3) as H4.
  { split; [|reflexivity]. vm_compute. apply list_elem_of_In. simpl. tauto. }
  assert (¬ Exists (joins 0 3) (edge_list sample_graph)) as Hl.
  { apply (bool_decide_eq_false_1 _). vm_compute. reflexivity. }
  destruct (add_remove_edge_restores sample_graph 1 4 0 3
              sample_graph_reachable H1 H4 Hl) as [Hr Hok].
  split; [done|]. by apply Hok.
Defined.

(** ** Graph walks *)

Lemma neighbor_of_back a e :
  incident a e → incident (neighbor_of a e) e ∧ neighbor_of (neighbor_of a e) e = a.
Proof.
  unfold incident, neighbor_of. intros Hinc.
  destruct (Nat.eqb_spec (end1 e) a) as [H1|H1].
  - split; [by right|]. destruct (Nat.eqb_spec (end1 e) (end2 e)); congruence.
  - destruct Hinc as [?|H2]; [done|]. split; [by left|]. by rewrite Nat.eqb_refl.
Qed.

Lemma adj_edge el a b :
  adj el a b ↔ ∃ e, e ∈ el ∧ incident a e ∧ neighbor_of a e = b.
Proof.
  unfold adj, nbrs. rewrite list_elem_of_fmap. split.
  - intros (e & -> & [Hinc He]%list_elem_of_filter). eauto.
  - intros (e & He & Hinc & <-). exists e. split; [done|].
    by apply list_elem_of_filter.
Qed.

Lemma adj_sym el a b : adj el a b → adj el b a.
Proof.
  rewrite !adj_edge. intros (e & He & Hinc & <-).
  destruct (neighbor_of_back a e Hinc) as [H1 H2]. eauto.
Qed.

Lemma walk_connected el a b n : walk el a b n → rtc (adj el) a b.
Proof. induction 1; [done|]. by eapply rtc_l. Qed.

Lemma connected_walk el a b : rtc (adj el) a b → ∃ n, walk el a b n.
Proof.
  induction 1 as [a|a b c Hab _ [n IH]].
  - exists 0. constructor.
  - exists (S n). by econstructor.
Qed.

Lemma walk_snoc el a b c n : walk el a b n → adj el b c → walk el a c (S n).
Proof.
  induction 1 as [a|a b' c' n Hab _ IH]; intros Hbc.
  - econstructor; [done|constructor].
  - econstructor; [done|]. by apply IH.
Qed.

Lemma walk_last el a c n :
  walk el a c (S n) → ∃ b, walk el a b n ∧ adj el b c.
Proof.
  revert a. induction n as [|n IH]; intros a Hw.
  - inversion Hw as [|? b ? ? Hab Hbc]; subst. inversion Hbc; subst.
    exists a. split; [constructor|done].
  - inversion Hw as [|? b ? ? Hab Hbc]; subst.
    destruct (IH b Hbc) as (p & Hp & Hpc). exists p. split; [|done].
    by econstructor.
Qed.

Lemma walk_zero el a b : walk el a b 0 → a = b.
Proof. by inversion 1. Qed.

(** ** One pass over the neighbours *)

Lemma scan_fresh_spec ns X :
  NoDup (scan_fresh ns X) ∧ ∀ r, r ∈ scan_fresh ns X ↔ r ∈ ns ∧ r ∉ X.
Proof.
  revert X. induction ns as [|n ns IH]; intros X; simpl.
  - split; [constructor|]. intros r. rewrite elem_of_nil. tauto.
  - case_decide as Hn.
    + destruct (IH X) as [Hnd Hin]. split; [done|]. intros r.
      rewrite Hin, elem_of_cons. split; [tauto|].
      intros [[->|?] ?]; tauto.
    + destruct (IH (X ++ [n])) as [Hnd Hin]. split.
      * constructor; [|done]. rewrite Hin, elem_of_app, list_elem_of_singleton. tauto.
      * intros r. rewrite !elem_of_cons, Hin, elem_of_app, list_elem_of_singleton.
        destruct (decide (r = n)) as [->|]; tauto.
Qed.

Lemma scan_fresh_elem ns X r : r ∈ scan_fresh ns X ↔ r ∈ ns ∧ r ∉ X.
Proof. apply scan_fresh_spec. Qed.

Lemma scan_fresh_NoDup ns X : NoDup (scan_fresh ns X).
Proof. apply scan_fresh_spec. Qed.

(** ** What is left to discover *)

Lemma unexplored_elem n X r : r ∈ unexplored n X ↔ r < n ∧ r ∉ X.
Proof.
  unfold unexplored. rewrite list_elem_of_filter, elem_of_seq. simpl.
  split; intros []; split; auto with lia.
Qed.

Lemma unexplored_app n X new :
  NoDup new → (∀ r, r ∈ new → r < n ∧ r ∉ X) →
  length (unexplored n (X ++ new)) + length new = length (unexplored n X).
Proof.
  intros Hnd Hnew. rewrite <- length_app. apply Permutation_length.
  apply NoDup_Permutation.
  - apply NoDup_app. split; [apply NoDup_filter, NoDup_seq|]. split; [|done].
    intros r [_ Hr]%unexplored_elem Hin. apply Hr. apply elem_of_app. by right.
  - apply NoDup_filter, NoDup_seq.
  - intros r. rewrite elem_of_app, !unexplored_elem, elem_of_app.
    destruct (decide (r ∈ new)) as [Hin|Hin]; [|tauto].
    destruct (Hnew r Hin). tauto.
Qed.

Lemma unexplored_snoc n X r :
  r ∉ X → r < n → length (unexplored n (X ++ [r])) < length (unexplored n X).
Proof.
  intros Hr Hn. rewrite <- (unexplored_app n X [r]); simpl; [lia| |].
  - apply NoDup_singleton.
  - by intros ? ->%list_elem_of_singleton.
Qed.

Lemma step_outside_mono el X Y a b :
  (∀ r, r ∈ X → r ∈ Y) → step_outside el Y a b → step_outside el X a b.
Proof. intros Hsub [Hab Hb]. split; [done|]. auto. Qed.

Lemma rtc_step_outside_mono el X Y a b :
  (∀ r, r ∈ X → r ∈ Y) → rtc (step_outside el Y) a b → rtc (step_outside el X) a b.
Proof.
  intros Hsub. apply rtc_subrel. intros x y. by apply step_outside_mono.
Qed.

(** ** Breadth-first search: what the loop discovers *)

Section traversal.
Context (el : list UndirectedEdge) (n : nat).
Context (Hbound : ∀ a b, adj el a b → b < n).

Lemma bfs_order_spec fuel q X :
  length q + length (unexplored n X) < fuel →
  ∃ new, bfs_order el fuel q X = Some new
    ∧ NoDup new
    ∧ (∀ r, r ∈ new → r ∉ X)
    ∧ (∀ r, r ∈ new → ∃ q0, q0 ∈ q ∧ rtc (step_outside el X) q0 r)
    ∧ (∀ r r', r ∈ q ++ new → adj el r r' → r' ∈ X ++ new).
Proof using Hbound.
  revert q X. induction fuel as [|fuel IH]; intros q X Hfuel; [lia|].
  destruct q as [|v q]; simpl.
  { exists []. split; [done|]. split; [constructor|].
    repeat split; intros r; rewrite ?elem_of_nil; try done.
    intros r' Hr. by apply elem_of_nil in Hr. }
  set (new1 := scan_fresh (nbrs el v) X).
  assert (NoDup new1) as Hnd1 by apply scan_fresh_NoDup.
  assert (∀ r, r ∈ new1 ↔ adj el v r ∧ r ∉ X) as Hin1.
  { intros r. apply scan_fresh_elem. }
  destruct (IH (q ++ new1) (X ++ new1)) as (new2 & Heq & Hnd2 & Hfresh2 & Hpath2 & Hclo2).
  { rewrite length_app. simpl in Hfuel.
    pose proof (unexplored_app n X new1 Hnd1) as Hm.
    rewrite <- Hm in Hfuel; [lia|].
    intros r [Hadj Hr]%Hin1. split; [|done]. by eapply Hbound. }
  exists (new1 ++ new2). rewrite Heq. split; [done|]. split; [|split; [|split]].
  - apply NoDup_app. split; [done|]. split; [|done].
    intros r Hr1 Hr2. apply (Hfresh2 r Hr2). apply elem_of_app. by right.
  - intros r [Hr|Hr]%elem_of_app.
    + by apply Hin1 in Hr as [_ ?].
    + intros HX. apply (Hfresh2 r Hr). apply elem_of_app. by left.
  - intros r [Hr|Hr]%elem_of_app.
    + exists v. split; [left|]. apply rtc_once. split; by apply Hin1 in Hr as [? ?].
    + destruct (Hpath2 r Hr) as (q0 & Hq0 & Hp).
      assert (rtc (step_outside el X) q0 r) as Hp'.
      { eapply rtc_step_outside_mono; [|done]. intros x Hx. apply elem_of_app. by left. }
      apply elem_of_app in Hq0 as [Hq0|Hq0].
      * exists q0. split; [by right|done].
      * exists v. split; [left|]. eapply rtc_l; [|done].
        split; by apply Hin1 in Hq0 as [? ?].
  - intros r r' Hr Hadj. rewrite app_assoc.
    apply elem_of_cons in Hr as [->|Hr].
    + destruct (decide (r' ∈ X)) as [HX|HX].
      * apply elem_of_app. left. apply elem_of_app. by left.
      * apply elem_of_app. left. apply elem_of_app. right. by apply Hin1.
    + apply (Hclo2 r r'); [|done]. rewrite <- app_assoc. done.
Qed.
End traversal.

(** ** Depth-first search: what the recursion discovers *)

Section dfs_traversal.
Context (el : list UndirectedEdge) (n : nat).
Context (Hbound : ∀ a b, adj el a b → b < n).

Lemma dfs_scan_order_spec rec fuel v :
  (∀ u Y, length (unexplored n Y) < fuel → u ∈ Y →
          ∃ new, rec u Y = Some new ∧ dfs_post el u Y new) →
  ∀ ns X,
    (∀ r, r ∈ ns → adj el v r) →
    length (unexplored n X) ≤ fuel →
    ∃ new, dfs_scan_order rec ns X = Some new
      ∧ NoDup new
      ∧ (∀ r, r ∈ new → r ∉ X)
      ∧ (∀ r, r ∈ new → rtc (step_outside el X) v r)
      ∧ (∀ r, r ∈ ns → r ∈ X ++ new)
      ∧ (∀ G, G v → closed_except el X G → closed_except el (X ++ new) G).
Proof using Hbound.
  intros Hrec ns. induction ns as [|u ns IH]; intros X Hns Hfuel; simpl.
  { exists []. split; [done|]. split; [constructor|].
    split; [by intros r ?%elem_of_nil|]. split; [by intros r ?%elem_of_nil|].
    split; [by intros r ?%elem_of_nil|]. intros G _. by rewrite app_nil_r. }
  assert (adj el v u) as Hvu by (apply Hns; left).
  assert (∀ r, r ∈ ns → adj el v r) as Hns' by (intros r Hr; apply Hns; by right).
  case_decide as Hu.
  { destruct (IH X Hns' Hfuel) as (new & Heq & Hnd & Hfresh & Hpath & Hcov & Hclo).
    exists new. do 4 (split; [done|]). split; [|done].
    intros r [->|Hr]%elem_of_cons; [|by apply Hcov].
    apply elem_of_app. by left. }
  assert (u < n) as Hun by (by eapply Hbound).
  pose proof (unexplored_snoc n X u Hu Hun) as Hm.
  destruct (Hrec u (X ++ [u])) as (new1 & Heq1 & Hnd1 & Hfresh1 & Hpath1 & Hclo1).
  { lia. }
  { apply elem_of_app. right. left. }
  rewrite Heq1.
  assert (∀ r, r ∈ new1 → r < n) as Hlt1.
  { intros r Hr. destruct (rtc_inv_r _ _ (Hpath1 r Hr)) as [<-|(y & _ & [Hy _])];
      [done|by eapply Hbound]. }
  assert (length (unexplored n (X ++ u :: new1)) ≤ fuel) as Hfuel2.
  { replace (X ++ u :: new1) with ((X ++ [u]) ++ new1) by (by rewrite <- app_assoc).
    pose proof (unexplored_app n (X ++ [u]) new1 Hnd1) as Hm1.
    rewrite <- Hm1 in Hm; [lia|]. intros r Hr. split; [by apply Hlt1|by apply Hfresh1]. }
  destruct (IH (X ++ u :: new1) Hns' Hfuel2)
    as (new2 & Heq2 & Hnd2 & Hfresh2 & Hpath2 & Hcov2 & Hclo2).
  rewrite Heq2. exists (u :: new1 ++ new2). split; [done|].
  assert (∀ r, r ∈ X ++ u :: new1 ++ new2 ↔ r ∈ (X ++ u :: new1) ++ new2) as Hmem.
  { intros r. rewrite !elem_of_app, !elem_of_cons, !elem_of_app. tauto. }
  split; [|split; [|split; [|split]]].
  - constructor.
    + intros [Hr|Hr]%elem_of_app.
      * apply (Hfresh1 u Hr). apply elem_of_app. right. left.
      * apply (Hfresh2 u Hr). apply elem_of_app. right. left.
    + apply NoDup_app. split; [done|]. split; [|done].
      intros r Hr1 Hr2. apply (Hfresh2 r Hr2).
      rewrite !elem_of_app. right. by right.
  - intros r [->|[Hr|Hr]%elem_of_app]%elem_of_cons; [done| |].
    + intros HX. apply (Hfresh1 r Hr). apply elem_of_app. by left.
    + intros HX. apply (Hfresh2 r Hr). apply elem_of_app. by left.
  - intros r [->|[Hr|Hr]%elem_of_app]%elem_of_cons.
    + by apply rtc_once.
    + eapply rtc_l; [by split|]. eapply rtc_step_outside_mono; [|by apply Hpath1].
      intros x Hx. apply elem_of_app. by left.
    + eapply rtc_step_outside_mono; [|by apply Hpath2].
      intros x Hx. apply elem_of_app. by left.
  - intros r Hr. apply Hmem. apply elem_of_cons in Hr as [->|Hr].
    + rewrite !elem_of_app. left. right. left.
    + by apply Hcov2.
  - intros G HG Hclo r r' Hr HGr Hadj. apply Hmem. apply Hmem in Hr.
    revert r r' Hr HGr Hadj. apply Hclo2; [done|].
    replace (X ++ u :: new1) with ((X ++ [u]) ++ new1) by (by rewrite <- app_assoc).
    intros r r' Hr HGr Hadj.
    apply (Hclo1 (λ x, G x ∨ x = u)) with r; [|done| |done].
    + intros x x' [Hx| ->%list_elem_of_singleton]%elem_of_app HGx Hxx'; [|tauto].
      apply elem_of_app. left. apply (Hclo x x'); tauto.
    + tauto.
Qed.

Lemma dfs_order_spec fuel v X :
  length (unexplored n X) < fuel → v ∈ X →
  ∃ new, dfs_order el fuel v X = Some new ∧ dfs_post el v X new.
Proof using Hbound.
  revert v X. induction fuel as [|fuel IH]; intros v X Hfuel Hv; [lia|].
  simpl.
  destruct (dfs_scan_order_spec (dfs_order el fuel) fuel v IH (nbrs el v) X)
    as (new & Heq & Hnd & Hfresh & Hpath & Hcov & Hclo); [done|lia|].
  exists new. split; [done|]. split; [done|]. split; [done|]. split; [done|].
  intros G HG r r' Hr HGr Hadj.
  destruct (decide (r = v)) as [->|Hne]; [by apply Hcov|].
  apply (Hclo (λ x, G x ∨ x = v)) with r; [by right| |done| |done].
  - intros x x' Hx HGx. apply HG; tauto.
  - tauto.
Qed.
End dfs_traversal.

(** ** Both traversals explore one component *)

Lemma unexplored_length n X : length (unexplored n X) ≤ n.
Proof.
  unfold unexplored. etrans; [apply length_filter|]. by rewrite length_seq.
Qed.

Lemma step_outside_adj_outside el X0 Y a r :
  (∀ x, x ∈ X0 → x ∈ Y) → a ∉ X0 →
  rtc (step_outside el Y) a r → rtc (adj_outside el X0) a r.
Proof.
  intros Hsub Ha Hp. induction Hp as [|a b c [Hab Hb] _ IH]; [done|].
  assert (b ∉ X0) as Hb0 by (intros ?; apply Hb; auto).
  eapply rtc_l; [|by apply IH]. by split.
Qed.

Lemma closed_outside_reach el X0 E a r :
  closed_outside el X0 E → a ∈ E → rtc (adj_outside el X0) a r → r ∈ E.
Proof.
  intros Hclo Ha Hp. induction Hp as [|a b c (Hab & Ha0 & Hb0) _ IH]; [done|].
  apply IH. by apply (Hclo a b).
Qed.

Section explore_component.
Context (el : list UndirectedEdge) (n : nat) (X0 : list vref).
Context (Hbound : ∀ a b, adj el a b → b < n).

Lemma explored_after v X new :
  v ∉ X → (∀ r, r ∈ X0 → r ∈ X) →
  (∀ r, r ∈ new → rtc (step_outside el (X ++ [v])) v r) →
  closed_outside el X0 (X ++ [v] ++ new) →
  ∀ r, r ∈ X ++ [v] ++ new ↔ r ∈ X ∨ rtc (adj_outside el X0) v r.
Proof.
  intros Hv Hsub Hpath Hclo r.
  assert (v ∉ X0) as Hv0 by (intros ?; apply Hv; auto).
  split.
  - rewrite !elem_of_app, list_elem_of_singleton. intros [?|[->|Hr]]; [by left| |].
    + by right.
    + right. eapply step_outside_adj_outside; [|done|by apply Hpath].
      intros x Hx. apply elem_of_app. left. by apply Hsub.
  - intros [Hr|Hr].
    + apply elem_of_app. by left.
    + eapply closed_outside_reach; [done| |done].
      rewrite !elem_of_app, list_elem_of_singleton. right. by left.
Qed.

Lemma bfs_explores fuel : n + 1 < fuel → explores el n X0 (λ v X, bfs_order el fuel [v] X).
Proof using Hbound.
  intros Hfuel v X Hv HvX Hsub Hclo.
  destruct (bfs_order_spec el n Hbound fuel [v] (X ++ [v]))
    as (new & Heq & Hnd & Hfresh & Hpath & Hclo').
  { pose proof (unexplored_length n (X ++ [v])). simpl. lia. }
  exists new. split; [done|].
  assert (closed_outside el X0 (X ++ [v] ++ new)) as HcloE.
  { intros r r' Hr Hr0 Hadj. rewrite app_assoc.
    apply elem_of_app in Hr as [Hr|Hr].
    - apply elem_of_app. left. apply elem_of_app. left. by apply (Hclo r r').
    - by apply (Hclo' r r'). }
  split; [|done]. apply explored_after; try done.
  intros r Hr. destruct (Hpath r Hr) as (q0 & ->%list_elem_of_singleton & Hp). done.
Qed.

Lemma dfs_explores fuel : n < fuel → explores el n X0 (dfs_order el fuel).
Proof using Hbound.
  intros Hfuel v X Hv HvX Hsub Hclo.
  destruct (dfs_order_spec el n Hbound fuel v (X ++ [v]))
    as (new & Heq & Hnd & Hfresh & Hpath & Hclo').
  { pose proof (unexplored_snoc n X v HvX Hv). pose proof (unexplored_length n X). lia. }
  { apply elem_of_app. right. left. }
  exists new. split; [done|].
  assert (closed_outside el X0 (X ++ [v] ++ new)) as HcloE.
  { intros r r' Hr Hr0 Hadj. rewrite app_assoc.
    apply (Hclo' (λ x, x ∈ X0 ∨ x = v)) with r.
    - intros x x' [Hx| ->%list_elem_of_singleton]%elem_of_app HG Hxx'; [|tauto].
      apply elem_of_app. left. apply (Hclo x x'); tauto.
    - by rewrite <- app_assoc.
    - tauto.
    - done. }
  split; [|done]. by apply explored_after.
Qed.
End explore_component.

(** ** Counting components *)

Lemma prod_map_plus_0 (o : option (nat * list vref)) :
  prod_map (plus 0) id <$> o = o.
Proof. by destruct o as [[]|]. Qed.

Section counting.
Context (el : list UndirectedEdge) (n : nat) (X0 : list vref).

Lemma closed_outside_members X X' :
  same_members X X' → closed_outside el X0 X → closed_outside el X0 X'.
Proof. intros Hs Hclo r r' Hr Hr0 Hadj. apply Hs. apply (Hclo r r'); [by apply Hs|done..]. Qed.

(** One round of the loop: the explored vertices afterwards, and what the
    round adds to the count. *)
Lemma count_order_cons explore v l X :
  explores el n X0 explore →
  v < n → (∀ r, r ∈ X0 → r ∈ X) → closed_outside el X0 X →
  ∃ E, (∀ r, r ∈ E ↔ r ∈ X ∨ rtc (adj_outside el X0) v r)
    ∧ closed_outside el X0 E
    ∧ count_order explore (v :: l) X
      = prod_map (plus (if decide (v ∈ X) then 0 else 1)) id <$> count_order explore l E.
Proof.
  intros Hex Hv Hsub Hclo. simpl. case_decide as HvX.
  - exists X. split; [|split; [done|by rewrite prod_map_plus_0]].
    intros r. split; [by left|]. intros [?|Hp]; [done|].
    by eapply closed_outside_reach.
  - destruct (Hex v X Hv HvX Hsub Hclo) as (new & -> & HE & HcE).
    exists (X ++ [v] ++ new). split; [done|]. split; [done|].
    by destruct (count_order explore l _) as [[]|].
Qed.

Lemma count_order_agree explore1 explore2 l :
  explores el n X0 explore1 → explores el n X0 explore2 →
  Forall (λ v, v < n) l →
  ∀ X X', (∀ r, r ∈ X0 → r ∈ X) → closed_outside el X0 X → same_members X X' →
    ∃ k Y Y', count_order explore1 l X = Some (k, Y)
      ∧ count_order explore2 l X' = Some (k, Y')
      ∧ same_members Y Y'
      ∧ (∀ r, r ∈ X0 → r ∈ Y) ∧ closed_outside el X0 Y.
Proof.
  intros Hex1 Hex2. induction 1 as [|v l Hv Hl IH]; intros X X' Hsub Hclo Hs.
  { exists 0, X, X'. by repeat split; try apply Hs. }
  assert (∀ r, r ∈ X0 → r ∈ X') as Hsub' by (intros r Hr; apply Hs; auto).
  pose proof (closed_outside_members X X' Hs Hclo) as Hclo'.
  destruct (count_order_cons explore1 v l X Hex1 Hv Hsub Hclo) as (E & HE & HcE & ->).
  destruct (count_order_cons explore2 v l X' Hex2 Hv Hsub' Hclo') as (E' & HE' & HcE' & ->).
  destruct (IH E E') as (k & Y & Y' & -> & -> & HY & HsubY & HcY).
  { intros r Hr. apply HE. left. auto. }
  { done. }
  { intros r. rewrite HE, HE', (Hs r). done. }
  simpl. do 3 eexists. split; [done|]. split; [|done].
  do 2 f_equal. f_equal.
  destruct (Hs v). repeat case_decide; try done; exfalso; tauto.
Qed.

Lemma adj_outside_sym a b : adj_outside el X0 a b → adj_outside el X0 b a.
Proof. intros (Hab & Ha & Hb). split; [by apply adj_sym|done]. Qed.

Lemma reach_outside_sym a b :
  rtc (adj_outside el X0) a b → rtc (adj_outside el X0) b a.
Proof.
  induction 1 as [|a b c Hab _ IH]; [done|].
  eapply rtc_r; [done|]. by apply adj_outside_sym.
Qed.

Lemma count_order_perm explore l l' :
  explores el n X0 explore →
  l ≡ₚ l' → Forall (λ v, v < n) l →
  ∀ X X', (∀ r, r ∈ X0 → r ∈ X) → closed_outside el X0 X → same_members X X' →
    ∃ k Y Y', count_order explore l X = Some (k, Y)
      ∧ count_order explore l' X' = Some (k, Y')
      ∧ same_members Y Y'
      ∧ (∀ r, r ∈ X0 → r ∈ Y) ∧ closed_outside el X0 Y.
Proof.
  intros Hex. induction 1 as [|x l l' Hp IH|x y l|l l' l'' Hp1 IH1 Hp2 IH2];
    intros Hall X X' Hsub Hclo Hs.
  - by apply count_order_agree.
  - assert (∀ r, r ∈ X0 → r ∈ X') as Hsub' by (intros r Hr; apply Hs; auto).
    pose proof (closed_outside_members X X' Hs Hclo) as Hclo'.
    apply Forall_cons in Hall as [Hx Hall].
    destruct (count_order_cons explore x l X Hex Hx Hsub Hclo) as (E & HE & HcE & ->).
    destruct (count_order_cons explore x l' X' Hex Hx Hsub' Hclo')
      as (E' & HE' & HcE' & ->).
    destruct (IH Hall E E') as (k & Y & Y' & -> & -> & HY & HsubY & HcY).
    { intros r Hr. apply HE. left. auto. }
    { done. }
    { intros r. rewrite HE, HE', (Hs r). done. }
    simpl. do 3 eexists. split; [done|]. split; [|done].
    do 2 f_equal. f_equal.
    destruct (Hs x). repeat case_decide; try done; exfalso; tauto.
  - assert (∀ r, r ∈ X0 → r ∈ X') as Hsub' by (intros r Hr; apply Hs; auto).
    pose proof (closed_outside_members X X' Hs Hclo) as Hclo'.
    apply Forall_cons in Hall as [Hy Hall]. apply Forall_cons in Hall as [Hx Hall].
    destruct (count_order_cons explore y (x :: l) X Hex Hy Hsub Hclo)
      as (Ey & HEy & HcEy & ->).
    assert (∀ r, r ∈ X0 → r ∈ Ey) as HsubEy by (intros r Hr; apply HEy; auto).
    destruct (count_order_cons explore x l Ey Hex Hx HsubEy HcEy)
      as (Eyx & HEyx & HcEyx & ->).
    destruct (count_order_cons explore x (y :: l) X' Hex Hx Hsub' Hclo')
      as (Ex & HEx & HcEx & ->).
    assert (∀ r, r ∈ X0 → r ∈ Ex) as HsubEx by (intros r Hr; apply HEx; auto).
    destruct (count_order_cons explore y l Ex Hex Hy HsubEx HcEx)
      as (Exy & HExy & HcExy & ->).
    destruct (count_order_agree explore explore l Hex Hex Hall Eyx Exy)
      as (k & Y & Y' & -> & -> & HY & HsubY & HcY).
    { intros r Hr. apply HEyx. left. auto. }
    { done. }
    { intros r. rewrite HEyx, HExy, HEy, HEx, (Hs r). tauto. }
    simpl. do 3 eexists. split; [done|]. split; [|done].
    do 2 f_equal.
    assert (x ∈ X → rtc (adj_outside el X0) x y → y ∈ X) as Hinx.
    { intros ?. by eapply closed_outside_reach. }
    assert (y ∈ X → rtc (adj_outside el X0) y x → x ∈ X) as Hiny.
    { intros ?. by eapply closed_outside_reach. }
    pose proof (reach_outside_sym x y) as Hxy.
    pose proof (reach_outside_sym y x) as Hyx.
    specialize (HEy x). specialize (HEx y).
    destruct (Hs x), (Hs y).
    repeat case_decide; try lia; exfalso; tauto.
  - assert (Forall (λ v, v < n) l') as Hall' by (by rewrite <- Hp1).
    destruct (IH1 Hall X X Hsub Hclo) as (k & Y & Y1 & H1 & H1' & HY1 & HsubY & HcY);
      [done|].
    destruct (IH2 Hall' X X' Hsub Hclo Hs) as (k2 & Y2 & Y' & H2 & H2' & HY2 & _ & _).
    rewrite H1' in H2. injection H2 as <- <-.
    exists k, Y, Y'. split; [done|]. split; [done|]. split; [|done].
    intros r. by rewrite (HY1 r), (HY2 r).
Qed.
End counting.

(** ** Marking vertices *)

Lemma mark_all_nil g : mark_all [] g = g.
Proof. by destruct g. Qed.

Lemma mark_all_app X Y g : mark_all (X ++ Y) g = mark_all Y (mark_all X g).
Proof. unfold mark_all, with_heap; simpl. by rewrite foldl_app. Qed.

Lemma mark_all_cons r X g : mark_all (r :: X) g = mark_all X (mark_all [r] g).
Proof. apply (mark_all_app [r] X). Qed.

Lemma lookup_mark_all X g r :
  heap (mark_all X g) !! r
  = (if decide (r ∈ X) then with_explored true else id) <$> heap g !! r.
Proof.
  revert g. induction X as [|x X IH]; intros g.
  - rewrite mark_all_nil. by destruct (heap g !! r).
  - rewrite mark_all_cons, IH. unfold mark_all at 1; simpl.
    rewrite list_lookup_alter.
    destruct (heap g !! r) as [v|] eqn:Hv;
      repeat case_decide; subst; rewrite ?Hv; simpl; try done;
      try (exfalso; set_solver).
Qed.

Lemma same_structure_mark_all X g : same_structure g (mark_all X g).
Proof.
  repeat split. apply list_eq. intros r.
  rewrite !list_lookup_fmap, lookup_mark_all.
  destruct (heap g !! r); simpl; [|done]. by case_decide.
Qed.

Lemma length_mark_all X g : length (heap (mark_all X g)) = length (heap g).
Proof. apply same_structure_length, same_structure_mark_all. Qed.

Lemma id_of_mark_all X g r : id_of (heap (mark_all X g)) r = id_of (heap g) r.
Proof. apply same_structure_id_of, same_structure_mark_all. Qed.

Lemma wf_mark_all X g : wf g → wf (mark_all X g).
Proof. apply wf_same_structure, same_structure_mark_all. Qed.

Lemma explored_at_mark_all X g r :
  r < length (heap g) →
  explored_at (mark_all X g) r = true ↔ explored_at g r = true ∨ r ∈ X.
Proof.
  intros [v Hv]%lookup_lt_is_Some_2. unfold explored_at.
  rewrite lookup_mark_all, Hv. simpl. case_decide; simpl; naive_solver.
Qed.

Lemma tracks_mark_all g X new : tracks g X → tracks (mark_all new g) (X ++ new).
Proof.
  intros Ht r Hr. rewrite length_mark_all in Hr.
  rewrite explored_at_mark_all, elem_of_app, (Ht r) by done. done.
Qed.

Lemma set_as_explored_Ok g r :
  r < length (heap g) → set_as_explored r g = (Ok tt, mark_all [r] g).
Proof.
  intros [v Hv]%lookup_lt_is_Some_2. unfold set_as_explored.
  rewrite (bind_Ok _ _ _ _ _ (deref_Some _ _ _ Hv)). unfold store, mark_all. simpl.
  by rewrite (insert_as_alter (with_explored true) _ _ v).
Qed.

Lemma tracks_explored g X r v :
  tracks g X → heap g !! r = Some v → explored v = true ↔ r ∈ X.
Proof.
  intros Ht Hv. rewrite <- (Ht r) by (by eapply lookup_lt_Some).
  unfold explored_at. by rewrite Hv.
Qed.

(** ** [bfs] discovers what [bfs_order] says *)

Lemma bfs_scan_refines vtx es : ∀ g X queue ids,
  tracks g X →
  (∀ e, e ∈ es → neighbor_of vtx e < length (heap g)) →
  bfs_scan vtx es queue ids g =
    (Ok (queue ++ scan_fresh (neighbor_of vtx <$> es) X,
         ids ++ (id_of (heap g) <$> scan_fresh (neighbor_of vtx <$> es) X)),
     mark_all (scan_fresh (neighbor_of vtx <$> es) X) g).
Proof.
  induction es as [|e es IH]; intros g X queue ids Ht Hlt.
  { simpl. by rewrite !app_nil_r, mark_all_nil. }
  cbn [bfs_scan fmap list_fmap scan_fresh].
  assert (neighbor_of vtx e < length (heap g)) as Hn by (apply Hlt; left).
  destruct (lookup_lt_is_Some_2 _ _ Hn) as [nb Hnb].
  rewrite (bind_Ok _ _ _ _ _ (deref_Some _ _ _ Hnb)).
  pose proof (tracks_explored g X _ nb Ht Hnb) as Hex.
  destruct (explored nb) eqn:Hexp.
  - rewrite decide_True by (by apply Hex).
    apply IH; [done|]. intros e' He'. apply Hlt. by right.
  - rewrite decide_False by (rewrite <- Hex; done).
    rewrite (bind_Ok _ _ _ _ _ (set_as_explored_Ok g _ Hn)).
    rewrite (IH _ (X ++ [neighbor_of vtx e])).
    + rewrite (list_fmap_ext (id_of (heap (mark_all [neighbor_of vtx e] g)))
                 (id_of (heap g))) by (intros ???; apply id_of_mark_all).
      rewrite <- !app_assoc, <- mark_all_cons, fmap_cons.
      by rewrite (deref_id_of _ _ _ Hnb).
    + by apply tracks_mark_all.
    + intros e' He'. rewrite length_mark_all. apply Hlt. by right.
Qed.

Lemma nbrs_edges g r v :
  wf g → heap g !! r = Some v → neighbor_of r <$> edges v = nbrs (edge_list g) r.
Proof. intros Hwf Hv. unfold nbrs. by rewrite (wf_edges g Hwf r v Hv). Qed.

Lemma adj_bound g a b : wf g → adj (edge_list g) a b → b < length (heap g).
Proof.
  intros Hwf (e & He & Hinc & <-)%adj_edge. apply (wf_alloc g Hwf).
  by apply (wf_neighbor_in g Hwf a e).
Qed.

Lemma adj_in_graph g a b :
  wf g → adj (edge_list g) a b → a ∈ vtx_list g ∧ b ∈ vtx_list g.
Proof.
  intros Hwf (e & He & Hinc & <-)%adj_edge.
  destruct (wf_neighbor_in g Hwf a e He Hinc) as (? & _ & ?). done.
Qed.

Lemma bfs_loop_refines fuel : ∀ g X queue ids new,
  wf g → tracks g X →
  (∀ r, r ∈ queue → r < length (heap g)) →
  bfs_order (edge_list g) fuel queue X = Some new →
  bfs_loop fuel queue ids g =
    (Ok (ids ++ (id_of (heap g) <$> new)), mark_all new g).
Proof.
  induction fuel as [|fuel IH]; intros g X queue ids new Hwf Ht Hq; [done|].
  destruct queue as [|vtx queue]; simpl.
  { intros [= <-]. by rewrite app_nil_r, mark_all_nil. }
  destruct (bfs_order _ fuel _ _) as [new2|] eqn:Heq; [|done]. intros [= <-].
  assert (vtx < length (heap g)) as Hv by (apply Hq; left).
  destruct (lookup_lt_is_Some_2 _ _ Hv) as [v Hvv].
  rewrite (bind_Ok _ _ _ _ _ (deref_Some _ _ _ Hvv)).
  erewrite bind_Ok; cycle 1.
  { apply (bfs_scan_refines vtx (edges v) g X); [done|].
    intros e He. apply (adj_bound g vtx); [done|].
    apply adj_edge. exists e. by apply (wf_adj_elem g Hwf vtx v e Hvv) in He as [? ?]. }
  rewrite (nbrs_edges g vtx v Hwf Hvv). simpl.
  set (new1 := scan_fresh (nbrs (edge_list g) vtx) X) in *.
  rewrite (IH (mark_all new1 g) (X ++ new1) _ _ new2).
  - rewrite mark_all_app, fmap_app, app_assoc. do 3 f_equal.
    apply list_fmap_ext. intros ???. apply id_of_mark_all.
  - by apply wf_mark_all.
  - by apply tracks_mark_all.
  - intros r [Hr|Hr]%elem_of_app; rewrite length_mark_all.
    + apply Hq. by right.
    + apply scan_fresh_elem in Hr as [Hr _]. by apply (adj_bound g vtx).
  - done.
Qed.

Lemma bfs_refines g X src s new :
  wf g → tracks g X → has_vertex g src s →
  bfs_order (edge_list g) (2 + length (heap g)) [s] (X ++ [s]) = Some new →
  bfs src g = (Ok (id_of (heap g) <$> s :: new), mark_all (s :: new) g).
Proof.
  intros Hwf Ht Hs Hnew. unfold bfs.
  rewrite (bind_Ok _ _ _ _ _ (find_vtx_spec g src Hwf)).
  rewrite (find_ref_has_vertex g src s Hwf Hs). destruct Hs as [Hs Hid].
  assert (s < length (heap g)) as Hlt by (by apply Hwf).
  rewrite (bind_Ok _ _ _ _ _ (set_as_explored_Ok g s Hlt)).
  rewrite length_mark_all.
  rewrite (bfs_loop_refines _ (mark_all [s] g) (X ++ [s]) [s] [src] new).
  - rewrite (list_fmap_ext (id_of (heap (mark_all [s] g))) (id_of (heap g)))
      by (intros ???; apply id_of_mark_all).
    by rewrite <- mark_all_cons, fmap_cons, Hid.
  - by apply wf_mark_all.
  - by apply tracks_mark_all.
  - intros r ->%list_elem_of_singleton. by rewrite length_mark_all.
  - done.
Qed.

(** ** [dfs] discovers what [dfs_order] says *)

Lemma dfs_scan_refines el rec recp vtx es :
  (∀ g X r ids new, wf g → edge_list g = el → tracks g X → r < length (heap g) →
     recp r X = Some new →
     rec r ids g = (Ok (ids ++ (id_of (heap g) <$> new)), mark_all new g)) →
  ∀ g X ids new,
    wf g → edge_list g = el → tracks g X →
    (∀ e, e ∈ es → neighbor_of vtx e < length (heap g)) →
    dfs_scan_order recp (neighbor_of vtx <$> es) X = Some new →
    dfs_scan rec vtx es ids g = (Ok (ids ++ (id_of (heap g) <$> new)), mark_all new g).
Proof.
  intros Hrec. induction es as [|e es IH]; intros g X ids new Hwf Hel Ht Hlt.
  { simpl. intros [= <-]. by rewrite app_nil_r, mark_all_nil. }
  cbn [dfs_scan fmap list_fmap dfs_scan_order].
  assert (neighbor_of vtx e < length (heap g)) as Hn by (apply Hlt; left).
  assert (∀ e' : UndirectedEdge, e' ∈ es → neighbor_of vtx e' < length (heap g))
    as Hlt' by (intros e' He'; apply Hlt; by right).
  destruct (lookup_lt_is_Some_2 _ _ Hn) as [nb Hnb].
  rewrite (bind_Ok _ _ _ _ _ (deref_Some _ _ _ Hnb)).
  pose proof (tracks_explored g X _ nb Ht Hnb) as Hex.
  destruct (explored nb) eqn:Hexp.
  - rewrite decide_True by (by apply Hex). by apply IH.
  - rewrite decide_False by (rewrite <- Hex; done).
    set (u := neighbor_of vtx e) in *.
    destruct (recp u (X ++ [u])) as [new1|] eqn:H1; [|done].
    destruct (dfs_scan_order recp _ (X ++ [u] ++ new1)) as [new2|] eqn:H2; [|done].
    intros [= <-].
    rewrite (bind_Ok _ _ _ _ _ (set_as_explored_Ok g _ Hn)).
    erewrite bind_Ok; cycle 1.
    { apply (Hrec (mark_all [u] g) (X ++ [u])); try done.
      - by apply wf_mark_all.
      - by apply tracks_mark_all.
      - by rewrite length_mark_all. }
    rewrite (IH (mark_all new1 (mark_all [u] g)) (X ++ [u] ++ new1) _ new2).
    + assert (∀ Y (l : list vref),
                id_of (heap (mark_all Y g)) <$> l = id_of (heap g) <$> l) as Hext.
      { intros. apply list_fmap_ext. intros ???. apply id_of_mark_all. }
      rewrite <- !mark_all_app, !Hext, <- !app_assoc, fmap_cons, fmap_app.
      by rewrite (deref_id_of _ _ _ Hnb).
    + by do 2 apply wf_mark_all.
    + done.
    + rewrite app_assoc. by do 2 apply tracks_mark_all.
    + intros e' He'. rewrite !length_mark_all. by apply Hlt'.
    + done.
Qed.

Lemma dfs_helper_refines fuel : ∀ g X vtx ids new,
  wf g → tracks g X → vtx < length (heap g) →
  dfs_order (edge_list g) fuel vtx X = Some new →
  _dfs_helper fuel vtx ids g = (Ok (ids ++ (id_of (heap g) <$> new)), mark_all new g).
Proof.
  induction fuel as [|fuel IH]; intros g X vtx ids new Hwf Ht Hv; [done|].
  simpl. intros Hnew.
  destruct (lookup_lt_is_Some_2 _ _ Hv) as [v Hvv].
  rewrite (bind_Ok _ _ _ _ _ (deref_Some _ _ _ Hvv)).
  apply (dfs_scan_refines (edge_list g) _ (dfs_order (edge_list g) fuel) _ _) with X;
    try done.
  - intros g' X' r ids' new' Hwf' Hel' Ht' Hr Hnew'. apply (IH g' X'); try done.
    by rewrite Hel'.
  - intros e He. apply (adj_bound g vtx); [done|].
    apply adj_edge. exists e. by apply (wf_adj_elem g Hwf vtx v e Hvv) in He as [? ?].
  - by rewrite (nbrs_edges g vtx v Hwf Hvv).
Qed.

Lemma dfs_refines g X src s new :
  wf g → tracks g X → has_vertex g src s →
  dfs_order (edge_list g) (S (length (heap g))) s (X ++ [s]) = Some new →
  dfs src g = (Ok (id_of (heap g) <$> s :: new), mark_all (s :: new) g).
Proof.
  intros Hwf Ht Hs Hnew. unfold dfs.
  rewrite (bind_Ok _ _ _ _ _ (find_vtx_spec g src Hwf)).
  rewrite (find_ref_has_vertex g src s Hwf Hs). destruct Hs as [Hs Hid].
  assert (s < length (heap g)) as Hlt by (by apply Hwf).
  rewrite (bind_Ok _ _ _ _ _ (set_as_explored_Ok g s Hlt)).
  rewrite length_mark_all.
  rewrite (dfs_helper_refines _ (mark_all [s] g) (X ++ [s]) s [src] new).
  - rewrite (list_fmap_ext (id_of (heap (mark_all [s] g))) (id_of (heap g)))
      by (intros ???; apply id_of_mark_all).
    by rewrite <- mark_all_cons, fmap_cons, Hid.
  - by apply wf_mark_all.
  - by apply tracks_mark_all.
  - by rewrite length_mark_all.
  - done.
Qed.

(** ** The component counters *)

Lemma components_with_bfs_eq l : ∀ cs g,
  components_with_bfs l cs g = components_with bfs l cs g.
Proof.
  induction l as [|r l IH]; intros cs g; simpl; [done|]. unfold bind.
  destruct (deref r g) as [[v| | |] g1]; try done.
  destruct (explored v); [apply IH|].
  destruct (bfs (vtx_id v) g1) as [[c| | |] g2]; try done; apply IH.
Qed.

Lemma components_with_dfs_eq l : ∀ cs g,
  components_with_dfs l cs g = components_with dfs l cs g.
Proof.
  induction l as [|r l IH]; intros cs g; simpl; [done|]. unfold bind.
  destruct (deref r g) as [[v| | |] g1]; try done.
  destruct (explored v); [apply IH|].
  destruct (dfs (vtx_id v) g1) as [[c| | |] g2]; try done; apply IH.
Qed.

Lemma tracks_explored_list g : tracks g (explored_list g).
Proof.
  intros r Hr. unfold explored_list. rewrite list_elem_of_filter, elem_of_seq.
  split; [|tauto]. intros ?. split; [done|]. lia.
Qed.

Lemma closed_outside_start el X : closed_outside el X X.
Proof. by intros r r' Hr Hn. Qed.

Lemma components_with_refines traverse explore el n :
  (∀ g X s new,
     wf g → edge_list g = el → length (heap g) = n → tracks g X →
     s ∈ vtx_list g → explore s (X ++ [s]) = Some new →
     ∃ ids, traverse (id_of (heap g) s) g = (Ok ids, mark_all (s :: new) g)) →
  ∀ l g X cs k Y,
    wf g → edge_list g = el → length (heap g) = n → tracks g X →
    (∀ r, r ∈ l → r ∈ vtx_list g) →
    count_order explore l X = Some (k, Y) →
    ∃ cs' Z, components_with traverse l cs g = (Ok (cs ++ cs'), mark_all Z g)
      ∧ length cs' = k ∧ Y = X ++ Z.
Proof.
  intros Htr. induction l as [|vtx l IH]; intros g X cs k Y Hwf Hel Hn Ht Hl; simpl.
  { intros [= <- <-]. exists [], []. by rewrite !app_nil_r, mark_all_nil. }
  assert (vtx ∈ vtx_list g) as Hvtx by (apply Hl; left).
  destruct (wf_lookup g Hwf vtx Hvtx) as [v Hv].
  rewrite (bind_Ok _ _ _ _ _ (deref_Some _ _ _ Hv)).
  pose proof (tracks_explored g X vtx v Ht Hv) as Hex.
  destruct (explored v) eqn:Hexp.
  - rewrite decide_True by (by apply Hex).
    apply IH; try done. intros r Hr. apply Hl. by right.
  - rewrite decide_False by (rewrite <- Hex; done).
    destruct (explore vtx (X ++ [vtx])) as [new|] eqn:Hnew; [|done].
    destruct (count_order explore l _) as [[k' Y']|] eqn:Hcount; [|done].
    simpl. intros [= <- <-].
    destruct (Htr g X vtx new Hwf Hel Hn Ht Hvtx Hnew) as (ids & Hids).
    rewrite (deref_id_of _ _ _ Hv) in Hids. rewrite (bind_Ok _ _ _ _ _ Hids).
    destruct (IH (mark_all (vtx :: new) g) (X ++ [vtx] ++ new) (cs ++ [ids]) k' Y')
      as (cs' & Z & Heq & Hlen & HY); try done.
    + by apply wf_mark_all.
    + by rewrite length_mark_all.
    + by apply tracks_mark_all.
    + intros r Hr. apply Hl. by right.
    + exists (ids :: cs'), ((vtx :: new) ++ Z).
      rewrite Heq, <- mark_all_app, <- !app_assoc. simpl. rewrite Hlen, HY.
      by rewrite <- !app_assoc.
Qed.

Lemma num_bfs_refines g X k Y :
  wf g → tracks g X →
  count_order (λ v Y, bfs_order (edge_list g) (2 + length (heap g)) [v] Y)
    (vtx_list g) X = Some (k, Y) →
  ∃ Z, num_of_connected_components_with_bfs g = (Ok k, mark_all Z g) ∧ Y = X ++ Z.
Proof.
  intros Hwf Ht Hcount. unfold num_of_connected_components_with_bfs.
  destruct (components_with_refines bfs
              (λ v Y, bfs_order (edge_list g) (2 + length (heap g)) [v] Y)
              (edge_list g) (length (heap g)))
    with (l := vtx_list g) (g := g) (X := X) (cs := @nil (list Z)) (k := k) (Y := Y)
    as (cs' & Z & Heq & Hlen & HY); try done.
  - intros g' X' s new Hwf' Hel Hn Ht' Hs Hnew. eexists.
    apply (bfs_refines g' X'); try done. by rewrite Hel, Hn.
  - exists Z. split; [|done].
    erewrite bind_Ok; [|by rewrite components_with_bfs_eq].
    unfold ret. simpl. by rewrite Hlen.
Qed.

Lemma num_dfs_refines g X k Y :
  wf g → tracks g X →
  count_order (dfs_order (edge_list g) (S (length (heap g)))) (vtx_list g) X
    = Some (k, Y) →
  ∃ Z, num_of_connected_components_with_dfs g = (Ok k, mark_all Z g) ∧ Y = X ++ Z.
Proof.
  intros Hwf Ht Hcount. unfold num_of_connected_components_with_dfs.
  destruct (components_with_refines dfs
              (dfs_order (edge_list g) (S (length (heap g))))
              (edge_list g) (length (heap g)))
    with (l := vtx_list g) (g := g) (X := X) (cs := @nil (list Z)) (k := k) (Y := Y)
    as (cs' & Z & Heq & Hlen & HY); try done.
  - intros g' X' s new Hwf' Hel Hn Ht' Hs Hnew. eexists.
    apply (dfs_refines g' X'); try done. by rewrite Hel, Hn.
  - exists Z. split; [|done].
    erewrite bind_Ok; [|by rewrite components_with_dfs_eq].
    unfold ret. simpl. by rewrite Hlen.
Qed.

Lemma wf_vtx_bound g : wf g → Forall (λ v, v < length (heap g)) (vtx_list g).
Proof. intros Hwf. apply Forall_forall. apply Hwf. Qed.

(** C1: on every graph built through the public operations, whatever marks
    it carries, the DFS counter and the BFS counter both return, and return
    the same number. *)
Theorem dfs_count_agrees_with_bfs g :
  reachable g →
  ∃ k, (num_of_connected_components_with_bfs g).1 = Ok k
     ∧ (num_of_connected_components_with_dfs g).1 = Ok k.
Proof.
  intros Hwf%reachable_wf.
  set (n := length (heap g)). set (X := explored_list g).
  assert (∀ a b, adj (edge_list g) a b → b < n) as Hbound.
  { intros a b. by apply adj_bound. }
  destruct (count_order_agree (edge_list g) n X
              (λ v Y, bfs_order (edge_list g) (2 + n) [v] Y)
              (dfs_order (edge_list g) (S n)) (vtx_list g))
    with (X := X) (X' := X) as (k & Y & Y' & Hb & Hd & _); try done.
  - apply bfs_explores; [done|lia].
  - apply dfs_explores; [done|lia].
  - by apply wf_vtx_bound.
  - apply closed_outside_start.
  - exists k.
    destruct (num_bfs_refines g X k Y Hwf (tracks_explored_list g) Hb) as (Z & -> & _).
    destruct (num_dfs_refines g X k Y' Hwf (tracks_explored_list g) Hd) as (Z' & -> & _).
    done.
Qed.

Lemma dfs_count_agrees_with_bfs_witness :
  (num_of_connected_components_with_bfs sample_graph).1 = Ok 2
  ∧ (num_of_connected_components_with_dfs sample_graph).1 = Ok 2.
Proof.
  destruct (dfs_count_agrees_with_bfs sample_graph sample_graph_reachable)
    as (k & Hb & Hd).
  rewrite Hd. rewrite <- Hb. split; vm_compute; reflexivity.
Defined.

Lemma wf_permute g l :
  wf g → l ≡ₚ vtx_list g → wf (with_vtx_list l g).
Proof.
  intros Hwf Hp. split; simpl.
  - intros r Hr. rewrite Hp in Hr. by apply Hwf.
  - rewrite Hp. apply Hwf.
  - intros r1 r2. rewrite !Hp. apply Hwf.
  - intros e He. rewrite !Hp. by apply Hwf.
  - apply Hwf.
  - apply Hwf.
  - apply Hwf.
  - apply Hwf.
Qed.

(** C9: the BFS counter returns the same number whatever the order of the
    vertex list. *)
Theorem bfs_count_order_independent g l :
  reachable g → l ≡ₚ vtx_list g →
  ∃ k, (num_of_connected_components_with_bfs g).1 = Ok k
     ∧ (num_of_connected_components_with_bfs (with_vtx_list l g)).1 = Ok k.
Proof.
  intros Hwf%reachable_wf Hp.
  set (n := length (heap g)). set (X := explored_list g).
  assert (∀ a b, adj (edge_list g) a b → b < n) as Hbound.
  { intros a b. by apply adj_bound. }
  destruct (count_order_perm (edge_list g) n X
              (λ v Y, bfs_order (edge_list g) (2 + n) [v] Y) (vtx_list g) l)
    with (X := X) (X' := X) as (k & Y & Y' & Hb & Hb' & _); try done.
  - apply bfs_explores; [done|lia].
  - by apply wf_vtx_bound.
  - apply closed_outside_start.
  - exists k.
    destruct (num_bfs_refines g X k Y Hwf (tracks_explored_list g) Hb) as (Z & -> & _).
    destruct (num_bfs_refines (with_vtx_list l g) X k Y') as (Z' & -> & _);
      [by apply wf_permute|exact (tracks_explored_list g)|done|done].
Qed.

Lemma bfs_count_order_independent_witness :
  (num_of_connected_components_with_bfs sample_graph).1 = Ok 2
  ∧ (num_of_connected_components_with_bfs
       (with_vtx_list [3; 0; 1; 2] sample_graph)).1 = Ok 2.
Proof.
  assert ([3; 0; 1; 2] ≡ₚ vtx_list sample_graph) as Hp.
  { vm_compute. apply (Permutation_cons_append [0;1;2] 3). }
  destruct (bfs_count_order_independent sample_graph [3; 0; 1; 2]
              sample_graph_reachable Hp) as (k & Hb & Hb').
  rewrite Hb'. rewrite <- Hb. split; vm_compute; reflexivity.
Defined.

(** ** Breadth-first order *)

Section bfs_layers.
Context (el : list UndirectedEdge) (s : vref).

Lemma dist_unique r k k' : dist el s r k → dist el s r k' → k = k'.
Proof. intros [Hw Hmin] [Hw' Hmin']. apply Hmin in Hw'. apply Hmin' in Hw. lia. Qed.

Lemma dist_closer a b ka kb :
  dist el s a ka → dist el s b kb → ka ≤ kb → closer el s a b.
Proof.
  intros [Hwa _] [_ Hminb] Hle k Hk. exists ka. split; [|done].
  apply Hminb in Hk. lia.
Qed.

Lemma closer_dist a b ka kb :
  closer el s a b → dist el s a ka → dist el s b kb → ka ≤ kb.
Proof.
  intros Hc [_ Hmina] [Hwb _]. destruct (Hc kb Hwb) as (m & Hm & Hw).
  apply Hmina in Hw. lia.
Qed.

Lemma same_dist_sorted l k :
  (∀ r, r ∈ l → dist el s r k) → StronglySorted (closer el s) l.
Proof.
  induction l as [|x l IH]; intros Hl; [constructor|].
  apply StronglySorted_cons. split.
  - apply Forall_forall. intros y Hy.
    apply (dist_closer x y k k); [apply Hl; left|apply Hl; by right|done].
  - apply IH. intros r Hr. apply Hl. by right.
Qed.

Lemma bfs_inv_init : bfs_inv el s [] [s].
Proof.
  assert (dist el s s 0) as H0 by (split; [constructor|lia]).
  split; [|split; [|split]]; simpl.
  - intros r ->%list_elem_of_singleton. by exists 0.
  - apply StronglySorted_cons. split; constructor.
  - by intros r r' ?%elem_of_nil.
  - intros v kv [= <-] Hkv. rewrite (dist_unique _ _ _ Hkv H0). split.
    + intros r kr ->%list_elem_of_singleton Hkr. rewrite (dist_unique _ _ _ Hkr H0). lia.
    + intros r k Hw Hk. assert (k = 0) as -> by lia.
      apply walk_zero in Hw as <-. left.
Qed.

Lemma bfs_inv_step out v q :
  bfs_inv el s out (v :: q) →
  bfs_inv el s (out ++ [v]) (q ++ scan_fresh (nbrs el v) (out ++ v :: q)).
Proof.
  set (X := out ++ v :: q). set (new1 := scan_fresh (nbrs el v) X).
  intros (Ha & Hb & Hd & He).
  assert (v ∈ X) as HvX by (apply elem_of_app; right; left).
  destruct (Ha v HvX) as [kv Hkv].
  destruct (He v kv eq_refl Hkv) as [Hc Hcomplete].
  assert (∀ r, r ∈ new1 → dist el s r (S kv)) as Hnew.
  { intros r [Hadj Hr]%scan_fresh_elem. split.
    - eapply walk_snoc; [apply Hkv|done].
    - intros m Hm. destruct (le_lt_dec m kv) as [Hle|Hlt]; [|lia].
      destruct Hr. by apply (Hcomplete r m). }
  assert (∀ r kr, r ∈ X ++ new1 → dist el s r kr → kr ≤ S kv) as Hc'.
  { intros r kr [Hr|Hr]%elem_of_app Hkr; [by apply (Hc r)|].
    by rewrite (dist_unique _ _ _ Hkr (Hnew r Hr)). }
  assert (∀ r', adj el v r' → r' ∈ X ++ new1) as Hdv.
  { intros r' Hadj. apply elem_of_app.
    destruct (decide (r' ∈ X)); [by left|right]. by apply scan_fresh_elem. }
  assert ((out ++ [v]) ++ q ++ new1 = X ++ new1) as HX'.
  { unfold X. by rewrite <- !app_assoc. }
  assert (StronglySorted (closer el s) (X ++ new1)) as Hb'.
  { apply StronglySorted_app. split; [|split; [done|by apply (same_dist_sorted _ (S kv))]].
    intros x1 x2 H1 H2. destruct (Ha x1 H1) as [k1 Hk1].
    apply (dist_closer x1 x2 k1 (S kv)); [done|by apply Hnew|by apply (Hc x1)]. }
  unfold bfs_inv. rewrite HX'. split; [|split; [done|split]].
  - intros r [Hr|Hr]%elem_of_app; [by apply Ha|]. exists (S kv). by apply Hnew.
  - intros r r' [Hr| ->%list_elem_of_singleton]%elem_of_app Hadj; [|by apply Hdv].
    apply elem_of_app. left. by apply (Hd r r').
  - intros v' kv' Hhead Hkv'.
    assert (v' ∈ q ++ new1) as Hv'.
    { destruct (q ++ new1); [done|]. injection Hhead as ->. left. }
    assert (kv ≤ kv') as Hle.
    { apply (closer_dist v v'); [|done..].
      unfold X in Hb'. rewrite <- app_assoc in Hb'.
      apply StronglySorted_app_1_r, StronglySorted_cons in Hb' as [Hall _].
      rewrite Forall_forall in Hall. by apply Hall. }
    assert (kv' ≤ S kv) as Hle'.
    { apply (Hc' v'); [|done]. rewrite <- HX'. apply elem_of_app. by right. }
    split.
    + intros r kr Hr Hkr. specialize (Hc' r kr Hr Hkr). lia.
    + intros r k Hw Hk. destruct (le_lt_dec k kv) as [Hk'|Hk'].
      { apply elem_of_app. left. by apply (Hcomplete r k). }
      assert (k = S kv) as -> by lia. assert (kv' = S kv) as -> by lia.
      destruct (walk_last el s r kv Hw) as (p & Hp & Hpr).
      assert (p ∈ X) as HpX by (by apply (Hcomplete p kv)).
      destruct (Ha p HpX) as [kp Hkp].
      assert (kp ≤ kv) as Hkpv by (by apply Hkp).
      apply elem_of_app in HpX as [HpX|[->|HpX]%elem_of_cons].
      * apply elem_of_app. left. by apply (Hd p r).
      * by apply Hdv.
      * exfalso. destruct q as [|v'' q'']; [by apply elem_of_nil in HpX|].
        simpl in Hhead. injection Hhead as ->.
        assert (closer el s v' p) as Hcl.
        { rewrite <- HX' in Hb'. simpl in Hb'.
          apply StronglySorted_app_1_r, StronglySorted_cons in Hb' as [Hall _].
          rewrite Forall_forall in Hall.
          apply elem_of_cons in HpX as [->|HpX].
          - by apply (dist_closer v' v' (S kv) (S kv)).
          - apply Hall. apply elem_of_app. by left. }
        pose proof (closer_dist v' p (S kv) kp Hcl Hkv' Hkp). lia.
Qed.

Lemma bfs_order_layered fuel : ∀ out q new,
  bfs_inv el s out q →
  bfs_order el fuel q (out ++ q) = Some new →
  bfs_inv el s (out ++ q ++ new) [].
Proof.
  induction fuel as [|fuel IH]; intros out q new Hinv; [done|].
  destruct q as [|v q]; simpl.
  { intros [= <-]. by rewrite !app_nil_r in *. }
  set (new1 := scan_fresh (nbrs el v) (out ++ v :: q)).
  destruct (bfs_order el fuel _ _) as [new2|] eqn:Heq; [|done].
  simpl. intros [= <-].
  replace (out ++ v :: q ++ new1 ++ new2)
    with ((out ++ [v]) ++ (q ++ new1) ++ new2) by (by rewrite <- !app_assoc).
  apply IH; [by apply bfs_inv_step|].
  replace ((out ++ [v]) ++ q ++ new1) with ((out ++ v :: q) ++ new1)
    by (by rewrite <- !app_assoc).
  done.
Qed.
End bfs_layers.

(** ** [bfs] on a graph without marks *)

Lemma explored_list_clean g r : clean g → r ∈ explored_list g → r ∉ vtx_list g.
Proof.
  intros Hclean [Hr _]%list_elem_of_filter Hin. unfold explored_at in Hr.
  destruct (heap g !! r) as [v|] eqn:Hv; [|done]. simpl in Hr.
  by rewrite (Hclean r v Hin Hv) in Hr.
Qed.

(** The scan only asks whether the neighbours are explored. *)
Lemma scan_fresh_members ns X X' :
  (∀ r, r ∈ ns → r ∈ X ↔ r ∈ X') → scan_fresh ns X = scan_fresh ns X'.
Proof.
  revert X X'. induction ns as [|u ns IH]; intros X X' Hs; simpl; [done|].
  assert (u ∈ X ↔ u ∈ X') as Hu by (apply Hs; left).
  repeat case_decide; try tauto.
  - apply IH. intros r Hr. apply Hs. by right.
  - f_equal. apply IH. intros r Hr. rewrite !elem_of_app. rewrite (Hs r) by (by right).
    done.
Qed.

Lemma bfs_order_members el fuel : ∀ q X X',
  (∀ a r, adj el a r → r ∈ X ↔ r ∈ X') →
  bfs_order el fuel q X = bfs_order el fuel q X'.
Proof.
  induction fuel as [|fuel IH]; intros q X X' Hs; [done|].
  destruct q as [|v q]; simpl; [done|].
  rewrite (scan_fresh_members (nbrs el v) X X') by (intros r Hr; by apply (Hs v)).
  f_equal. apply IH. intros a r Hadj. rewrite !elem_of_app, (Hs a r Hadj). done.
Qed.

Lemma connected_in_graph g a b :
  wf g → a ∈ vtx_list g → connected g a b → b ∈ vtx_list g.
Proof.
  intros Hwf Ha Hp. induction Hp as [|a b c Hab _ IH]; [done|].
  apply IH. by apply (adj_in_graph g a b).
Qed.

Lemma closed_reach el (E : list vref) a b :
  (∀ r r', r ∈ E → adj el r r' → r' ∈ E) → a ∈ E → rtc (adj el) a b → b ∈ E.
Proof.
  intros Hclo Ha Hp. induction Hp as [|a b c Hab _ IH]; [done|].
  apply IH. by apply (Hclo a b).
Qed.

(** C5: on a graph without marks, bfs(source) returns the ids of the vertex
    objects [found]: the source comes first, no id comes twice, [found] is
    exactly the connected component of the source, every vertex of [found]
    is at most as far from the source as the ones after it, and all of them
    are marked explored. *)
Theorem bfs_returns_component g src s :
  reachable g → clean g → has_vertex g src s →
  ∃ found, bfs src g = (Ok (id_of (heap g) <$> found), mark_all found g)
    ∧ head found = Some s
    ∧ NoDup (id_of (heap g) <$> found)
    ∧ (∀ r, r ∈ found ↔ connected g s r)
    ∧ (∀ r, r ∈ found → r ∈ vtx_list g)
    ∧ StronglySorted (closer (edge_list g) s) found.
Proof.
  intros Hwf%reachable_wf Hclean Hs.
  set (n := length (heap g)). set (el := edge_list g).
  assert (∀ a b, adj el a b → b < n) as Hbound.
  { intros a b. by apply adj_bound. }
  destruct (bfs_order_spec el n Hbound (2 + n) [s] [s])
    as (new & Heq & Hnd & Hfresh & _ & _).
  { pose proof (unexplored_length n [s]). simpl. lia. }
  pose proof (bfs_order_layered el s (2 + n) [] [s] new (bfs_inv_init el s) Heq)
    as (Ha & Hb & Hd & _).
  simpl in Ha, Hb, Hd. rewrite app_nil_r in Ha, Hb, Hd.
  assert (∀ r, r ∈ s :: new → connected g s r) as Hconn.
  { intros r Hr. destruct (Ha r Hr) as (k & Hw & _). by eapply walk_connected. }
  assert (∀ r, r ∈ s :: new → r ∈ vtx_list g) as Hin.
  { intros r Hr. apply (connected_in_graph g s r Hwf); [apply Hs|by apply Hconn]. }
  exists (s :: new). split; [|split; [done|split; [|split; [|split; [done|done]]]]].
  - apply (bfs_refines g (explored_list g) src s new Hwf (tracks_explored_list g) Hs).
    rewrite <- Heq. apply bfs_order_members. intros a r Hadj.
    rewrite elem_of_app. split; [|by right]. intros [Hr|Hr]; [|done].
    destruct (explored_list_clean g r Hclean Hr). by apply (adj_in_graph g a r).
  - apply NoDup_fmap_2_strong.
    + intros x y Hx Hy. apply (wf_ids g Hwf); by apply Hin.
    + constructor; [|done]. intros Hsn. apply (Hfresh s Hsn). left.
  - intros r. split; [by apply Hconn|].
    intros Hp. apply (closed_reach el (s :: new) s r); [done|left|done].
Qed.

Lemma sample_graph_clean : clean sample_graph.
Proof.
  intros r v _. vm_compute heap.
  destruct r as [|[|[|[|r]]]]; simpl; intros [= <-]; done.
Qed.

Lemma bfs_returns_component_witness :
  ∃ found, bfs 1 sample_graph
           = (Ok (id_of (heap sample_graph) <$> found), mark_all found sample_graph)
    ∧ head found = Some 0
    ∧ StronglySorted (closer (edge_list sample_graph) 0) found.
Proof.
  assert (has_vertex sample_graph 1 0) as H1.
  { split; [|reflexivity]. vm_compute. apply list_elem_of_In. simpl. tauto. }
  destruct (bfs_returns_component sample_graph 1 0
              sample_graph_reachable sample_graph_clean H1)
    as (found & Hb & Hh & _ & _ & _ & Hsorted).
  exists found. split; [exact Hb|]. split; [exact Hh|exact Hsorted].
Defined.

(** ** Marks outlive the call that set them *)






(** ** [shortest_path] *)

(** C3: the code returns -1 for the distance from a vertex to itself: the
    source is marked before the loop, so it is never discovered. *)
Theorem shortest_path_to_self :
  (shortest_path 1 1 sample_graph).1 = Ok (-1)%Z.
Proof. vm_compute. reflexivity. Qed.

(** C4: with an existing source and a missing destination the code does not
    raise: its guard only tests the source, and the search runs to the end. *)
Theorem shortest_path_missing_destination :
  (shortest_path 1 7 sample_graph).1 = Ok (-1)%Z.
Proof. vm_compute. reflexivity. Qed.

(** That defect does not depend on the graph: whenever shortest_path(v, v)
    returns, it returns -1. *)

Lemma find_vtx_in_state l id g : (find_vtx_in l id g).2 = g.
Proof.
  induction l as [|r l IH]; simpl; [done|]. unfold bind, deref.
  destruct (heap g !! r) as [v|]; [|done]. by destruct (vtx_id v =? id)%Z.
Qed.

Lemma explored_at_insert g r v src :
  heap g !! r = Some v →
  explored_at g src = true →
  explored_at (with_heap (<[r := with_explored true v]> (heap g)) g) src = true.
Proof.
  intros Hv Hsrc. unfold explored_at in *. simpl.
  destruct (decide (r = src)) as [->|Hne].
  - rewrite list_lookup_insert_eq; [done|]. by eapply lookup_lt_Some.
  - by rewrite list_lookup_insert_ne.
Qed.

Lemma explored_at_set_layer g r v z src :
  heap g !! r = Some v →
  explored_at (with_heap (<[r := with_layer z v]> (heap g)) g) src = explored_at g src.
Proof.
  intros Hv. unfold explored_at. simpl.
  destruct (decide (r = src)) as [->|Hne].
  - rewrite list_lookup_insert_eq by (by eapply lookup_lt_Some). by rewrite Hv.
  - by rewrite list_lookup_insert_ne.
Qed.

Lemma shortest_path_scan_self vtx src es : ∀ queue g,
  explored_at g src = true →
  match shortest_path_scan vtx (Some src) es queue g with
  | (Ok (inl _), _) => False
  | (Ok (inr _), g') => explored_at g' src = true
  | _ => True
  end.
Proof.
  induction es as [|e es IH]; intros queue g Hsrc; simpl; [done|].
  set (n := neighbor_of vtx e).
  unfold bind at 1. unfold deref at 1.
  destruct (heap g !! n) as [nb|] eqn:Hnb; [|done].
  destruct (explored nb) eqn:Hexp; [by apply IH|].
  assert (n ≠ src) as Hne.
  { intros ->. unfold explored_at in Hsrc. rewrite Hnb in Hsrc. simpl in Hsrc. congruence. }
  unfold bind at 1. unfold set_as_explored, bind at 1. unfold deref at 1.
  rewrite Hnb. unfold store at 1.
  set (g1 := with_heap _ g).
  assert (explored_at g1 src = true) as Hsrc1 by (by apply explored_at_insert).
  unfold bind at 1. unfold deref at 1.
  destruct (heap g1 !! vtx) as [v|] eqn:Hv; [|done].
  unfold bind at 1. unfold set_layer, bind at 1. unfold deref at 1.
  destruct (heap g1 !! n) as [nb1|] eqn:Hnb1; [|done].
  unfold store at 1.
  set (g2 := with_heap _ g1).
  assert (explored_at g2 src = true) as Hsrc2.
  { unfold g2. by rewrite (explored_at_set_layer g1 n nb1). }
  rewrite decide_False by congruence. by apply IH.
Qed.

Lemma shortest_path_loop_self fuel src : ∀ queue g z,
  explored_at g src = true →
  (shortest_path_loop fuel (Some src) queue g).1 = Ok z → z = (-1)%Z.
Proof.
  induction fuel as [|fuel IH]; intros queue g z Hsrc; simpl; [done|].
  destruct queue as [|vtx queue]; [by intros [= <-]|].
  unfold bind at 1. unfold deref at 1.
  destruct (heap g !! vtx) as [v|]; [|done].
  unfold bind at 1.
  pose proof (shortest_path_scan_self vtx src (edges v) queue g Hsrc) as Hscan.
  destruct (shortest_path_scan vtx (Some src) (edges v) queue g)
    as [[[hops|queue']| | |] g']; try done.
  by apply IH.
Qed.

Lemma shortest_path_self_always g v z :
  (shortest_path v v g).1 = Ok z → z = (-1)%Z.
Proof.
  unfold shortest_path. unfold bind at 1.
  pose proof (find_vtx_in_state (vtx_list g) v g) as Hst. unfold _find_vtx at 1.
  destruct (find_vtx_in (vtx_list g) v g) as [[src| | |] g0] eqn:Hfind; try done.
  simpl in Hst. subst g0.
  unfold bind at 1. unfold _find_vtx at 1. rewrite Hfind.
  destruct src as [src|]; [|done].
  unfold bind at 1. unfold set_as_explored, bind at 1. unfold deref at 1.
  destruct (heap g !! src) as [sv|] eqn:Hsv; [|done].
  unfold store at 1. apply shortest_path_loop_self.
  unfold explored_at. simpl.
  rewrite list_lookup_insert_eq; [done|]. by eapply lookup_lt_Some.
Qed.

(** * Further properties of the code *)

(** ** Vertices and their ids *)

(** X1: after any sequence of calls from the empty graph the vertex list
    holds no vertex object twice, every vertex of the list is a live object,
    and no two vertices of the list carry the same id. *)
Theorem vertex_ids_unique (cs : list call) :
  let g := run cs empty_graph in
  NoDup (vtx_list g)
  ∧ (∀ r, r ∈ vtx_list g → is_Some (heap g !! r))
  ∧ NoDup (id_of (heap g) <$> vtx_list g).
Proof.
  intros g. assert (wf g) as Hwf by (apply reachable_wf; by exists cs).
  split; [apply Hwf|]. split.
  - intros r Hr. by apply wf_lookup.
  - apply NoDup_fmap_2_strong; [|apply Hwf].
    intros x y Hx Hy. by apply Hwf.
Qed.

(** X2: [_find_vtx] never raises and never changes the graph; it returns
    the vertex of the graph that carries the id, and [None] exactly when no
    vertex of the graph carries it. *)
Theorem find_vtx_finds g id :
  reachable g →
  ∃ found, _find_vtx id g = (Ok found, g)
    ∧ (∀ r, found = Some r ↔ has_vertex g id r).
Proof.
  intros Hwf%reachable_wf. exists (find_ref (heap g) (vtx_list g) id).
  split; [by apply find_vtx_spec|].
  intros r. split.
  - by intros H%find_ref_Some.
  - by apply find_ref_has_vertex.
Qed.

Lemma find_vtx_finds_witness :
  ∃ found, _find_vtx 3 sample_graph = (Ok found, sample_graph)
    ∧ (∀ r, found = Some r ↔ has_vertex sample_graph 3 r).
Proof. exact (find_vtx_finds sample_graph 3 sample_graph_reachable). Defined.

Lemma id_of_app_l h h' r : r < length h → id_of (h ++ h') r = id_of h r.
Proof. intros Hr. unfold id_of. by rewrite lookup_app_l. Qed.

(** X3: add_vtx(id) returns exactly when no vertex of the graph carries
    [id].  It then leaves the edge list and every vertex object as they were
    and appends one new vertex, without edges or neighbors, at the end of
    the vertex list: afterwards [id] names the new vertex, and every other
    id names what it named before. *)
Theorem add_vtx_then_find g id :
  reachable g →
  ((add_vtx id g).1 = Ok tt ↔ ∀ r, ¬ has_vertex g id r)
  ∧ ((add_vtx id g).1 = Ok tt →
       let g' := (add_vtx id g).2 in
       let new := length (heap g) in
       vtx_list g' = vtx_list g ++ [new]
       ∧ edge_list g' = edge_list g
       ∧ (∀ r v, heap g !! r = Some v → heap g' !! r = Some v)
       ∧ (∃ v, heap g' !! new = Some v
             ∧ vtx_id v = id ∧ edges v = [] ∧ neighbors v = ∅)
       ∧ (∀ id' r, has_vertex g' id' r ↔
                   has_vertex g id' r ∨ (id' = id ∧ r = new))).
Proof.
  intros Hwf%reachable_wf. rewrite add_vtx_spec by done.
  destruct (find_ref _ _ _) as [r0|] eqn:E; simpl.
  - split; [|done]. split; [done|].
    intros Hno. apply find_ref_Some in E. by destruct (Hno r0).
  - split.
    { split; [|done]. intros _ r Hr.
      rewrite (find_ref_has_vertex g id r) in E by done. done. }
    intros _. split; [done|]. split; [done|]. split; [|split].
    + intros r v Hv. by apply lookup_app_l_Some.
    + exists (new_Vertex id). split; [|done]. by apply list_lookup_middle.
    + intros id' r. unfold has_vertex; simpl. rewrite elem_of_app, list_elem_of_singleton.
      split.
      * intros [[Hr| ->] Hid].
        -- left. split; [done|].
           rewrite id_of_app_l in Hid; [done|]. by apply Hwf.
        -- right. split; [|done]. rewrite <- Hid. unfold id_of.
           by rewrite list_lookup_middle.
      * intros [[Hr Hid]|[-> ->]].
        -- split; [by left|]. rewrite id_of_app_l; [done|]. by apply Hwf.
        -- split; [by right|]. unfold id_of. by rewrite list_lookup_middle.
Qed.

Lemma add_vtx_then_find_witness :
  (add_vtx 5 sample_graph).1 = Ok tt
  ∧ has_vertex (add_vtx 5 sample_graph).2 5 4.
Proof.
  destruct (add_vtx_then_find sample_graph 5 sample_graph_reachable) as [_ H].
  assert ((add_vtx 5 sample_graph).1 = Ok tt) as Hok by (vm_compute; reflexivity).
  split; [done|].
  destruct (H Hok) as (_ & _ & _ & _ & Hfind). apply Hfind. right.
  split; vm_compute; reflexivity.
Defined.

(** ** Adding and removing an edge *)

Lemma has_vertex_lookup g id r :
  wf g → has_vertex g id r → ∃ v, heap g !! r = Some v ∧ vtx_id v = id.
Proof.
  intros Hwf [Hr Hid]. destruct (wf_lookup g Hwf r Hr) as [v Hv].
  exists v. split; [done|]. by rewrite <- (deref_id_of _ _ _ Hv).
Qed.

(** X4: add_edge(a, b) returns exactly when the two ids differ, both name
    vertices of the graph, and no edge joins these two yet.  It then appends
    one new edge object, from a's vertex to b's vertex, at the end of the
    edge list and of the adjacency sequences of the two, adds the id of each
    to the neighbor set of the other, and leaves the vertex list and every
    other vertex object alone. *)
Theorem add_edge_appends g a b :
  reachable g →
  ((add_edge a b g).1 = Ok tt ↔
     a ≠ b ∧ ∃ ra rb, has_vertex g a ra ∧ has_vertex g b rb
                      ∧ ¬ Exists (joins ra rb) (edge_list g))
  ∧ (∀ ra rb, a ≠ b → has_vertex g a ra → has_vertex g b rb →
       ¬ Exists (joins ra rb) (edge_list g) →
       ∃ e g', add_edge a b g = (Ok tt, g')
         ∧ end1 e = ra ∧ end2 e = rb
         ∧ (eid e ∉ eid <$> edge_list g)
         ∧ edge_list g' = edge_list g ++ [e]
         ∧ vtx_list g' = vtx_list g
         ∧ (∀ r v, heap g !! r = Some v →
              ∃ v', heap g' !! r = Some v'
                ∧ vtx_id v' = vtx_id v
                ∧ edges v' = (if decide (r = ra ∨ r = rb)
                              then edges v ++ [e] else edges v)
                ∧ neighbors v' = (if decide (r = ra) then neighbors v ∪ {[b]}
                                  else if decide (r = rb) then neighbors v ∪ {[a]}
                                  else neighbors v))).
Proof.
  intros Hwf%reachable_wf. rewrite add_edge_spec by done. split.
  - split.
    + destruct (find_ref _ _ a) as [ra|] eqn:Ea; [|done].
      destruct (find_ref _ _ b) as [rb|] eqn:Eb; [|done].
      destruct (Z.eqb_spec a b) as [|Hab]; [done|]. case_decide as Hl; [done|].
      intros _. split; [done|]. exists ra, rb.
      apply find_ref_Some in Ea. apply find_ref_Some in Eb. done.
    + intros (Hab & ra & rb & Ha & Hb & Hl).
      rewrite (find_ref_has_vertex g a ra), (find_ref_has_vertex g b rb) by done.
      rewrite (proj2 (Z.eqb_neq a b)) by done. by rewrite decide_False.
  - intros ra rb Hab Ha Hb Hl.
    rewrite (find_ref_has_vertex g a ra), (find_ref_has_vertex g b rb) by done.
    rewrite (proj2 (Z.eqb_neq a b)) by done. rewrite decide_False by done.
    set (e := mkEdge (fresh_eid g) ra rb).
    assert (ra ≠ rb) as Hne.
    { intros ->. destruct Ha as [_ Ha], Hb as [_ Hb]. congruence. }
    exists e, (attach e g). split; [done|]. split; [done|]. split; [done|].
    split; [apply fresh_eid_fresh|]. split; [done|]. split; [done|].
    intros r v Hv. rewrite lookup_attach, Hv by done. simpl.
    destruct Ha as [_ Ha], Hb as [_ Hb].
    destruct (decide (r = ra)) as [->|Hra].
    { eexists. split; [done|]. split; [done|]. unfold attach_to; simpl.
      rewrite decide_True by (by left). split; [done|].
      change (neighbor_of ra e) with (neighbor_of (end1 e) e).
      rewrite neighbor_of_end1. simpl. by rewrite Hb. }
    destruct (decide (r = rb)) as [->|Hrb].
    { eexists. split; [done|]. split; [done|]. unfold attach_to; simpl.
      rewrite decide_True by (by right). split; [done|].
      change (neighbor_of rb e) with (neighbor_of (end2 e) e).
      rewrite neighbor_of_end2 by done. simpl. by rewrite Ha. }
    exists v. split; [done|]. split; [done|].
    rewrite decide_False by tauto. done.
Qed.

Lemma add_edge_appends_witness :
  ∃ e g', add_edge 1 4 sample_graph = (Ok tt, g')
    ∧ end1 e = 0 ∧ end2 e = 3
    ∧ edge_list g' = edge_list sample_graph ++ [e].
Proof.
  assert (has_vertex sample_graph 1 0) as H1.
  { split; [|reflexivity]. vm_compute. apply list_elem_of_In. simpl. tauto. }
  assert (has_vertex sample_graph 4 3) as H4.
  { split; [|reflexivity]. vm_compute. apply list_elem_of_In. simpl. tauto. }
  assert (¬ Exists (joins 0 3) (edge_list sample_graph)) as Hl.
  { apply (bool_decide_eq_false_1 _). vm_compute. reflexivity. }
  destruct (proj2 (add_edge_appends sample_graph 1 4 sample_graph_reachable)
              0 3 ltac:(lia) H1 H4 Hl)
    as (e & g' & Heq & He1 & He2 & _ & Hel & _).
  exists e, g'. split; [exact Heq|]. split; [exact He1|]. split; [exact He2|exact Hel].
Defined.

Lemma first_edge_between_sym a b l :
  first_edge_between a b l = first_edge_between b a l.
Proof.
  induction l as [|e l IH]; simpl; [done|].
  rewrite IH. by rewrite (orb_comm (_ && _)).
Qed.

Lemma joins_incident g a b e r :
  wf g → e ∈ edge_list g → joins a b e → incident r e ↔ r = a ∨ r = b.
Proof.
  intros Hwf He Hj. unfold joins, incident in *.
  destruct Hj as [[<- <-]|[<- <-]]; split; intros [H|H]; auto.
Qed.

Lemma joins_neighbor_of g a b e :
  wf g → e ∈ edge_list g → joins a b e →
  neighbor_of a e = b ∧ neighbor_of b e = a.
Proof.
  intros Hwf He Hj. destruct (wf_ends g Hwf e He) as (_ & _ & Hne).
  destruct Hj as [[<- <-]|[<- <-]].
  - split; [apply neighbor_of_end1|by apply neighbor_of_end2].
  - split; [by apply neighbor_of_end2|apply neighbor_of_end1].
Qed.

(** X5: remove_edge(a, b) and remove_edge(b, a) do the same.  The call
    returns exactly when both ids name vertices that an edge joins; it then
    takes that edge object, and no other, out of the edge list and of the
    adjacency sequences, the rest keeping its order, takes the id of each of
    the two out of the neighbor set of the other, and leaves the vertex list
    and every other vertex object alone. *)
Theorem remove_edge_takes_out g a b :
  reachable g →
  remove_edge a b g = remove_edge b a g
  ∧ ((remove_edge a b g).1 = Ok tt ↔
       ∃ ra rb, has_vertex g a ra ∧ has_vertex g b rb
                ∧ Exists (joins ra rb) (edge_list g))
  ∧ (∀ ra rb, has_vertex g a ra → has_vertex g b rb →
       Exists (joins ra rb) (edge_list g) →
       ∃ e g', remove_edge a b g = (Ok tt, g')
         ∧ e ∈ edge_list g ∧ joins ra rb e
         ∧ edge_list g' = filter (λ x, eid x ≠ eid e) (edge_list g)
         ∧ vtx_list g' = vtx_list g
         ∧ (∀ r v, heap g !! r = Some v →
              ∃ v', heap g' !! r = Some v'
                ∧ vtx_id v' = vtx_id v
                ∧ edges v' = filter (λ x, eid x ≠ eid e) (edges v)
                ∧ neighbors v' = (if decide (r = ra) then neighbors v ∖ {[b]}
                                  else if decide (r = rb) then neighbors v ∖ {[a]}
                                  else neighbors v))).
Proof.
  intros Hwf%reachable_wf. rewrite !remove_edge_spec by done. split; [|split].
  - destruct (find_ref _ _ a) as [ra|]; destruct (find_ref _ _ b) as [rb|]; try done.
    by rewrite (first_edge_between_sym ra rb).
  - split.
    + destruct (find_ref _ _ a) as [ra|] eqn:Ea; [|done].
      destruct (find_ref _ _ b) as [rb|] eqn:Eb; [|done].
      destruct (first_edge_between ra rb _) as [e|] eqn:Ee; [|done].
      intros _. exists ra, rb.
      apply find_ref_Some in Ea. apply find_ref_Some in Eb.
      apply first_edge_between_Some in Ee as [He Hj].
      split; [done|]. split; [done|]. apply Exists_exists. by exists e.
    + intros (ra & rb & Ha & Hb & Hl).
      rewrite (find_ref_has_vertex g a ra), (find_ref_has_vertex g b rb) by done.
      destruct (first_edge_between ra rb _) as [e|] eqn:Ee; [done|].
      by apply first_edge_between_None in Ee.
  - intros ra rb Ha Hb Hl.
    rewrite (find_ref_has_vertex g a ra), (find_ref_has_vertex g b rb) by done.
    destruct (first_edge_between ra rb _) as [e|] eqn:Ee;
      [|by apply first_edge_between_None in Ee].
    apply first_edge_between_Some in Ee as [He Hj].
    exists e, (detach e g). do 5 (split; [done|]).
    intros r v Hv.
    assert (is_Some (heap (detach e g) !! r)) as [v' Hv'].
    { rewrite lookup_detach, Hv by done. by eexists. }
    exists v'. split; [done|].
    destruct (edges_detach g Hwf e He r v v' Hv Hv') as [Hes Hns].
    split; [|split; [done|]].
    { rewrite <- (deref_id_of _ _ _ Hv), <- (deref_id_of _ _ _ Hv').
      by apply id_of_detach. }
    rewrite Hns.
    destruct (joins_neighbor_of g ra rb e Hwf He Hj) as [Hn1 Hn2].
    destruct Ha as [_ Ha], Hb as [_ Hb].
    destruct (decide (r = ra)) as [->|Hra].
    { rewrite decide_True by (apply (joins_incident g ra rb); auto).
      by rewrite Hn1, Hb. }
    destruct (decide (r = rb)) as [->|Hrb].
    { rewrite decide_True by (apply (joins_incident g ra rb); auto).
      by rewrite Hn2, Ha. }
    rewrite decide_False; [done|].
    rewrite (joins_incident g ra rb) by done. tauto.
Qed.

Lemma remove_edge_takes_out_witness :
  remove_edge 2 3 sample_graph = remove_edge 3 2 sample_graph
  ∧ ∃ e g', remove_edge 2 3 sample_graph = (Ok tt, g')
      ∧ e ∈ edge_list sample_graph ∧ joins 1 2 e
      ∧ edge_list g' = filter (λ x, eid x ≠ eid e) (edge_list sample_graph).
Proof.
  assert (has_vertex sample_graph 2 1) as H2.
  { split; [|reflexivity]. vm_compute. apply list_elem_of_In. simpl. tauto. }
  assert (has_vertex sample_graph 3 2) as H3.
  { split; [|reflexivity]. vm_compute. apply list_elem_of_In. simpl. tauto. }
  assert (Exists (joins 1 2) (edge_list sample_graph)) as Hl.
  { apply (bool_decide_eq_true_1 _). vm_compute. reflexivity. }
  destruct (remove_edge_takes_out sample_graph 2 3 sample_graph_reachable)
    as (Hsym & _ & H).
  split; [exact Hsym|].
  destruct (H 1 2 H2 H3 Hl) as (e & g' & Heq & He & Hj & Hel & _).
  exists e, g'. split; [exact Heq|]. split; [exact He|]. split; [exact Hj|exact Hel].
Defined.

(** X6: Vertex.get_edge_with_neighbor raises IllegalArgumentError when the
    neighbor is None.  Between two vertices of the graph it returns the edge
    that joins them, the same edge whichever of the two is asked, and None
    exactly when no edge joins them; it changes nothing. *)
Theorem get_edge_with_neighbor_finds g ra rb :
  reachable g → ra ∈ vtx_list g → rb ∈ vtx_list g →
  get_edge_with_neighbor ra None g = (Raise IllegalArgumentError, g)
  ∧ ∃ found, get_edge_with_neighbor ra (Some rb) g = (Ok found, g)
      ∧ get_edge_with_neighbor rb (Some ra) g = (Ok found, g)
      ∧ (∀ e, found = Some e ↔ e ∈ edge_list g ∧ joins ra rb e).
Proof.
  intros Hwf%reachable_wf Ha Hb. split; [done|].
  destruct (wf_lookup g Hwf ra Ha) as [va Hva].
  destruct (wf_lookup g Hwf rb Hb) as [vb Hvb].
  exists (first_edge_between ra rb (edge_list g)).
  split; [by eapply get_edge_with_neighbor_spec|].
  split.
  { rewrite (first_edge_between_sym ra rb). by eapply get_edge_with_neighbor_spec. }
  intros e. split; [apply first_edge_between_Some|].
  intros [He Hj].
  destruct (first_edge_between ra rb _) as [e'|] eqn:Ee.
  - apply first_edge_between_Some in Ee as [He' Hj']. f_equal.
    apply (wf_simple g Hwf); [done..|].
    unfold parallel, joins in *.
    destruct Hj as [[? ?]|[? ?]], Hj' as [[? ?]|[? ?]]; [left|right|right|left];
      split; congruence.
  - apply first_edge_between_None in Ee. destruct Ee.
    apply Exists_exists. by exists e.
Qed.

Lemma get_edge_with_neighbor_finds_witness :
  ∃ found, get_edge_with_neighbor 0 (Some 1) sample_graph = (Ok found, sample_graph)
    ∧ get_edge_with_neighbor 1 (Some 0) sample_graph = (Ok found, sample_graph).
Proof.
  assert (0 ∈ vtx_list sample_graph) as H0.
  { vm_compute. apply list_elem_of_In. simpl. tauto. }
  assert (1 ∈ vtx_list sample_graph) as H1.
  { vm_compute. apply list_elem_of_In. simpl. tauto. }
  destruct (get_edge_with_neighbor_finds sample_graph 0 1
              sample_graph_reachable H0 H1) as (_ & found & Hf1 & Hf2 & _).
  exists found. split; [exact Hf1|exact Hf2].
Defined.

(** ** Adjacency sequences and neighbor sets *)

(** X7: after any sequence of calls from the empty graph, the adjacency
    sequence of every vertex is the edge list cut down to the edges at that
    vertex, in the order of the edge list; its neighbor set holds exactly
    the ids of the vertices an edge joins it to; and the set has as many ids
    as the sequence has edges. *)
Theorem neighbors_in_sync (cs : list call) :
  let g := run cs empty_graph in
  ∀ r v, r ∈ vtx_list g → heap g !! r = Some v →
    edges v = filter (incident r) (edge_list g)
    ∧ (∀ id, id ∈ neighbors v ↔
             ∃ r', has_vertex g id r' ∧ Exists (joins r r') (edge_list g))
    ∧ size (neighbors v) = length (edges v).
Proof.
  intros g. assert (wf g) as Hwf by (apply reachable_wf; by exists cs).
  intros r v Hr Hv. split; [by apply Hwf|].
  assert (∀ e, e ∈ edges v →
            e ∈ edge_list g ∧ neighbor_of r e ∈ vtx_list g
            ∧ joins r (neighbor_of r e) e) as Hadj.
  { intros e [He Hinc]%(wf_adj_elem g Hwf r v e Hv).
    destruct (wf_neighbor_in g Hwf r e He Hinc) as (Hn & Hne & _).
    split; [done|]. split; [done|]. by apply neighbor_of_joins. }
  split.
  - intros id. split.
    + rewrite (wf_neighbors g Hwf r v Hv), elem_of_list_to_set, list_elem_of_fmap.
      intros (e & -> & He). destruct (Hadj e He) as (Hel & Hn & Hj).
      exists (neighbor_of r e). split; [done|].
      apply Exists_exists. by exists e.
    + intros (r' & [Hr' <-] & Hl).
      apply (wf_neighbors_elem g Hwf r r' v Hv Hr').
      by apply Exists_exists in Hl.
  - rewrite (wf_neighbors g Hwf r v Hv), size_list_to_set; [by rewrite length_fmap|].
    apply NoDup_fmap_2_strong.
    + intros x y Hx Hy Heq.
      destruct (Hadj x Hx) as (Hxl & Hxn & Hxj), (Hadj y Hy) as (Hyl & Hyn & Hyj).
      apply (wf_ids g Hwf) in Heq; [|done..]. rewrite Heq in Hxj.
      apply (wf_simple g Hwf); [done..|]. by eapply joins_parallel.
    + eapply NoDup_fmap_1. by apply (wf_adj_NoDup g Hwf r v).
Qed.

Lemma neighbors_in_sync_witness :
  ∃ v, heap sample_graph !! 1 = Some v
    ∧ edges v = filter (incident 1) (edge_list sample_graph)
    ∧ size (neighbors v) = length (edges v).
Proof.
  assert (1 ∈ vtx_list sample_graph) as H1.
  { vm_compute. apply list_elem_of_In. simpl. tauto. }
  destruct (wf_lookup sample_graph (reachable_wf _ sample_graph_reachable) 1 H1)
    as [v Hv].
  destruct (neighbors_in_sync sample_calls 1 v H1 Hv) as (He & _ & Hsz).
  exists v. split; [exact Hv|]. split; [exact He|exact Hsz].
Defined.

(** ** Structure and marks *)

(** X8: no exploration changes the structure of the graph, whatever the
    graph and whether the call returns or raises: after [bfs],
    [shortest_path], the BFS component counter and [_dfs_helper] the vertex
    list and the edge list are what they were, and every vertex object has
    its id, adjacency sequence and neighbor set; only explored marks and
    layers may differ. *)
Theorem exploration_keeps_structure g :
  (∀ src, same_structure g (bfs src g).2)
  ∧ (∀ src dest, same_structure g (shortest_path src dest g).2)
  ∧ same_structure g (num_of_connected_components_with_bfs g).2
  ∧ (∀ fuel vtx ids, same_structure g (_dfs_helper fuel vtx ids g).2).
Proof.
  split; [|split; [|split]].
  - intros src. apply marks_only_bfs.
  - intros src dest. apply marks_only_shortest_path.
  - apply marks_only_num_bfs.
  - intros fuel vtx ids. apply marks_only_dfs_helper.
Qed.

Lemma marks_of_alter f i h r :
  (∀ v, explored (f v) = explored v ∧ layer (f v) = layer v) →
  marks_of (alter f i h) r = marks_of h r.
Proof.
  intros Hf. unfold marks_of. destruct (decide (i = r)) as [->|Hne].
  - rewrite list_lookup_alter, decide_True by done.
    destruct (h !! r) as [v|]; simpl; [|done].
    destruct (Hf v) as [-> ->]. done.
  - by rewrite list_lookup_alter_ne.
Qed.

Lemma marks_of_attach e g r : marks_of (heap (attach e g)) r = marks_of (heap g) r.
Proof. unfold attach; simpl. by rewrite !marks_of_alter. Qed.

Lemma marks_of_detach e g r : marks_of (heap (detach e g)) r = marks_of (heap g) r.
Proof. unfold detach; simpl. by rewrite !marks_of_alter. Qed.

Lemma marks_of_detach_all es g r :
  marks_of (heap (detach_all es g)) r = marks_of (heap g) r.
Proof.
  revert g. induction es as [|e es IH]; intros g; simpl; [done|].
  by rewrite IH, marks_of_detach.
Qed.

Lemma marks_of_Some h r v : h !! r = Some v → marks_of h r = Some (explored v, layer v).
Proof. unfold marks_of. by intros ->. Qed.

(** X9: no mutation touches the exploration state: a vertex object that is
    there before add_vtx, remove_vtx, add_edge or remove_edge has the same
    explored mark and the same layer after it, whether the call returns or
    raises. *)
Theorem mutation_keeps_marks g c :
  reachable g → is_mutation c = true →
  ∀ r v, heap g !! r = Some v →
    ∃ v', heap (exec c g).2 !! r = Some v'
      ∧ explored v' = explored v ∧ layer v' = layer v.
Proof.
  intros Hwf%reachable_wf Hm r v Hv.
  assert (marks_of (heap (exec c g).2) r = marks_of (heap g) r) as Heq.
  { destruct c as [id|id|a b|a b|s|s|s d| |]; try done; simpl.
    - rewrite add_vtx_spec by done.
      destruct (find_ref _ _ _); simpl; [done|].
      unfold marks_of. by rewrite (lookup_app_l_Some _ _ _ _ Hv), Hv.
    - rewrite remove_vtx_spec by done.
      destruct (find_ref _ _ _); simpl; [|done].
      unfold isolate. apply marks_of_detach_all.
    - rewrite add_edge_spec by done.
      destruct (find_ref _ _ a); [|done]. destruct (find_ref _ _ b); [|done].
      destruct (a =? b)%Z; [done|]. case_decide; [done|]. apply marks_of_attach.
    - rewrite remove_edge_spec by done.
      destruct (find_ref _ _ a); [|done]. destruct (find_ref _ _ b); [|done].
      destruct (first_edge_between _ _ _); [|done]. apply marks_of_detach. }
  rewrite (marks_of_Some _ _ _ Hv) in Heq. unfold marks_of in Heq.
  destruct (heap (exec c g).2 !! r) as [v'|]; [|done].
  exists v'. simpl in Heq. injection Heq as H1 H2. done.
Qed.

Lemma mutation_keeps_marks_witness :
  ∃ v v', heap (bfs 1 sample_graph).2 !! 0 = Some v
    ∧ heap (exec (RemoveVtx 2) (bfs 1 sample_graph).2).2 !! 0 = Some v'
    ∧ explored v' = explored v ∧ layer v' = layer v.
Proof.
  assert (reachable (bfs 1 sample_graph).2) as Hr.
  { exists (sample_calls ++ [Bfs 1]). vm_compute. reflexivity. }
  destruct (wf_lookup _ (reachable_wf _ Hr) 0) as [v Hv].
  { vm_compute. apply list_elem_of_In. simpl. tauto. }
  destruct (mutation_keeps_marks _ (RemoveVtx 2) Hr eq_refl 0 v Hv)
    as (v' & Hv' & He & Hl).
  exists v, v'. split; [exact Hv|]. split; [exact Hv'|]. split; [exact He|exact Hl].
Defined.

(** ** A source that is not there *)

(** X10: when no vertex of the graph carries the source id, [bfs] and
    [shortest_path] raise IllegalArgumentError and leave the graph as it
    was, marks included. *)
Theorem missing_source_raises g src :
  reachable g → (∀ r, ¬ has_vertex g src r) →
  bfs src g = (Raise IllegalArgumentError, g)
  ∧ (∀ dest, shortest_path src dest g = (Raise IllegalArgumentError, g)).
Proof.
  intros Hwf%reachable_wf Hno. split.
  - unfold bfs. rewrite (bind_Ok _ _ _ _ _ (find_vtx_spec g src Hwf)).
    by rewrite find_ref_no_vertex.
  - intros dest. unfold shortest_path.
    rewrite (bind_Ok _ _ _ _ _ (find_vtx_spec g src Hwf)).
    rewrite (bind_Ok _ _ _ _ _ (find_vtx_spec g dest Hwf)).
    by rewrite find_ref_no_vertex.
Qed.

Lemma sample_graph_no_vertex_9 r : ¬ has_vertex sample_graph 9 r.
Proof.
  intros [Hr Hid].
  assert (vtx_list sample_graph = [0; 1; 2; 3]) as E by (vm_compute; reflexivity).
  rewrite E in Hr. set_unfold in Hr.
  destruct Hr as [->|[->|[->|[->|[]]]]]; vm_compute in Hid; discriminate.
Qed.

Lemma missing_source_raises_witness :
  bfs 9 sample_graph = (Raise IllegalArgumentError, sample_graph)
  ∧ (∀ dest, shortest_path 9 dest sample_graph
             = (Raise IllegalArgumentError, sample_graph)).
Proof.
  exact (missing_source_raises sample_graph 9 sample_graph_reachable
           sample_graph_no_vertex_9).
Defined.

(** ** What the component counters count *)

Lemma count_order_all_explored explore l X :
  (∀ v, v ∈ l → v ∈ X) → count_order explore l X = Some (0, X).
Proof.
  induction l as [|v l IH]; intros Hall; simpl; [done|].
  rewrite decide_True by (apply Hall; left).
  apply IH. intros r Hr. apply Hall. by right.
Qed.

(** The vertices at which the loop of a counter starts a traversal: one in
    each component it meets, no two of them in the same. *)
Lemma count_order_reps el n X0 explore l :
  explores el n X0 explore → Forall (λ v, v < n) l →
  ∀ X, (∀ r, r ∈ X0 → r ∈ X) → closed_outside el X0 X →
    ∃ Y reps, count_order explore l X = Some (length reps, Y)
      ∧ (∀ s, s ∈ reps → s ∈ l ∧ s ∉ X)
      ∧ (∀ r, r ∈ Y ↔ r ∈ X ∨ ∃ s, s ∈ reps ∧ rtc (adj_outside el X0) s r)
      ∧ (∀ i j s t, reps !! i = Some s → reps !! j = Some t →
           rtc (adj_outside el X0) s t → i = j)
      ∧ (∀ v, v ∈ l → v ∈ Y).
Proof.
  intros Hex Hl. induction Hl as [|v l Hv Hl IH]; intros X Hsub Hclo.
  { exists X, []. split; [done|]. split; [by intros s Hs%elem_of_nil|].
    split; [|split; [done|by intros v Hv%elem_of_nil]].
    intros r. split; [by left|]. by intros [?|(s & Hs%elem_of_nil & _)]. }
  destruct (count_order_cons el n X0 explore v l X Hex Hv Hsub Hclo)
    as (E & HE & HcE & ->).
  destruct (IH E) as (Y & reps & -> & Hreps & HY & Hsep & Hcov); [|done|].
  { intros r Hr. apply HE. left. by apply Hsub. }
  assert (v ∈ E) as HvE by (apply HE; by right).
  case_decide as HvX.
  - assert (∀ r, r ∈ E ↔ r ∈ X) as HEX.
    { intros r. rewrite HE. split; [|by left]. intros [?|Hp]; [done|].
      by eapply closed_outside_reach. }
    exists Y, reps. split; [done|]. split; [|split; [|split; [done|]]].
    + intros s Hs. destruct (Hreps s Hs) as [Hin Hout].
      split; [by right|]. by rewrite <- HEX.
    + intros r. by rewrite HY, HEX.
    + intros r [->|Hr]%elem_of_cons; [|by apply Hcov].
      apply HY. by left.
  - exists Y, (v :: reps). split; [done|]. split; [|split; [|split]].
    + intros s [->|Hs]%elem_of_cons; [split; [left|done]|].
      destruct (Hreps s Hs) as [Hin Hout]. split; [by right|].
      intros HsX. apply Hout, HE. by left.
    + intros r. rewrite HY, HE. split.
      * intros [[?|Hp]|(s & Hs & Hp)]; [by left| |].
        -- right. exists v. split; [left|done].
        -- right. exists s. split; [by right|done].
      * intros [?|(s & [->|Hs]%elem_of_cons & Hp)]; [by left; left| |].
        -- left. by right.
        -- right. by exists s.
    + intros [|i] [|j] s t Hi Hj Hp; simpl in *.
      * done.
      * injection Hi as <-. apply list_elem_of_lookup_2 in Hj.
        destruct (Hreps t Hj) as [_ []]. apply HE. by right.
      * injection Hj as <-. apply list_elem_of_lookup_2 in Hi.
        destruct (Hreps s Hi) as [_ []]. apply HE. right.
        by apply reach_outside_sym.
      * f_equal. by eapply Hsep.
    + intros r [->|Hr]%elem_of_cons; [|by apply Hcov].
      apply HY. by left.
Qed.

(** X11: on a graph without marks the BFS counter returns the number of
    connected components: it starts one traversal at each vertex of a list
    [reps] of vertices of the graph, and returns its length; every vertex
    of the graph is connected to one of [reps], and no two vertices of
    [reps] are connected. *)
Theorem bfs_count_is_number_of_components g :
  reachable g → clean g →
  ∃ reps, (num_of_connected_components_with_bfs g).1 = Ok (length reps)
    ∧ NoDup reps
    ∧ (∀ s, s ∈ reps → s ∈ vtx_list g)
    ∧ (∀ r, r ∈ vtx_list g → ∃ s, s ∈ reps ∧ connected g s r)
    ∧ (∀ s t, s ∈ reps → t ∈ reps → connected g s t → s = t).
Proof.
  intros Hwf%reachable_wf Hclean.
  set (n := length (heap g)). set (el := edge_list g). set (X := explored_list g).
  assert (∀ a b, adj el a b → b < n) as Hbound.
  { intros a b. by apply adj_bound. }
  destruct (count_order_reps el n X
              (λ v Y, bfs_order el (2 + n) [v] Y) (vtx_list g))
    with (X := X) as (Y & reps & Hc & Hreps & HY & Hsep & Hcov); try done.
  { apply bfs_explores; [done|lia]. }
  { by apply wf_vtx_bound. }
  { apply closed_outside_start. }
  assert (∀ a b, rtc (adj_outside el X) a b → connected g a b) as Hin.
  { intros a b Hp. induction Hp as [|a b c (Hab & _) _ IH]; [apply rtc_refl|].
    by eapply rtc_l. }
  assert (∀ a b, connected g a b → a ∈ vtx_list g → rtc (adj_outside el X) a b)
    as Hout.
  { intros a b Hp. induction Hp as [|a b c Hab _ IH]; [intros; apply rtc_refl|].
    intros Ha.
    destruct (adj_in_graph g a b Hwf Hab) as [_ Hb].
    eapply rtc_l; [|by apply IH]. split; [done|].
    split; intros Hx; by apply (explored_list_clean g _ Hclean Hx). }
  exists reps.
  destruct (num_bfs_refines g X (length reps) Y Hwf (tracks_explored_list g) Hc)
    as (Z & -> & _).
  split; [done|]. split; [|split; [|split]].
  - apply NoDup_alt. intros i j s Hi Hj. by apply (Hsep i j s s).
  - intros s Hs. by apply Hreps.
  - intros r Hr. destruct (proj1 (HY r) (Hcov r Hr)) as [Hx|(s & Hs & Hp)].
    + by destruct (explored_list_clean g r Hclean Hx).
    + exists s. split; [done|]. by apply Hin.
  - intros s t Hs Ht Hp.
    apply list_elem_of_lookup in Hs as [i Hi]. apply list_elem_of_lookup in Ht as [j Hj].
    assert (i = j) as ->; [|congruence].
    apply (Hsep i j s t Hi Hj). apply Hout; [done|].
    apply Hreps. by eapply list_elem_of_lookup_2.
Qed.

Lemma bfs_count_is_number_of_components_witness :
  ∃ reps, (num_of_connected_components_with_bfs sample_graph).1 = Ok (length reps)
    ∧ NoDup reps
    ∧ (∀ r, r ∈ vtx_list sample_graph → ∃ s, s ∈ reps ∧ connected sample_graph s r).
Proof.
  destruct (bfs_count_is_number_of_components sample_graph
              sample_graph_reachable sample_graph_clean)
    as (reps & Hk & Hnd & _ & Hcov & _).
  exists reps. split; [exact Hk|]. split; [exact Hnd|exact Hcov].
Defined.

(** X12: the marks of a count are never cleared, so counting again finds
    nothing: after the BFS counter has run, on any graph, every vertex of
    the graph is marked explored, and a second run of the counter returns 0
    and changes nothing. *)
Theorem second_count_is_zero g :
  reachable g →
  let g1 := (num_of_connected_components_with_bfs g).2 in
  (∀ r, r ∈ vtx_list g → explored_at g1 r = true)
  ∧ num_of_connected_components_with_bfs g1 = (Ok 0, g1).
Proof.
  intros Hwf%reachable_wf.
  set (n := length (heap g)). set (el := edge_list g). set (X := explored_list g).
  assert (∀ a b, adj el a b → b < n) as Hbound.
  { intros a b. by apply adj_bound. }
  destruct (count_order_reps el n X
              (λ v Y, bfs_order el (2 + n) [v] Y) (vtx_list g))
    with (X := X) as (Y & reps & Hc & _ & _ & _ & Hcov); try done.
  { apply bfs_explores; [done|lia]. }
  { by apply wf_vtx_bound. }
  { apply closed_outside_start. }
  destruct (num_bfs_refines g X (length reps) Y Hwf (tracks_explored_list g) Hc)
    as (Z & -> & HY).
  simpl.
  assert (tracks (mark_all Z g) Y) as Ht.
  { rewrite HY. apply tracks_mark_all, tracks_explored_list. }
  split.
  - intros r Hr. apply Ht; [|by apply Hcov].
    rewrite length_mark_all. by apply Hwf.
  - destruct (num_bfs_refines (mark_all Z g) Y 0 Y) as (Z' & -> & HZ');
      [by apply wf_mark_all|done| |].
    + by apply count_order_all_explored.
    + rewrite <- (app_nil_r Y) in HZ' at 1. apply app_inv_head in HZ' as <-.
      by rewrite mark_all_nil.
Qed.

Lemma second_count_is_zero_witness :
  num_of_connected_components_with_bfs
    (num_of_connected_components_with_bfs sample_graph).2
  = (Ok 0, (num_of_connected_components_with_bfs sample_graph).2).
Proof. exact (proj2 (second_count_is_zero sample_graph sample_graph_reachable)). Defined.

(** ** Traversals on a graph that carries marks *)

Lemma reach_outside_in el X (E : vref → Prop) a r :
  E a → (∀ a b, E a → adj el a b → b ∉ X → E b) →
  rtc (step_outside el X) a r → E r.
Proof.
  intros Ha Hstep Hp. induction Hp as [|a b c [Hab Hb] _ IH]; [done|].
  apply IH. by apply (Hstep a b).
Qed.

(** X13: started at a vertex that is marked explored, on a graph built
    through the public operations and with room for one nested call per
    vertex object, [_dfs_helper] returns.  It has then appended to the
    shared list the ids of the vertices it discovered, each once, and marked
    these and no other: they are exactly the unexplored vertices that the
    start vertex reaches along edges through unexplored vertices. *)
Theorem dfs_helper_discovers g vtx ids fuel :
  reachable g → vtx ∈ vtx_list g → explored_at g vtx = true →
  length (heap g) < fuel →
  ∃ new, _dfs_helper fuel vtx ids g
         = (Ok (ids ++ (id_of (heap g) <$> new)), mark_all new g)
    ∧ NoDup new
    ∧ (∀ r, r ∈ new ↔
            (r ∉ explored_list g)
            ∧ rtc (step_outside (edge_list g) (explored_list g)) vtx r).
Proof.
  intros Hwf%reachable_wf Hv Hex Hfuel.
  set (n := length (heap g)). set (el := edge_list g). set (X := explored_list g).
  assert (∀ a b, adj el a b → b < n) as Hbound.
  { intros a b. by apply adj_bound. }
  assert (vtx < n) as Hlt by (by apply Hwf).
  assert (vtx ∈ X) as HvX by (by apply (tracks_explored_list g)).
  destruct (dfs_order_spec el n Hbound fuel vtx X)
    as (new & Heq & Hnd & Hfresh & Hpath & Hclo); [|done|].
  { pose proof (unexplored_length n X). lia. }
  exists new. split; [|split; [done|]].
  - apply (dfs_helper_refines fuel g X); [done|apply tracks_explored_list|done..].
  - intros r. split; [intros Hr; split; [by apply Hfresh|by apply Hpath]|].
    intros [HrX Hp].
    assert (r = vtx ∨ r ∈ new) as [->|Hr]; [|done..].
    apply (reach_outside_in el X (λ x, x = vtx ∨ x ∈ new) vtx r); [by left| |done].
    intros a b Ha Hab Hb. right.
    assert (b ∈ X ++ new) as [?|?]%elem_of_app; [|done..].
    apply (Hclo (λ x, x ∈ X)) with a; [by intros ? ? ? []| | |done].
    + apply elem_of_app. destruct Ha as [->|Ha]; [by left|by right].
    + intros [HaX Hne]. destruct Ha as [->|Ha]; [done|]. by apply (Hfresh a).
Qed.

Lemma dfs_helper_discovers_witness :
  ∃ new, _dfs_helper 5 1 [2%Z] (shortest_path 1 2 sample_graph).2
         = (Ok ([2%Z] ++ (id_of (heap (shortest_path 1 2 sample_graph).2) <$> new)),
            mark_all new (shortest_path 1 2 sample_graph).2)
    ∧ NoDup new.
Proof.
  set (g := (shortest_path 1 2 sample_graph).2).
  destruct (dfs_helper_discovers g 1 [2%Z] 5) as (new & Heq & Hnd & _).
  - exists (sample_calls ++ [ShortestPath 1 2]). vm_compute. reflexivity.
  - vm_compute. apply list_elem_of_In. simpl. tauto.
  - vm_compute. reflexivity.
  - vm_compute. lia.
  - exists new. split; [exact Heq|exact Hnd].
Defined.

(** X14: on a graph built through the public operations, whatever marks it
    carries, bfs(source) returns when the source exists: the source id, then
    the ids of the vertices it discovered, each once.  It marks the source
    and these and no other: they are exactly the unexplored vertices, the
    source apart, that the source reaches along edges through such
    vertices. *)
Theorem bfs_discovers g src s :
  reachable g → has_vertex g src s →
  let X := explored_list g ++ [s] in
  ∃ new, bfs src g = (Ok (src :: (id_of (heap g) <$> new)), mark_all (s :: new) g)
    ∧ NoDup new
    ∧ (∀ r, r ∈ new ↔ (r ∉ X) ∧ rtc (step_outside (edge_list g) X) s r).
Proof.
  intros Hwf%reachable_wf Hs X.
  set (n := length (heap g)). set (el := edge_list g).
  assert (∀ a b, adj el a b → b < n) as Hbound.
  { intros a b. by apply adj_bound. }
  destruct (bfs_order_spec el n Hbound (2 + n) [s] X)
    as (new & Heq & Hnd & Hfresh & Hpath & Hclo).
  { pose proof (unexplored_length n X). simpl. lia. }
  exists new. split; [|split; [done|]].
  - rewrite (bfs_refines g (explored_list g) src s new Hwf
               (tracks_explored_list g) Hs Heq).
    rewrite fmap_cons. by destruct Hs as [_ ->].
  - intros r. split.
    + intros Hr. split; [by apply Hfresh|].
      destruct (Hpath r Hr) as (q0 & ->%list_elem_of_singleton & Hp). done.
    + intros [HrX Hp].
      assert (r = s ∨ r ∈ new) as [->|Hr]; [| |done].
      * apply (reach_outside_in el X (λ x, x = s ∨ x ∈ new) s r); [by left| |done].
        intros a b Ha Hab Hb. right.
        assert (b ∈ X ++ new) as [?|?]%elem_of_app; [|done..].
        apply (Hclo a b); [|done].
        destruct Ha as [->|Ha]; [left|by right].
      * destruct HrX. apply elem_of_app. right. left.
Qed.

Lemma bfs_discovers_witness :
  ∃ new, bfs 2 (shortest_path 1 2 sample_graph).2
         = (Ok (2%Z :: (id_of (heap (shortest_path 1 2 sample_graph).2) <$> new)),
            mark_all (1 :: new) (shortest_path 1 2 sample_graph).2)
    ∧ NoDup new.
Proof.
  set (g := (shortest_path 1 2 sample_graph).2).
  destruct (bfs_discovers g 2 1) as (new & Heq & Hnd & _).
  - exists (sample_calls ++ [ShortestPath 1 2]). vm_compute. reflexivity.
  - split; [|vm_compute; reflexivity].
    vm_compute. apply list_elem_of_In. simpl. tauto.
  - exists new. split; [exact Heq|exact Hnd].
Defined.

(** ** [shortest_path] counts the edges of a shortest walk *)

Lemma layer_at_mark_all X g r : layer_at (mark_all X g) r = layer_at g r.
Proof.
  unfold layer_at. rewrite lookup_mark_all.
  destruct (heap g !! r) as [v|]; [|done]. simpl. by case_decide.
Qed.

Lemma set_layer_Ok g r v z :
  heap g !! r = Some v →
  set_layer r z g = (Ok tt, with_heap (<[r := with_layer z v]> (heap g)) g).
Proof.
  intros Hv. unfold set_layer. by rewrite (bind_Ok _ _ _ _ _ (deref_Some _ _ _ Hv)).
Qed.

Lemma layer_at_set_layer g r v z r' :
  heap g !! r = Some v →
  layer_at (with_heap (<[r := with_layer z v]> (heap g)) g) r'
  = if decide (r' = r) then z else layer_at g r'.
Proof.
  intros Hv. unfold layer_at. simpl. case_decide as Hr.
  - subst r'. by rewrite list_lookup_insert_eq by (by eapply lookup_lt_Some).
  - by rewrite list_lookup_insert_ne.
Qed.

Lemma tracks_set_layer g X r v z :
  heap g !! r = Some v → tracks g X →
  tracks (with_heap (<[r := with_layer z v]> (heap g)) g) X.
Proof.
  intros Hv Ht r' Hr'. simpl in Hr'. rewrite length_insert in Hr'.
  rewrite (explored_at_set_layer g r v z r' Hv). by apply Ht.
Qed.

(** The [for] loop of [shortest_path] at the vertex [vtx]: either the
    destination is among the vertices this pass discovers, and the loop
    returns the layer of [vtx] plus one; or it runs to its end, with every
    vertex it discovered in the queue, marked, and on that layer. *)
Lemma shortest_path_scan_spec vtx dest es : ∀ g X queue,
  tracks g X → vtx ∈ X → vtx < length (heap g) →
  (∀ e, e ∈ es → neighbor_of vtx e < length (heap g)) →
  ∃ g' res, shortest_path_scan vtx dest es queue g = (Ok res, g')
    ∧ (((∃ r, dest = Some r ∧ r ∈ scan_fresh (neighbor_of vtx <$> es) X)
        ∧ res = inl (layer_at g vtx + 1)%Z)
       ∨ ((∀ r, dest = Some r → r ∉ scan_fresh (neighbor_of vtx <$> es) X)
          ∧ res = inr (queue ++ scan_fresh (neighbor_of vtx <$> es) X)
          ∧ tracks g' (X ++ scan_fresh (neighbor_of vtx <$> es) X)
          ∧ (∀ r, layer_at g' r
                  = if decide (r ∈ scan_fresh (neighbor_of vtx <$> es) X)
                    then (layer_at g vtx + 1)%Z else layer_at g r))).
Proof.
  induction es as [|e es IH]; intros g X queue Ht HvX Hv Hlt.
  { exists g, (inr queue). split; [done|]. right.
    cbn [fmap list_fmap scan_fresh].
    split; [by intros r _ Hr%elem_of_nil|]. rewrite !app_nil_r.
    split; [done|]. split; [done|]. intros r.
    rewrite decide_False; [done|]. apply not_elem_of_nil. }
  cbn [shortest_path_scan fmap list_fmap scan_fresh].
  set (n := neighbor_of vtx e).
  assert (n < length (heap g)) as Hn by (apply Hlt; left).
  destruct (lookup_lt_is_Some_2 _ _ Hn) as [nb Hnb].
  destruct (lookup_lt_is_Some_2 _ _ Hv) as [vv Hvv].
  rewrite (bind_Ok _ _ _ _ _ (deref_Some _ _ _ Hnb)).
  pose proof (tracks_explored g X _ nb Ht Hnb) as Hex.
  destruct (explored nb) eqn:Hexp.
  { rewrite (decide_True (P := n ∈ X)) by (by apply Hex).
    apply IH; [done..|]. intros e' He'. apply Hlt. by right. }
  assert (n ∉ X) as HnX by (rewrite <- Hex; done).
  assert (vtx ≠ n) as Hne by congruence.
  rewrite (decide_False (P := n ∈ X)) by done.
  rewrite (bind_Ok _ _ _ _ _ (set_as_explored_Ok g _ Hn)).
  set (g1 := mark_all [n] g).
  assert (heap g1 !! vtx = Some vv) as Hvv1.
  { unfold g1. rewrite lookup_mark_all, Hvv.
    rewrite decide_False; [done|]. by intros ?%list_elem_of_singleton. }
  assert (heap g1 !! n = Some (with_explored true nb)) as Hnb1.
  { unfold g1. rewrite lookup_mark_all, Hnb.
    rewrite decide_True; [done|]. by apply list_elem_of_singleton. }
  rewrite (bind_Ok _ _ _ _ _ (deref_Some _ _ _ Hvv1)).
  rewrite (bind_Ok _ _ _ _ _ (set_layer_Ok g1 n _ (layer vv + 1) Hnb1)).
  set (g2 := with_heap _ g1).
  assert (layer vv = layer_at g vtx) as Hlv by (unfold layer_at; by rewrite Hvv).
  assert (∀ r, layer_at g2 r
               = if decide (r = n) then (layer_at g vtx + 1)%Z else layer_at g r)
    as Hlay2.
  { intros r. unfold g2. rewrite (layer_at_set_layer g1 n _ _ r Hnb1), Hlv.
    case_decide; [done|]. apply layer_at_mark_all. }
  assert (tracks g2 (X ++ [n])) as Ht2.
  { apply (tracks_set_layer g1 _ n _ _ Hnb1). by apply tracks_mark_all. }
  assert (length (heap g2) = length (heap g)) as Hlen2.
  { unfold g2. cbn [heap with_heap]. rewrite length_insert. apply length_mark_all. }
  case_decide as Hd.
  { assert (heap g2 !! n = Some (with_layer (layer vv + 1) (with_explored true nb)))
      as Hnb2.
    { unfold g2. simpl. apply list_lookup_insert_eq. by eapply lookup_lt_Some. }
    rewrite (bind_Ok _ _ _ _ _ (deref_Some _ _ _ Hnb2)).
    exists g2, (inl (layer vv + 1)%Z). split; [done|]. left.
    split; [|by rewrite Hlv]. exists n. split; [done|left]. }
  destruct (IH g2 (X ++ [n]) (queue ++ [n])) as (g' & res & -> & Hres).
  { done. }
  { apply elem_of_app. by left. }
  { by rewrite Hlen2. }
  { intros e' He'. rewrite Hlen2. apply Hlt. by right. }
  exists g', res. split; [done|].
  set (new' := scan_fresh (neighbor_of vtx <$> es) (X ++ [n])) in *.
  assert (layer_at g2 vtx = layer_at g vtx) as Hlvtx.
  { rewrite Hlay2. by rewrite decide_False. }
  destruct Hres as [[(r & Hr & Hin) ->]|(Hno & -> & Ht' & Hlay')].
  - left. split; [|by rewrite Hlvtx]. exists r. split; [done|by right].
  - right. split; [|split; [|split]].
    + intros r Hr [->|Hin]%elem_of_cons; [congruence|]. by apply (Hno r).
    + by rewrite <- app_assoc.
    + by rewrite <- app_assoc in Ht'.
    + intros r. rewrite Hlay', Hlvtx, Hlay2.
      destruct (decide (r = n)) as [->|Hrn].
      * rewrite (decide_True (P := n ∈ n :: new')) by left. by case_decide.
      * destruct (decide (r ∈ new')) as [Hin|Hout].
        -- by rewrite decide_True by (by right).
        -- rewrite decide_False; [done|]. by intros [?|?]%elem_of_cons.
Qed.

(** The [while] loop of [shortest_path] on a graph whose marked vertex
    objects [X0] are out of reach: with [out] taken out of the queue [q],
    both in order of discovery, and every one of them on the layer of the
    source plus its distance. *)
Lemma shortest_path_loop_dist el n X0 s L dest fuel : ∀ g out q,
  wf g → edge_list g = el → length (heap g) = n →
  (∀ a b, adj el a b → b < n ∧ b ∉ X0) →
  tracks g (X0 ++ out ++ q) →
  bfs_inv el s out q →
  s ∈ out ++ q →
  (∀ r, r ∈ out ++ q → r < n) →
  (∀ r k, r ∈ out ++ q → dist el s r k → layer_at g r = (L + Z.of_nat k)%Z) →
  (∀ r, dest = Some r → r ∉ out ++ q) →
  length q + length (unexplored n (X0 ++ out ++ q)) < fuel →
  ∃ z, (shortest_path_loop fuel dest q g).1 = Ok z
    ∧ ((z = (-1)%Z ∧ ∀ r, dest = Some r → ¬ rtc (adj el) s r)
       ∨ ∃ r k, dest = Some r ∧ dist el s r k ∧ z = (L + Z.of_nat k)%Z).
Proof.
  induction fuel as [|fuel IH];
    intros g out q Hwf Hel Hlen Hadj Ht Hinv Hs Hlt Hlay Hdest Hfuel; [lia|].
  destruct q as [|v q].
  { exists (-1)%Z. split; [done|]. left. split; [done|].
    intros r Hr Hp. apply (Hdest r Hr). rewrite app_nil_r in *.
    destruct Hinv as (_ & _ & Hclo & _).
    apply (closed_reach el out s r); [|done..].
    intros a b Ha Hab. specialize (Hclo a b Ha Hab). by rewrite app_nil_r in Hclo. }
  assert (v ∈ out ++ v :: q) as Hvq by (apply elem_of_app; right; left).
  assert (v < length (heap g)) as Hv by (rewrite Hlen; by apply Hlt).
  destruct (lookup_lt_is_Some_2 _ _ Hv) as [vv Hvv].
  cbn [shortest_path_loop].
  rewrite (bind_Ok _ _ _ _ _ (deref_Some _ _ _ Hvv)).
  set (X := X0 ++ out ++ v :: q) in *.
  assert (neighbor_of v <$> edges vv = nbrs el v) as Hns.
  { rewrite <- Hel. by apply nbrs_edges. }
  destruct (shortest_path_scan_spec v dest (edges vv) g X q) as (g' & res & Hscan & Hres).
  { done. }
  { apply elem_of_app. by right. }
  { done. }
  { intros e He. rewrite Hlen. apply (Hadj v). unfold adj. rewrite <- Hns.
    apply list_elem_of_fmap. by exists e. }
  rewrite Hns in Hres. set (new := scan_fresh (nbrs el v) X) in *.
  assert (new = scan_fresh (nbrs el v) (out ++ v :: q)) as Hnew0.
  { apply scan_fresh_members. intros r Hr. unfold X. rewrite elem_of_app.
    split; [|by right]. intros [Hr0|?]; [|done]. by destruct (Hadj v r Hr). }
  assert (∀ r, r ∈ new → adj el v r ∧ r ∉ X) as Hfresh.
  { intros r Hr. by apply scan_fresh_elem. }
  pose proof Hinv as (Hdists & _ & _ & Hhead).
  destruct (Hdists v Hvq) as [kv Hkv].
  destruct (Hhead v kv eq_refl Hkv) as [_ Hcomplete].
  assert (∀ r, r ∈ new → dist el s r (S kv)) as Hdnew.
  { intros r [Hvr HrX]%Hfresh. split.
    - eapply walk_snoc; [apply Hkv|done].
    - intros m Hm. destruct (le_lt_dec m kv) as [Hle|Hgt]; [|lia].
      destruct HrX. apply elem_of_app. right. by apply (Hcomplete r m). }
  rewrite (bind_Ok _ _ _ _ _ Hscan).
  destruct Hres as [[(r & Hr & Hin) ->]|(Hno & -> & Ht' & Hlay')].
  { exists (layer_at g v + 1)%Z. split; [done|]. right.
    exists r, (S kv). split; [done|]. split; [by apply Hdnew|].
    rewrite (Hlay v kv Hvq Hkv). lia. }
  pose proof (marks_only_shortest_path_scan v dest (edges vv) q g) as Hsame.
  rewrite Hscan in Hsame. simpl in Hsame.
  assert (∀ r, r ∈ (out ++ [v]) ++ q ++ new ↔ r ∈ out ++ v :: q ∨ r ∈ new) as Hmem.
  { intros r. rewrite !elem_of_app, !elem_of_cons, elem_of_nil. tauto. }
  apply (IH g' (out ++ [v]) (q ++ new)).
  - by apply (wf_same_structure g g').
  - rewrite <- Hel. apply Hsame.
  - rewrite <- Hlen. by apply same_structure_length.
  - done.
  - replace (X0 ++ (out ++ [v]) ++ q ++ new) with (X ++ new); [done|].
    unfold X. by rewrite <- !app_assoc.
  - rewrite Hnew0. by apply bfs_inv_step.
  - apply Hmem. by left.
  - intros r [Hr|Hr]%Hmem; [by apply Hlt|]. by apply (Hadj v r), Hfresh.
  - intros r k Hr%Hmem Hk. rewrite Hlay'. case_decide as Hin.
    + rewrite (dist_unique el s r k (S kv) Hk (Hdnew r Hin)).
      rewrite (Hlay v kv Hvq Hkv). lia.
    + destruct Hr as [Hr|Hr]; [by apply Hlay|done].
  - intros r Hr [Hin|Hin]%Hmem; [by apply (Hdest r Hr)|by apply (Hno r Hr)].
  - replace (X0 ++ (out ++ [v]) ++ q ++ new) with (X ++ new)
      by (unfold X; by rewrite <- !app_assoc).
    pose proof (unexplored_app n X new (scan_fresh_NoDup _ _)) as Hun.
    rewrite length_app. simpl in Hfuel.
    enough (length (unexplored n (X ++ new)) + length new = length (unexplored n X))
      by lia.
    apply Hun. intros r Hr. destruct (Hfresh r Hr) as [Hvr HrX].
    split; [by apply (Hadj v r)|done].
Qed.

(** X15: on a graph without marks, for a source and a destination that
    exist and differ, [shortest_path] returns the layer of the source plus
    the number of edges on a shortest walk from the source to the
    destination, and -1 when the two are not connected.  The layer of the
    source is read, never written: the result is the hop distance when that
    layer is 0. *)
Theorem shortest_path_hops g src dest s d :
  reachable g → clean g → has_vertex g src s → has_vertex g dest d → src ≠ dest →
  (∀ k, dist (edge_list g) s d k →
        (shortest_path src dest g).1 = Ok (layer_at g s + Z.of_nat k)%Z)
  ∧ (¬ connected g s d → (shortest_path src dest g).1 = Ok (-1)%Z).
Proof.
  intros Hwf%reachable_wf Hclean Hs Hd Hne.
  set (n := length (heap g)). set (el := edge_list g). set (X0 := explored_list g).
  assert (s < n) as Hlt by (apply Hwf, Hs).
  assert (∃ z, (shortest_path src dest g).1 = Ok z
            ∧ ((z = (-1)%Z ∧ ∀ r, Some d = Some r → ¬ rtc (adj el) s r)
               ∨ ∃ r k, Some d = Some r ∧ dist el s r k
                        ∧ z = (layer_at g s + Z.of_nat k)%Z))
    as (z & -> & Hz).
  { unfold shortest_path.
    rewrite (bind_Ok _ _ _ _ _ (find_vtx_spec g src Hwf)).
    rewrite (bind_Ok _ _ _ _ _ (find_vtx_spec g dest Hwf)).
    rewrite (find_ref_has_vertex g src s), (find_ref_has_vertex g dest d) by done.
    rewrite (bind_Ok _ _ _ _ _ (set_as_explored_Ok g s Hlt)).
    cbv beta. rewrite length_mark_all.
    apply (shortest_path_loop_dist el n X0 s (layer_at g s) (Some d) (2 + n)
             (mark_all [s] g) [] [s]).
    - by apply wf_mark_all.
    - done.
    - apply length_mark_all.
    - intros a b Hab. split; [by apply (adj_bound g a b)|].
      intros Hb. apply (explored_list_clean g b Hclean Hb).
      by apply (adj_in_graph g a b).
    - apply (tracks_mark_all g X0 [s]), tracks_explored_list.
    - apply bfs_inv_init.
    - left.
    - by intros r ->%list_elem_of_singleton.
    - intros r k ->%list_elem_of_singleton [_ Hmin].
      assert (k = 0) as ->.
      { specialize (Hmin 0 (walk_here el s)). lia. }
      rewrite layer_at_mark_all. lia.
    - intros r [= <-] ->%list_elem_of_singleton.
      destruct Hs as [_ Hs], Hd as [_ Hd]. congruence.
    - change (X0 ++ [] ++ [s]) with (X0 ++ [s]).
      pose proof (unexplored_length n (X0 ++ [s])). cbn [length]. lia. }
  split.
  - intros k Hk. destruct Hz as [[_ Hno]|(r & k' & [= <-] & Hk' & ->)].
    + destruct (Hno d eq_refl). eapply walk_connected. apply Hk.
    + by rewrite (dist_unique el s d k k' Hk Hk').
  - intros Hno. destruct Hz as [[-> _]|(r & k' & [= <-] & [Hw _] & _)]; [done|].
    destruct Hno. by eapply walk_connected.
Qed.

Lemma shortest_path_hops_witness :
  (shortest_path 1 2 sample_graph).1 = Ok (layer_at sample_graph 0 + Z.of_nat 1)%Z.
Proof.
  assert (has_vertex sample_graph 1 0) as H1.
  { split; [|reflexivity]. vm_compute. apply list_elem_of_In. simpl. tauto. }
  assert (has_vertex sample_graph 2 1) as H2.
  { split; [|reflexivity]. vm_compute. apply list_elem_of_In. simpl. tauto. }
  assert (dist (edge_list sample_graph) 0 1 1) as Hdist.
  { split.
    - apply (walk_step _ 0 1 1 0); [|constructor].
      unfold adj. vm_compute. apply list_elem_of_In. simpl. tauto.
    - intros m Hm. destruct m; [|lia]. apply walk_zero in Hm. discriminate. }
  apply (proj1 (shortest_path_hops sample_graph 1 2 0 1 sample_graph_reachable
                  sample_graph_clean H1 H2 ltac:(lia)) 1 Hdist).
Defined.
